(** * htmlgen: a shallow embedding of the tag tree, its renderers and the
    variable-text template language.

    The development follows the Go sources file by file:
    - [text_tag_var.go]: [Var], [parseVars], [TextTagVar] and its [write];
    - [htmlgen.go]: [writeIndent], [writeKeyValue], [writeRune], the factory
      methods that the properties below exercise, [copyAttrs];
    - [base_tag.go]: [baseTag], its mutators, [Copy], [Up], [write],
      [writePretty], [writeOpenTagLead], [writeOpenTagLeadSorted], [addChild];
    - [tag.go]: [commentTag], [htmlTag], [InputTag], [nullTag], [singleTag],
      [TextTag];
    - [constants.go]: the attribute and tag name tables.

    Go strings are byte strings and are modelled by [string] (a list of
    [ascii] bytes).  Go maps are reference objects holding a finite map; they
    live in a store of their own so that sharing between two tags can be
    expressed.  A Go [int] that holds a length or an offset into a string is
    modelled by [nat] (such a value lies between 0 and the length of a string
    held in memory, far below the 2^63 wrap-around); an [int] that may be
    negative ([Up]'s count, attribute and tag identifiers) is modelled by [Z]. *)

From stdpp Require Import base option list sorting gmap strings.
From Stdlib Require Import Ascii ZArith Lia.
From Stdlib Require String.

(** ** Byte strings and Go slicing *)

Module Str.

Fixpoint take (n : nat) (s : string) : string :=
  match n, s with
  | S n', String c s' => String c (take n' s')
  | _, _ => EmptyString
  end.

Fixpoint drop (n : nat) (s : string) : string :=
  match n, s with
  | S n', String _ s' => drop n' s'
  | _, _ => s
  end.

(** [s[lo:hi]]: a run-time panic unless [0 <= lo <= hi <= len(s)]. *)
Definition slice (s : string) (lo hi : nat) : option string :=
  if (lo <=? hi)%nat && (hi <=? String.length s)%nat
  then Some (take (hi - lo) (drop lo s)) else None.

(** [s[lo:]] *)
Definition slice_from (s : string) (lo : nat) : option string :=
  slice s lo (String.length s).

(** [strings.IndexRune(s, c)] for a rune below [utf8.RuneSelf]: the index of
    the first byte equal to [c]; Go's -1 is [None]. *)
Fixpoint IndexRune (s : string) (c : ascii) : option nat :=
  match s with
  | EmptyString => None
  | String d s' => if Ascii.eqb d c then Some 0 else S <$> IndexRune s' c
  end.

(** [strings.Repeat(" ", n)] *)
Fixpoint spaces (n : nat) : string :=
  match n with
  | 0 => EmptyString
  | S n' => String " " (spaces n')
  end.

(** The longest prefix of [s] whose bytes all satisfy [p]. *)
Fixpoint span (p : ascii → bool) (s : string) : string :=
  match s with
  | EmptyString => EmptyString
  | String c s' => if p c then String c (span p s') else EmptyString
  end.

(** [strings.Join(l, sep)] *)
Fixpoint Join (l : list string) (sep : string) : string :=
  match l with
  | [] => EmptyString
  | [s] => s
  | s :: l' => s +:+ sep +:+ Join l' sep
  end.

Definition concat (l : list string) : string := foldr String.append "" l.

Definition bytes (s : string) : list ascii := String.list_ascii_of_string s.

End Str.

(** The double quote byte (code 34). *)
Definition dquote : ascii := "034"%char.

(** [html.EscapeString] of the Go standard library: the ampersand, the single
    quote, the two angle brackets and the double quote are replaced by their
    entities. *)
Fixpoint html_EscapeString (s : string) : string :=
  match s with
  | EmptyString => EmptyString
  | String c s' =>
      (if Ascii.eqb c "&" then "&amp;"
       else if Ascii.eqb c "'" then "&#39;"
       else if Ascii.eqb c "<" then "&lt;"
       else if Ascii.eqb c ">" then "&gt;"
       else if Ascii.eqb c dquote then "&#34;"
       else String c EmptyString) +:+ html_EscapeString s'
  end.

(** ** text_tag_var.go: the variable parser *)

Definition in_range (lo hi c : ascii) : bool :=
  (nat_of_ascii lo <=? nat_of_ascii c)%nat && (nat_of_ascii c <=? nat_of_ascii hi)%nat.

(** The character classes [[a-zA-Z_]] and [[a-zA-Z0-9_]] of [reVar]. *)
Definition is_ident_start (c : ascii) : bool :=
  in_range "a" "z" c || in_range "A" "Z" c || Ascii.eqb c "_".

Definition is_ident_char (c : ascii) : bool :=
  is_ident_start c || in_range "0" "9" c.

(** [reVar.FindString(s)].  The pattern [reVar] is anchored at the start of
    [s] and has two alternatives: a single dollar, or [[a-zA-Z_]+] followed by
    [[a-zA-Z0-9_]*].  Both repetitions are greedy, so the second alternative
    matches a letter or underscore and every letter, digit or underscore that
    follows it.  No match gives the empty string.
    All bytes of the classes are ASCII, so matching bytes and matching UTF-8
    runes agree. *)
Definition reVar_FindString (s : string) : string :=
  match s with
  | EmptyString => EmptyString
  | String c s' =>
      if Ascii.eqb c "$" then String c EmptyString
      else if is_ident_start c then String c (Str.span is_ident_char s')
      else EmptyString
  end.

Module Var.
Record t : Type := mk {
  (* The position of the dollar character. *)
  startOffset : nat;
  (* The length of the full variable name, including the initial dollar. *)
  length : nat
}.
End Var.
Abbreviation Var := Var.t.

Global Instance Var_eq_dec : EqDecision Var.
Proof. solve_decision. Defined.

(** The loop of [parseVars].  Every iteration that does not return moves
    [offset] forward by at least one byte, so the loop body runs at most
    [len(text)] times; [fuel] bounds the number of iterations.  The two slice
    expressions [text[offset:]] and [currText[index+1:]] are in range by the
    loop guard and by [index < len(currText)]. *)
Fixpoint parseVars_loop (fuel : nat) (text : string) (offset : nat)
    (vars : list Var) : list Var :=
  match fuel with
  | 0 => vars
  | S fuel' =>
      if (offset <? String.length text)%nat then
        let currText := Str.drop offset text in
        match Str.IndexRune currText "$" with
        | None => vars (* done *)
        | Some index =>
            let match_ := reVar_FindString (Str.drop (index + 1) currText) in
            (* Include the leading dollar. *)
            let varLen := 1 + String.length match_ in
            parseVars_loop fuel' text (offset + (index + varLen))
              (vars ++ [Var.mk (offset + index) varLen])
        end
      else vars
  end.

Definition parseVars (text : string) : list Var :=
  parseVars_loop (String.length text) text 0 [].

(** ** Results of Go calls and the output sink *)

(** A call returns, panics at run time, or (in the model only) runs into the
    bound put on the depth of the recursion over the tag graph. *)
Inductive outcome (A : Type) : Type :=
  | Ret (a : A)
  | Panic
  | OutOfFuel.
Global Arguments Ret {A} a.
Global Arguments Panic {A}.
Global Arguments OutOfFuel {A}.

(** A computation over a mutable state [S]. *)
Definition M (S A : Type) : Type := S → outcome (A * S).

Global Instance M_ret {S} : MRet (M S) := λ A a s, Ret (a, s).

Global Instance M_bind {S} : MBind (M S) := λ A B k m s,
  match m s with
  | Ret (a, s') => k a s'
  | Panic => Panic
  | OutOfFuel => OutOfFuel
  end.

Definition panic {S A} : M S A := λ _, Panic.

(** A value of an indexing or slicing expression: [None] is the panic. *)
Definition checked {S A} (o : option A) : M S A :=
  match o with
  | Some a => mret a
  | None => panic
  end.

(** A non-nil Go [error] value. *)
Definition error : Type := string.

(** The pair [(n int, err error)] that every writing function returns. *)
Definition result : Type := nat * option error.

(** The idiom used at every write site of the package:
    [if count, err := f(...); err != nil { return n, err } else { n += count }].
    On failure the caller returns its own [n]; the [count] of the failed call
    is not added to it. *)
Definition tally {S} (n : nat) (m : M S result) (k : nat → M S result)
    : M S result := λ s,
  match m s with
  | Ret ((count, None), s') => k (n + count) s'
  | Ret ((_, Some e), s') => Ret ((n, Some e), s')
  | Panic => Panic
  | OutOfFuel => OutOfFuel
  end.

Notation "n '+=' m ';;;' k" := (tally n m (λ n, k))
  (at level 100, m at next level, right associativity, only parsing).

(** An [io.Writer].  The sink records every byte it has accepted and the
    number of calls made so far; [policy i s] tells what the [i]-th call does
    with the string [s]: [None] accepts all of it, [Some (k, e)] accepts (at
    most) the first [k] bytes and returns the error [e]. *)
Record Writer : Type := mkWriter {
  written : string;
  calls : nat;
  policy : nat → string → option (nat * error)
}.

(** [bytes.Buffer]: a sink that never fails. *)
Definition bytes_Buffer : Writer :=
  {| written := ""; calls := 0; policy := λ _ _, None |}.

(** A sink that accepts [k] calls and rejects every later one. *)
Definition failing_after (k : nat) : Writer :=
  {| written := ""; calls := 0;
     policy := λ i _, if (i <? k)%nat then None else Some (0, "sink closed") |}.

Definition io_WriteString (s : string) : M Writer result := λ w,
  match policy w (calls w) s with
  | None =>
      Ret ((String.length s, None),
           {| written := written w +:+ s; calls := S (calls w);
              policy := policy w |})
  | Some (k, e) =>
      let k := Nat.min k (String.length s) in
      Ret ((k, Some e),
           {| written := written w +:+ Str.take k s; calls := S (calls w);
              policy := policy w |})
  end.

(** [writeRune(writer, ch)] for a one-byte rune. *)
Definition writeRune (ch : ascii) : M Writer result :=
  io_WriteString (String ch "").

Definition writeIndent (indent : nat) : M Writer result :=
  let indentStr := Str.spaces indent in
  io_WriteString indentStr.

(** ** text_tag_var.go: the variable-text leaf *)

Inductive Value : Type := StringValue (s : string).

Definition Value_String (v : Value) : string :=
  match v with StringValue s => s end.

Abbreviation Environment := (gmap string Value).

Definition undefinedVarValue : Value := StringValue "undefined".

(** Addresses of heap objects. *)
Definition loc : Type := nat.

Module TextTagVar.

Record t : Type := mk {
  parent : option loc;
  text : string;
  vars : list Var;
  (* Unsafe text strings will not be HTML-escaped. *)
  isUnsafe : bool
}.

Definition SetText (text' : string) (tv : t) : t :=
  {| parent := parent tv; text := text'; vars := vars tv;
     isUnsafe := isUnsafe tv |}.

Definition SetUnsafe (isUnsafe' : bool) (tv : t) : t :=
  {| parent := parent tv; text := text tv; vars := vars tv;
     isUnsafe := isUnsafe' |}.

Definition isHidden (tv : t) : bool := false.

(** The loop of [write] over [t.vars], with the local variables [offset]
    and [count], followed by the code after the loop. *)
Fixpoint write_loop (tv : t) (env : Environment) (vars : list Var)
    (offset count : nat) : M Writer result :=
  match vars with
  | v :: vars' =>
      text ← checked (Str.slice (text tv) offset (Var.startOffset v));
      let text := if isUnsafe tv then text else html_EscapeString text in
      count += io_WriteString text ;;;
      varName ← checked (Str.slice (TextTagVar.text tv) (Var.startOffset v)
                           (Var.startOffset v + Var.length v));
      (* Strip out the leading variable delimiter. *)
      varName ← checked (Str.slice_from varName 1);
      (* Look for an escaped delimiter, which is written twice. *)
      if decide (varName = "$") then
        count += io_WriteString "$" ;;;
        write_loop tv env vars' (Var.startOffset v + Var.length v) count
      else
        let value := default undefinedVarValue (env !! varName) in
        let valueStr := Value_String value in
        let valueStr :=
          if isUnsafe tv then valueStr else html_EscapeString valueStr in
        count += io_WriteString valueStr ;;;
        write_loop tv env vars' (Var.startOffset v + Var.length v) count
  | [] =>
      (* Write the remainder. *)
      text ← checked (Str.slice_from (text tv) offset);
      let text := if isUnsafe tv then text else html_EscapeString text in
      count += io_WriteString text ;;;
      mret (count, None)
  end.

(** The environment a variadic [optEnv ...Environment] stands for. *)
Definition env_of (optEnv : list Environment) : Environment :=
  match optEnv with
  | e :: _ => e
  | [] => ∅
  end.

Definition write (tv : t) (optEnv : list Environment) : M Writer result :=
  let env := env_of optEnv in
  write_loop tv env (vars tv) 0 0.

Definition writePretty (tv : t) (indent : nat) (env : list Environment)
    : M Writer result :=
  let count := 0 in
  count += writeIndent indent ;;;
  count += write tv env ;;;
  mret (count, None).

End TextTagVar.

Definition NewTextTagVar (text : string) : TextTagVar.t :=
  {| TextTagVar.parent := None; TextTagVar.text := text;
     TextTagVar.vars := parseVars text; TextTagVar.isUnsafe := false |}.


(** ** constants.go *)

Module Const.

(** The attribute identifiers, in the order of their [iota] values. *)
Definition kAttrAcceptCharset : Z := 0.
Definition kAttrAction : Z := 1.
Definition kAttrAlt : Z := 2.
Definition kAttrAutocomplete : Z := 3.
Definition kAttrAutofocus : Z := 4.
Definition kAttrBorder : Z := 5.
Definition kAttrCharset : Z := 6.
Definition kAttrChecked : Z := 7.
Definition kAttrClass : Z := 8.
Definition kAttrCols : Z := 9.
Definition kAttrColspan : Z := 10.
Definition kAttrContent : Z := 11.
Definition kAttrDisabled : Z := 12.
Definition kAttrEnctype : Z := 13.
Definition kAttrFor : Z := 14.
Definition kAttrForm : Z := 15.
Definition kAttrHeaders : Z := 16.
Definition kAttrHeight : Z := 17.
Definition kAttrHref : Z := 18.
Definition kAttrHreflang : Z := 19.
Definition kAttrHttpEquiv : Z := 20.
Definition kAttrId : Z := 21.
Definition kAttrIsmap : Z := 22.
Definition kAttrLabel : Z := 23.
Definition kAttrList : Z := 24.
Definition kAttrMax : Z := 25.
Definition kAttrMaxlength : Z := 26.
Definition kAttrMedia : Z := 27.
Definition kAttrMethod : Z := 28.
Definition kAttrMin : Z := 29.
Definition kAttrMultiple : Z := 30.
Definition kAttrName : Z := 31.
Definition kAttrOnblur : Z := 32.
Definition kAttrOnchange : Z := 33.
Definition kAttrOnclick : Z := 34.
Definition kAttrOndblclick : Z := 35.
Definition kAttrOnfocus : Z := 36.
Definition kAttrOnload : Z := 37.
Definition kAttrOnkeydown : Z := 38.
Definition kAttrOnkeypress : Z := 39.
Definition kAttrOnkeyup : Z := 40.
Definition kAttrOnmousedown : Z := 41.
Definition kAttrOnmousemove : Z := 42.
Definition kAttrOnmouseout : Z := 43.
Definition kAttrOnmouseover : Z := 44.
Definition kAttrOnmouseup : Z := 45.
Definition kAttrOnselect : Z := 46.
Definition kAttrOnsubmit : Z := 47.
Definition kAttrPattern : Z := 48.
Definition kAttrPlaceholder : Z := 49.
Definition kAttrRowspan : Z := 50.
Definition kAttrReadonly : Z := 51.
Definition kAttrRel : Z := 52.
Definition kAttrRequired : Z := 53.
Definition kAttrRows : Z := 54.
Definition kAttrScope : Z := 55.
Definition kAttrSelected : Z := 56.
Definition kAttrSize : Z := 57.
Definition kAttrSrc : Z := 58.
Definition kAttrStep : Z := 59.
Definition kAttrTarget : Z := 60.
Definition kAttrTitle : Z := 61.
Definition kAttrType : Z := 62.
Definition kAttrUsemap : Z := 63.
Definition kAttrValue : Z := 64.
Definition kAttrWidth : Z := 65.
Definition kAttrWrap : Z := 66.
Definition kAttrMAXCOUNT : Z := 67.

(** HTML constants *)
Definition kHtmlOff : string := "off".
Definition kHtmlOn : string := "on".
Definition kHtmlBorderOn : string := "1".
Definition kHtmlBorderOff : string := "".
Definition kHtmlWrapHard : string := "hard".

(** The tag identifiers, in the order of their [iota] values. *)
Definition kTagTypeA : Z := 0.
Definition kTagTypeAbbr : Z := 1.
Definition kTagTypeAddress : Z := 2.
Definition kTagTypeB : Z := 3.
Definition kTagTypeBlockquote : Z := 4.
Definition kTagTypeBody : Z := 5.
Definition kTagTypeBr : Z := 6.
Definition kTagTypeButton : Z := 7.
Definition kTagTypeCanvas : Z := 8.
Definition kTagTypeCaption : Z := 9.
Definition kTagTypeCite : Z := 10.
Definition kTagTypeCode : Z := 11.
Definition kTagTypeDatalist : Z := 12.
Definition kTagTypeDfn : Z := 13.
Definition kTagTypeDiv : Z := 14.
Definition kTagTypeDd : Z := 15.
Definition kTagTypeDl : Z := 16.
Definition kTagTypeDt : Z := 17.
Definition kTagTypeEm : Z := 18.
Definition kTagTypeFooter : Z := 19.
Definition kTagTypeForm : Z := 20.
Definition kTagTypeH1 : Z := 21.
Definition kTagTypeH2 : Z := 22.
Definition kTagTypeH3 : Z := 23.
Definition kTagTypeH4 : Z := 24.
Definition kTagTypeH5 : Z := 25.
Definition kTagTypeH6 : Z := 26.
Definition kTagTypeHead : Z := 27.
Definition kTagTypeHr : Z := 28.
Definition kTagTypeHtml : Z := 29.
Definition kTagTypeI : Z := 30.
Definition kTagTypeImg : Z := 31.
Definition kTagTypeInput : Z := 32.
Definition kTagTypeKbd : Z := 33.
Definition kTagTypeLabel : Z := 34.
Definition kTagTypeLi : Z := 35.
Definition kTagTypeLink : Z := 36.
Definition kTagTypeMeta : Z := 37.
Definition kTagTypeNoScript : Z := 38.
Definition kTagTypeOl : Z := 39.
Definition kTagTypeOption : Z := 40.
Definition kTagTypeP : Z := 41.
Definition kTagTypePre : Z := 42.
Definition kTagTypeSamp : Z := 43.
Definition kTagTypeScript : Z := 44.
Definition kTagTypeSelect : Z := 45.
Definition kTagTypeSmall : Z := 46.
Definition kTagTypeSpan : Z := 47.
Definition kTagTypeStrong : Z := 48.
Definition kTagTypeStyle : Z := 49.
Definition kTagTypeTable : Z := 50.
Definition kTagTypeTbody : Z := 51.
Definition kTagTypeTd : Z := 52.
Definition kTagTypeTextarea : Z := 53.
Definition kTagTypeTfoot : Z := 54.
Definition kTagTypeTh : Z := 55.
Definition kTagTypeThead : Z := 56.
Definition kTagTypeTitle : Z := 57.
Definition kTagTypeTr : Z := 58.
Definition kTagTypeU : Z := 59.
Definition kTagTypeUl : Z := 60.
Definition kTagTypeVar : Z := 61.
Definition kTagTypeMAXCOUNT : Z := 62.
Definition kTagTypeNull : Z := 63.

(** Indexed by kAttr *)
Definition attrStringMap : list string :=
  ["accept-charset"; "action"; "alt"; "autocomplete"; "autofocus";
   "border"; "charset"; "checked"; "class"; "cols"; "colspan"; "content";
   "disabled"; "enctype"; "for"; "form"; "headers"; "height"; "href";
   "hreflang"; "http-equiv"; "id"; "ismap"; "label"; "list"; "max";
   "maxlength"; "media"; "method"; "min"; "multiple"; "name"; "onblur";
   "onchange"; "onclick"; "ondblclick"; "onfocus"; "onload"; "onkeydown";
   "onkeypress"; "onkeyup"; "onmousedown"; "onmousemove"; "onmouseout";
   "onmouseover"; "onmouseup"; "onselect"; "onsubmit"; "pattern";
   "placeholder"; "rowspan"; "readonly"; "rel"; "required"; "rows";
   "scope"; "selected"; "size"; "src"; "step"; "target"; "title"; "type";
   "usemap"; "value"; "width"; "wrap"].

(** Indexed by tagType *)
Definition tagTypeStringMap : list string :=
  ["a"; "abbr"; "address"; "b"; "blockquote"; "body"; "br"; "button";
   "canvas"; "caption"; "cite"; "code"; "datalist"; "dfn"; "div"; "dd";
   "dl"; "dt"; "em"; "footer"; "form"; "h1"; "h2"; "h3"; "h4"; "h5"; "h6";
   "head"; "hr"; "html"; "i"; "img"; "input"; "kbd"; "label"; "li"; "link";
   "meta"; "noscript"; "ol"; "option"; "p"; "pre"; "samp"; "script";
   "select"; "small"; "span"; "strong"; "style"; "table"; "tbody"; "td";
   "textarea"; "tfoot"; "th"; "thead"; "title"; "tr"; "u"; "ul"; "var"].

(** Indexing a Go array: out of range is a run-time panic ([None]). *)
Definition index (table : list string) (i : Z) : option string :=
  if (0 <=? i)%Z then table !! Z.to_nat i else None.

End Const.
Export Const.

Definition kIndentSpace : nat := 2.

(** ** The objects of the tag graph *)

(** The concrete type held by an interface value of type [Tag].  A struct
    that embeds [baseTag] starts with it, so a pointer to the struct and the
    pointer to its embedded [baseTag] are the same address: all of them are
    addresses of [baseTag] objects, and the concrete type alone decides which
    method an interface call runs.  ([SelectTag] and [CheckedInputTag] are not
    modelled.) *)
Inductive dynType : Type :=
  | TBase      (* *baseTag *)
  | TBody      (* *BodyTag *)
  | TComment   (* *commentTag *)
  | THtml      (* *htmlTag *)
  | TInput     (* *InputTag *)
  | TNull      (* *nullTag *)
  | TOption    (* *OptionTag *)
  | TSingle.   (* *singleTag *)

Global Instance dynType_eq_dec : EqDecision dynType.
Proof. solve_decision. Defined.

(** A non-nil interface value of type [Tag]. *)
Definition Tag : Type := dynType * loc.

(** A non-nil interface value of type [tagWriter]. *)
Inductive tagWriter : Type :=
  | TagW (ty : dynType) (l : loc)
  | TextW (l : loc)        (* *TextTag *)
  | TextVarW (l : loc).    (* *TextTagVar *)

Global Instance tagWriter_eq_dec : EqDecision tagWriter.
Proof. solve_decision. Defined.

Definition Tag_writer (t : Tag) : tagWriter := TagW t.1 t.2.

Module baseTag.

(** The base fields for all tags.  [attrs] and [customAttrs] are references
    to map objects ([None] is the nil map).  The only values ever stored in
    [parent] are nil and, by [addChild], a [*baseTag]; the field holds the
    address. *)
Record t : Type := mk {
  tagType : Z;
  attrs : option loc;
  customAttrs : option loc;
  children : list tagWriter;
  parent : option loc;
  (* By default (false), a cache is dirty. *)
  isCacheClean : bool;
  (* Caches the rendered open tag, including attributes. *)
  cacheOpen : string;
  (* Hides the tag during the rendering process if true. *)
  hidden : bool
}.

Definition with_children (c : list tagWriter) (b : t) : t :=
  mk (tagType b) (attrs b) (customAttrs b) c (parent b)
     (isCacheClean b) (cacheOpen b) (hidden b).

Definition with_parent (p : option loc) (b : t) : t :=
  mk (tagType b) (attrs b) (customAttrs b) (children b) p
     (isCacheClean b) (cacheOpen b) (hidden b).

Definition with_isCacheClean (c : bool) (b : t) : t :=
  mk (tagType b) (attrs b) (customAttrs b) (children b) (parent b)
     c (cacheOpen b) (hidden b).

Definition with_cacheOpen (s : string) (b : t) : t :=
  mk (tagType b) (attrs b) (customAttrs b) (children b) (parent b)
     (isCacheClean b) s (hidden b).

Definition with_hidden (h : bool) (b : t) : t :=
  mk (tagType b) (attrs b) (customAttrs b) (children b) (parent b)
     (isCacheClean b) (cacheOpen b) h.

(** The zero value [baseTag{}]. *)
Definition zero : t := mk 0 None None [] None false "" false.

End baseTag.

Module TextTag.

(** A pseudo tag that holds text. *)
Record t : Type := mk {
  parent : option loc;
  text : string
}.

Definition isHidden (tx : t) : bool := false.

Definition write (tx : t) : M Writer result := io_WriteString (text tx).

Definition writePretty (tx : t) (indent : nat) : M Writer result :=
  let n := 0 in
  n += writeIndent indent ;;;
  n += write tx ;;;
  mret (n, None).

End TextTag.

(** ** The heap *)

Record Heap : Type := mkHeap {
  tags : gmap loc baseTag.t;
  texts : gmap loc TextTag.t;
  textVars : gmap loc TextTagVar.t;
  (* the map objects of type map[int]string *)
  intMaps : gmap loc (gmap Z string);
  (* the map objects of type map[string]string *)
  strMaps : gmap loc (gmap string string)
}.

Definition emptyHeap : Heap := mkHeap ∅ ∅ ∅ ∅ ∅.

Definition with_tags (f : gmap loc baseTag.t → gmap loc baseTag.t) (h : Heap)
    : Heap :=
  mkHeap (f (tags h)) (texts h) (textVars h) (intMaps h) (strMaps h).

Definition with_texts (f : gmap loc TextTag.t → gmap loc TextTag.t) (h : Heap)
    : Heap :=
  mkHeap (tags h) (f (texts h)) (textVars h) (intMaps h) (strMaps h).

Definition with_textVars
    (f : gmap loc TextTagVar.t → gmap loc TextTagVar.t) (h : Heap) : Heap :=
  mkHeap (tags h) (texts h) (f (textVars h)) (intMaps h) (strMaps h).

Definition with_intMaps
    (f : gmap loc (gmap Z string) → gmap loc (gmap Z string)) (h : Heap)
    : Heap :=
  mkHeap (tags h) (texts h) (textVars h) (f (intMaps h)) (strMaps h).

Definition with_strMaps
    (f : gmap loc (gmap string string) → gmap loc (gmap string string))
    (h : Heap) : Heap :=
  mkHeap (tags h) (texts h) (textVars h) (intMaps h) (f (strMaps h)).

(** Reading through a pointer; an address that holds no object does not
    occur in a Go program and is treated like a nil dereference. *)
Definition load_tag (l : loc) : M Heap baseTag.t := λ h,
  match tags h !! l with
  | Some b => Ret (b, h)
  | None => Panic
  end.

Definition store_tag (l : loc) (b : baseTag.t) : M Heap unit := λ h,
  Ret ((), with_tags <[l := b]> h).

(** [t.f = v] for a field of the tag at [l]. *)
Definition update_tag (l : loc) (f : baseTag.t → baseTag.t) : M Heap unit :=
  b ← load_tag l; store_tag l (f b).

Definition alloc_tag (b : baseTag.t) : M Heap loc := λ h,
  let l := fresh (dom (tags h)) in
  Ret (l, with_tags <[l := b]> h).

Definition load_text (l : loc) : M Heap TextTag.t := λ h,
  match texts h !! l with
  | Some tx => Ret (tx, h)
  | None => Panic
  end.

Definition store_text (l : loc) (tx : TextTag.t) : M Heap unit := λ h,
  Ret ((), with_texts <[l := tx]> h).

Definition alloc_text (tx : TextTag.t) : M Heap loc := λ h,
  let l := fresh (dom (texts h)) in
  Ret (l, with_texts <[l := tx]> h).

Definition load_textVar (l : loc) : M Heap TextTagVar.t := λ h,
  match textVars h !! l with
  | Some tv => Ret (tv, h)
  | None => Panic
  end.

Definition store_textVar (l : loc) (tv : TextTagVar.t) : M Heap unit := λ h,
  Ret ((), with_textVars <[l := tv]> h).

Definition alloc_textVar (tv : TextTagVar.t) : M Heap loc := λ h,
  let l := fresh (dom (textVars h)) in
  Ret (l, with_textVars <[l := tv]> h).

(** *** Map objects *)

(** [make(map[int]string)], possibly filled with the entries of [m]. *)
Definition alloc_intMap (m : gmap Z string) : M Heap loc := λ h,
  let a := fresh (dom (intMaps h)) in
  Ret (a, with_intMaps <[a := m]> h).

Definition alloc_strMap (m : gmap string string) : M Heap loc := λ h,
  let a := fresh (dom (strMaps h)) in
  Ret (a, with_strMaps <[a := m]> h).

(** The contents of a map value; the nil map reads as the empty map. *)
Definition intMap_of (h : Heap) (r : option loc) : gmap Z string :=
  default ∅ (r ≫= λ a, intMaps h !! a).

Definition strMap_of (h : Heap) (r : option loc) : gmap string string :=
  default ∅ (r ≫= λ a, strMaps h !! a).

Definition read_intMap (r : option loc) : M Heap (gmap Z string) := λ h,
  Ret (intMap_of h r, h).

Definition read_strMap (r : option loc) : M Heap (gmap string string) := λ h,
  Ret (strMap_of h r, h).

(** [m[k] = v]: assignment to an entry of the nil map panics. *)
Definition intMap_assign (r : option loc) (k : Z) (v : string) : M Heap unit :=
  match r with
  | None => panic
  | Some a => λ h,
      Ret ((), with_intMaps <[a := <[k := v]> (intMap_of h r)]> h)
  end.

Definition strMap_assign (r : option loc) (k v : string) : M Heap unit :=
  match r with
  | None => panic
  | Some a => λ h,
      Ret ((), with_strMaps <[a := <[k := v]> (strMap_of h r)]> h)
  end.

(** [delete(m, k)]: a no-op on the nil map. *)
Definition intMap_delete (r : option loc) (k : Z) : M Heap unit :=
  match r with
  | None => mret ()
  | Some a => λ h,
      Ret ((), with_intMaps <[a := delete k (intMap_of h r)]> h)
  end.

Definition strMap_delete (r : option loc) (k : string) : M Heap unit :=
  match r with
  | None => mret ()
  | Some a => λ h,
      Ret ((), with_strMaps <[a := delete k (strMap_of h r)]> h)
  end.

(** [for _, x := range l { body }]: the body gets the running count and its
    continuation; a body that does not call the continuation returns from the
    enclosing function. *)
Fixpoint for_each {S A} (l : list A)
    (body : A → nat → (nat → M S result) → M S result)
    (n : nat) (k : nat → M S result) : M S result :=
  match l with
  | [] => k n
  | x :: l' => body x n (λ n, for_each l' body n k)
  end.

(** A loop over a list whose body only has effects. *)
Fixpoint for_each_ {S A} (l : list A) (body : A → M S unit) : M S unit :=
  match l with
  | [] => mret ()
  | x :: l' => body x;; for_each_ l' body
  end.

(** ** base_tag.go and tag.go: construction and mutation *)

Definition newBaseTag (tagType : Z) : M Heap loc :=
  a ← alloc_intMap ∅;
  c ← alloc_strMap ∅;
  alloc_tag (baseTag.mk tagType (Some a) (Some c) [] None false "" false).

Definition newSingleTag (tagType : Z) : M Heap loc :=
  a ← alloc_intMap ∅;
  c ← alloc_strMap ∅;
  alloc_tag (baseTag.mk tagType (Some a) (Some c) [] None false "" false).

Definition newNullTag : M Heap loc :=
  alloc_tag (baseTag.mk kTagTypeNull None None [] None false "" false).

Definition NewRoot : M Heap Tag :=
  l ← newBaseTag kTagTypeHtml; mret (THtml, l).

Definition NewNull : M Heap Tag :=
  l ← newNullTag; mret (TNull, l).

(** Adds newTag as a child of t.  (The Go method returns [t].) *)
Definition AddChild (l : loc) (newTag : Tag) : M Heap unit :=
  update_tag l (λ b,
    baseTag.with_children (baseTag.children b ++ [Tag_writer newTag]) b).

Definition AddChildText (l : loc) (tag : loc) : M Heap unit :=
  update_tag l (λ b,
    baseTag.with_children (baseTag.children b ++ [TextW tag]) b).

Definition setParent (l : loc) (parent : option loc) : M Heap unit :=
  update_tag l (baseTag.with_parent parent).

(** Returns newTag. *)
Definition addChild (l : loc) (newTag : Tag) : M Heap Tag :=
  update_tag l (λ b,
    baseTag.with_children (baseTag.children b ++ [Tag_writer newTag]) b);;
  setParent newTag.2 (Some l);;
  mret newTag.

Definition Parent (l : loc) : M Heap (option loc) :=
  b ← load_tag l; mret (baseTag.parent b).

Definition Hide (l : loc) (isHidden : bool) : M Heap unit :=
  update_tag l (baseTag.with_hidden isHidden).

Definition isHidden (l : loc) : M Heap bool :=
  b ← load_tag l; mret (baseTag.hidden b).

Definition AddClasses (l : loc) (classes : list string) : M Heap unit :=
  if decide (length classes = 0) then mret ()
  else
    b ← load_tag l;
    let classesStr := Str.Join classes " " in
    attrs ← read_intMap (baseTag.attrs b);
    let oldClassesStr := default "" (attrs !! kAttrClass) in
    (if decide (0 < String.length oldClassesStr) then
       intMap_assign (baseTag.attrs b) kAttrClass
         (oldClassesStr +:+ " " +:+ classesStr)
     else
       intMap_assign (baseTag.attrs b) kAttrClass classesStr);;
    update_tag l (baseTag.with_isCacheClean false).

Definition RemoveAttribute (l : loc) (key : string) : M Heap unit :=
  b ← load_tag l;
  strMap_delete (baseTag.customAttrs b) key;;
  update_tag l (baseTag.with_isCacheClean false).

Definition RemoveAttributes (l : loc) (keys : list string) : M Heap unit :=
  b ← load_tag l;
  for_each_ keys (λ key, strMap_delete (baseTag.customAttrs b) key);;
  update_tag l (baseTag.with_isCacheClean false).

Definition RemoveChildren (l : loc) : M Heap unit :=
  update_tag l (baseTag.with_children []).

(** Sets the attribute specified by keyId to value.  If value is empty, the
    attribute will be cleared. *)
Definition setAttr (l : loc) (keyId : Z) (value : string) : M Heap unit :=
  b ← load_tag l;
  (if decide (String.length value = 0) then
     intMap_delete (baseTag.attrs b) keyId
   else
     intMap_assign (baseTag.attrs b) keyId value);;
  update_tag l (baseTag.with_isCacheClean false).

Definition SetAttribute (l : loc) (key value : string) : M Heap unit :=
  b ← load_tag l;
  strMap_assign (baseTag.customAttrs b) key value;;
  update_tag l (baseTag.with_isCacheClean false).

(** The assignments of the loop commute (the keys of a map are distinct), so
    the loop is run over the entries in their canonical order. *)
Definition SetAttributes (l : loc) (attrs : gmap string string)
    : M Heap unit :=
  b ← load_tag l;
  for_each_ (map_to_list attrs)
    (λ kv, strMap_assign (baseTag.customAttrs b) kv.1 kv.2);;
  update_tag l (baseTag.with_isCacheClean false).

Definition SetClasses (l : loc) (classes : list string) : M Heap unit :=
  b ← load_tag l;
  (if decide (length classes = 0) then
     intMap_delete (baseTag.attrs b) kAttrClass
   else
     let classesStr := Str.Join classes " " in
     intMap_assign (baseTag.attrs b) kAttrClass classesStr);;
  update_tag l (baseTag.with_isCacheClean false).

Definition SetId (l : loc) (id : string) : M Heap unit :=
  setAttr l kAttrId id.

Definition SetTitle (l : loc) (title : string) : M Heap unit :=
  setAttr l kAttrTitle title.

(** *** tag.go: [InputTag] and [OptionTag] *)

(** Clears all options except for name and type. *)
Definition InputTag_ResetOptions (l : loc) : M Heap unit :=
  b ← load_tag l;
  for_each_
    [kAttrAction; kAttrAlt; kAttrAutocomplete; kAttrChecked; kAttrDisabled;
     kAttrHeight; kAttrMaxlength; kAttrReadonly; kAttrSize; kAttrSrc;
     kAttrValue; kAttrWidth]
    (λ k, intMap_delete (baseTag.attrs b) k).

(** The empty string will clear the attribute. *)
Definition InputTag_SetValue (l : loc) (v : string) : M Heap unit :=
  b ← load_tag l;
  (if decide (String.length v = 0) then
     intMap_delete (baseTag.attrs b) kAttrValue
   else
     intMap_assign (baseTag.attrs b) kAttrValue v);;
  update_tag l (baseTag.with_isCacheClean false).

Definition InputTag_Value (l : loc) : M Heap string :=
  b ← load_tag l;
  attrs ← read_intMap (baseTag.attrs b);
  mret (default "" (attrs !! kAttrValue)).

Definition OptionTag_ResetOptions (l : loc) : M Heap unit :=
  b ← load_tag l;
  for_each_ [kAttrDisabled; kAttrLabel; kAttrSelected; kAttrValue]
    (λ k, intMap_delete (baseTag.attrs b) k).

Definition OptionTag_SetSelected (l : loc) (selected : bool) : M Heap unit :=
  b ← load_tag l;
  (if negb selected then
     intMap_delete (baseTag.attrs b) kAttrSelected
   else
     intMap_assign (baseTag.attrs b) kAttrSelected "");;
  update_tag l (baseTag.with_isCacheClean false).

(** *** htmlgen.go: the factory methods used below *)

Definition htmlGen_Div : M Heap Tag :=
  l ← newBaseTag kTagTypeDiv; mret (TBase, l).

Definition htmlGen_Span : M Heap Tag :=
  l ← newBaseTag kTagTypeSpan; mret (TBase, l).

Definition htmlGen_Body : M Heap Tag :=
  l ← newBaseTag kTagTypeBody; mret (TBody, l).

Definition htmlGen_Br : M Heap Tag :=
  l ← newSingleTag kTagTypeBr; mret (TSingle, l).

Definition htmlGen_Comment : M Heap Tag :=
  l ← alloc_tag baseTag.zero; mret (TComment, l).

Definition htmlGen_Input (inputType : string) : M Heap Tag :=
  l ← newSingleTag kTagTypeInput;
  b ← load_tag l;
  (if decide (0 < String.length inputType) then
     intMap_assign (baseTag.attrs b) kAttrType inputType
   else mret ());;
  mret (TInput, l).

Definition htmlGen_T (text : list string) : M Heap loc :=
  let textStr :=
    match text with
    | s :: _ => html_EscapeString s
    | [] => ""
    end in
  alloc_text (TextTag.mk None textStr).

Definition htmlGen_TV (text : list string) : M Heap loc :=
  let textStr :=
    match text with
    | s :: _ => s
    | [] => ""
    end in
  alloc_textVar (NewTextTagVar textStr).

(** *** base_tag.go: the methods that create a child *)

Definition baseTag_Div (l : loc) : M Heap Tag :=
  newTag ← htmlGen_Div; addChild l newTag.

Definition baseTag_Span (l : loc) : M Heap Tag :=
  newTag ← htmlGen_Span; addChild l newTag.

Definition baseTag_Br (l : loc) : M Heap Tag :=
  newTag ← htmlGen_Br; addChild l newTag.

Definition baseTag_Comment (l : loc) : M Heap Tag :=
  newTag ← htmlGen_Comment; addChild l newTag.

Definition baseTag_Body (l : loc) : M Heap Tag :=
  newTag ← htmlGen_Body;
  update_tag l (λ b,
    baseTag.with_children (baseTag.children b ++ [Tag_writer newTag]) b);;
  mret newTag.

Definition baseTag_T (l : loc) (text : list string) : M Heap loc :=
  newTag ← htmlGen_T text;
  tx ← load_text newTag;
  store_text newTag (TextTag.mk (Some l) (TextTag.text tx));;
  update_tag l (λ b,
    baseTag.with_children (baseTag.children b ++ [TextW newTag]) b);;
  mret newTag.

Definition baseTag_TV (l : loc) (text : list string) : M Heap loc :=
  newTag ← htmlGen_TV text;
  tv ← load_textVar newTag;
  store_textVar newTag
    (TextTagVar.mk (Some l) (TextTagVar.text tv) (TextTagVar.vars tv)
       (TextTagVar.isUnsafe tv));;
  update_tag l (λ b,
    baseTag.with_children (baseTag.children b ++ [TextVarW newTag]) b);;
  mret newTag.

(** *** tag.go: [TextTag] *)

(** Returns a copy of the TextTag. *)
Definition TextTag_Copy (l : loc) : M Heap loc :=
  tx ← load_text l;
  alloc_text (TextTag.mk None (TextTag.text tx)).

(** Assigns text to the TextTag, replacing existing text. *)
Definition TextTag_SetText (l : loc) (text : string) : M Heap unit :=
  tx ← load_text l;
  store_text l (TextTag.mk (TextTag.parent tx) text).

Definition TextTag_Text (l : loc) : M Heap string :=
  tx ← load_text l; mret (TextTag.text tx).

(** *** [Up] *)

(** The loop [for realCount > 1 { currTag = currTag.Parent(); realCount-- }]
    runs [realCount - 1] times when that is positive and not at all
    otherwise; a call of [Parent] on the nil interface panics. *)
Fixpoint Up_loop (steps : nat) (currTag : option loc) : M Heap (option loc) :=
  match steps with
  | 0 => mret currTag
  | S steps' =>
      match currTag with
      | None => panic
      | Some p => b ← load_tag p; Up_loop steps' (baseTag.parent b)
      end
  end.

Definition baseTag_Up (l : loc) (count : list Z) : M Heap (option loc) :=
  let realCount :=
    match count with
    | c :: _ => c
    | [] => 1%Z
    end in
  b ← load_tag l;
  (* Behavior always assumes at least one ancestor step. *)
  Up_loop (Z.to_nat (realCount - 1)) (baseTag.parent b).

(** In [TextTag.Up] the method [Parent] is called on a [*baseTag]; on the nil
    pointer it panics when it reads the field. *)
Definition TextTag_Up (l : loc) (count : list Z) : M Heap (option loc) :=
  let realCount :=
    match count with
    | c :: _ => c
    | [] => 1%Z
    end in
  tx ← load_text l;
  Up_loop (Z.to_nat (realCount - 1)) (TextTag.parent tx).

(** ** htmlgen.go: the writing helpers *)

(** The line feed byte (code 10). *)
Definition newline : ascii := "010"%char.

Definition writeKeyValue (key value : string) : M Writer result :=
  let n := 0 in
  n += io_WriteString key ;;;
  n += io_WriteString (String "=" (String dquote "")) ;;;
  n += io_WriteString value ;;;
  n += writeRune dquote ;;;
  mret (n, None).

(** Writes HTML key=value tag attributes.  keyId is a kAttr constant. *)
Definition writeKeyIdValue (keyId : Z) (value : string) : M Writer result :=
  keyStr ← checked (Const.index attrStringMap keyId);
  writeKeyValue keyStr value.

(** [sort.Ints] and [sort.Strings]: ascending, strings compared byte by
    byte.  The sorted arrangement of a list under a total order is unique,
    so the sorting algorithm does not matter. *)
Definition sort_Ints (l : list Z) : list Z := merge_sort Z.le l.

Definition sort_Strings (l : list string) : list string :=
  merge_sort String.le l.

(** The order in which a [range] statement visits the entries of a map.  Go
    leaves it unspecified; it is a parameter of everything that iterates
    over a map. *)
Record MapOrder : Type := mkMapOrder {
  range_int : gmap Z string → list (Z * string);
  range_str : gmap string string → list (string * string)
}.

(** A [range] visits every entry of the map exactly once. *)
Definition valid_order (ord : MapOrder) : Prop :=
  (∀ m, range_int ord m ≡ₚ map_to_list m)
  ∧ (∀ m, range_str ord m ≡ₚ map_to_list m).

Definition canonical_order : MapOrder :=
  {| range_int := map_to_list; range_str := map_to_list |}.

Definition reversed_order : MapOrder :=
  {| range_int := λ m, reverse (map_to_list m);
     range_str := λ m, reverse (map_to_list m) |}.

(** The state of a rendering call: the heap and the sink. *)
Definition St : Type := Heap * Writer.

Definition inH {A} (m : M Heap A) : M St A := λ s,
  match m s.1 with
  | Ret (a, h') => Ret (a, (h', s.2))
  | Panic => Panic
  | OutOfFuel => OutOfFuel
  end.

Definition inW {A} (m : M Writer A) : M St A := λ s,
  match m s.2 with
  | Ret (a, w') => Ret (a, (s.1, w'))
  | Panic => Panic
  | OutOfFuel => OutOfFuel
  end.

Definition pure {S A} (o : outcome A) : M S A := λ s,
  match o with
  | Ret a => Ret (a, s)
  | Panic => Panic
  | OutOfFuel => OutOfFuel
  end.

(** [childTag.isHidden()] *)
Definition tagWriter_isHidden (w : tagWriter) : M Heap bool :=
  match w with
  | TagW _ l => isHidden l
  | TextW _ => mret false
  | TextVarW _ => mret false
  end.

(** ** base_tag.go and tag.go: rendering *)

Section render.
Context (ord : MapOrder).

(** Writes the leading part of the opening tag and its attributes, up until
    the closing angle bracket. *)
Definition writeOpenTagLead (attrs : gmap Z string)
    (customAttrs : gmap string string) (tagStr : string)
    : M Writer result :=
  let n := 0 in
  n += writeRune "<" ;;;
  n += io_WriteString tagStr ;;;
  (* Write any attributes. *)
  for_each (range_int ord attrs) (λ kv n continue,
    (* key is a kAttr constant. *)
    n += writeRune " " ;;;
    n += writeKeyIdValue kv.1 kv.2 ;;;
    continue n) n (λ n,
  (* Write custom attributes. *)
  for_each (range_str ord customAttrs) (λ kv n continue,
    n += writeRune " " ;;;
    n += writeKeyValue kv.1 kv.2 ;;;
    continue n) n (λ n,
  mret (n, None))).

(** The two loops of [writeOpenTagLeadSorted] that merge known and custom
    attrs into a single map and collect the keys. *)
Fixpoint merge_known (l : list (Z * string)) (attrs : gmap string string)
    (sortedKeys : list string) : option (gmap string string * list string) :=
  match l with
  | [] => Some (attrs, sortedKeys)
  | kv :: l' =>
      key ← Const.index attrStringMap kv.1;
      merge_known l' (<[key := kv.2]> attrs) (sortedKeys ++ [key])
  end.

Fixpoint merge_custom (l : list (string * string))
    (attrs : gmap string string) (sortedKeys : list string)
    : gmap string string * list string :=
  match l with
  | [] => (attrs, sortedKeys)
  | kv :: l' =>
      merge_custom l' (<[kv.1 := kv.2]> attrs) (sortedKeys ++ [kv.1])
  end.

(** Like writeOpenTagLead, only that attributes will be sorted. *)
Definition writeOpenTagLeadSorted (attrs : gmap Z string)
    (customAttrs : gmap string string) (tagStr : string)
    : M Writer result :=
  let n := 0 in
  n += writeRune "<" ;;;
  n += io_WriteString tagStr ;;;
  (* The common case does not include custom attributes. *)
  if decide (size customAttrs = 0) then
    let sortedKeys := sort_Ints (range_int ord attrs).*1 in
    for_each sortedKeys (λ key n continue,
      let value := default "" (attrs !! key) in
      n += writeRune " " ;;;
      n += writeKeyIdValue key value ;;;
      continue n) n (λ n,
    mret (n, None))
  else
    (* Otherwise, merge known and custom attrs into a single map. *)
    merged ← checked (merge_known (range_int ord attrs) ∅ []);
    let merged := merge_custom (range_str ord customAttrs) merged.1 merged.2 in
    let attrs := merged.1 in
    let sortedKeys := sort_Strings merged.2 in
    for_each sortedKeys (λ key n continue,
      let value := default "" (attrs !! key) in
      n += writeRune " " ;;;
      n += writeKeyValue key value ;;;
      continue n) n (λ n,
    mret (n, None)).

(** Renders the opening tag with attributes to a string: [writeOpenTagLead]
    into a fresh [bytes.Buffer], then the closing [finish]. *)
Definition render_open (finish : string) (attrs : gmap Z string)
    (customAttrs : gmap string string) (tagStr : string)
    : outcome (string * option error) :=
  let tmp := bytes_Buffer in
  match writeOpenTagLead attrs customAttrs tagStr tmp with
  | Ret ((_, Some err), _) => Ret ("", Some err)
  | Ret ((_, None), tmp) =>
      match io_WriteString finish tmp with
      | Ret ((_, Some err), _) => Ret ("", Some err)
      | Ret ((_, None), tmp) => Ret (written tmp, None)
      | Panic => Panic
      | OutOfFuel => OutOfFuel
      end
  | Panic => Panic
  | OutOfFuel => OutOfFuel
  end.

Definition baseTag_renderCacheOpen := render_open ">".

Definition singleTag_renderCacheOpen := render_open " />".

(** [t.cacheOpen, err = t.renderCacheOpen(tagStr)], followed by
    [t.isCacheClean = true] when [err] is nil.  The result is [err]. *)
Definition refresh_cache
    (renderCacheOpen : gmap Z string → gmap string string → string →
                       outcome (string * option error))
    (l : loc) (tagStr : string) : M Heap (option error) :=
  b ← load_tag l;
  attrs ← read_intMap (baseTag.attrs b);
  customAttrs ← read_strMap (baseTag.customAttrs b);
  r ← pure (renderCacheOpen attrs customAttrs tagStr);
  update_tag l (baseTag.with_cacheOpen r.1);;
  match r.2 with
  | Some err => mret (Some err)
  | None => update_tag l (baseTag.with_isCacheClean true);; mret None
  end.

(** *** Compact rendering *)

Definition baseTag_write (childWrite : tagWriter → M St result) (l : loc)
    : M St result :=
  b ← inH (load_tag l);
  if baseTag.hidden b then mret (0, None)
  else
    tagStr ← checked (Const.index tagTypeStringMap (baseTag.tagType b));
    (* Write the opening tag. *)
    err ← (if baseTag.isCacheClean b then mret None
           else inH (refresh_cache baseTag_renderCacheOpen l tagStr));
    match err with
    | Some err => mret (0, Some err)
    | None =>
        b ← inH (load_tag l);
        let n := 0 in
        n += inW (io_WriteString (baseTag.cacheOpen b)) ;;;
        (* Recursively write all children. *)
        for_each (baseTag.children b) (λ childTag n continue,
          n += childWrite childTag ;;;
          continue n) n (λ n,
        (* Write the closing tag. *)
        n += inW (io_WriteString "</") ;;;
        n += inW (io_WriteString tagStr) ;;;
        n += inW (writeRune ">") ;;;
        mret (n, None))
    end.

Definition singleTag_write (l : loc) : M St result :=
  b ← inH (load_tag l);
  tagStr ← checked (Const.index tagTypeStringMap (baseTag.tagType b));
  (* Write the tag. *)
  err ← (if baseTag.isCacheClean b then mret None
         else inH (refresh_cache singleTag_renderCacheOpen l tagStr));
  match err with
  | Some err => mret (0, Some err)
  | None =>
      b ← inH (load_tag l);
      inW (io_WriteString (baseTag.cacheOpen b))
  end.

Definition commentTag_write (childWrite : tagWriter → M St result) (l : loc)
    : M St result :=
  b ← inH (load_tag l);
  let n := 0 in
  n += inW (io_WriteString "<!-- ") ;;;
  (* Recursively write all children. *)
  for_each (baseTag.children b) (λ childTag n continue,
    n += childWrite childTag ;;;
    continue n) n (λ n,
  n += inW (io_WriteString " -->") ;;;
  mret (n, None)).

(** An htmlTag will write a DOCTYPE declaration as well. *)
Definition htmlTag_write (childWrite : tagWriter → M St result) (l : loc)
    : M St result :=
  let n := 0 in
  (* Always prepend a DOCTYPE declaration. *)
  n += inW (io_WriteString "<!DOCTYPE html>") ;;;
  n += baseTag_write childWrite l ;;;
  mret (n, None).

(** This just writes the children. *)
Definition nullTag_write (childWrite : tagWriter → M St result) (l : loc)
    : M St result :=
  b ← inH (load_tag l);
  let n := 0 in
  for_each (baseTag.children b) (λ childTag n continue,
    n += childWrite childTag ;;;
    continue n) n (λ n,
  mret (n, None)).

(** [w.write(writer, env...)]: the call through the interface.  [fuel]
    bounds the depth of the recursion, which in Go is bounded by the stack
    only (a tag may be made its own descendant). *)
Fixpoint write (fuel : nat) (env : list Environment) (w : tagWriter)
    : M St result :=
  match fuel with
  | 0 => λ _, OutOfFuel
  | S fuel' =>
      match w with
      | TextW l => tx ← inH (load_text l); inW (TextTag.write tx)
      | TextVarW l => tv ← inH (load_textVar l); inW (TextTagVar.write tv env)
      | TagW ty l =>
          match ty with
          | TComment => commentTag_write (write fuel' env) l
          | THtml => htmlTag_write (write fuel' env) l
          | TNull => nullTag_write (write fuel' env) l
          | TSingle | TInput => singleTag_write l
          | TBase | TBody | TOption => baseTag_write (write fuel' env) l
          end
      end
  end.

(** *** Pretty rendering *)

Definition baseTag_writePretty
    (childWritePretty : tagWriter → nat → M St result) (l : loc)
    (indent : nat) : M St result :=
  b ← inH (load_tag l);
  if baseTag.hidden b then mret (0, None)
  else
    tagStr ← checked (Const.index tagTypeStringMap (baseTag.tagType b));
    let n := 0 in
    (* Pretty print with indentation. *)
    n += inW (writeIndent indent) ;;;
    (* Write the opening tag. *)
    attrs ← inH (read_intMap (baseTag.attrs b));
    customAttrs ← inH (read_strMap (baseTag.customAttrs b));
    n += inW (writeOpenTagLeadSorted attrs customAttrs tagStr) ;;;
    (* Finish the open tag. *)
    n += inW (writeRune ">") ;;;
    let newIndent := indent + kIndentSpace in
    (* Recursively write all children. *)
    for_each (baseTag.children b) (λ childTag n continue,
      childHidden ← inH (tagWriter_isHidden childTag);
      if childHidden : bool then continue n
      else
        (* Pretty print with newline between children. *)
        n += inW (writeRune newline) ;;;
        n += childWritePretty childTag newIndent ;;;
        continue n) n (λ n,
    (if decide (0 < length (baseTag.children b)) then
       λ k,
         (* Separate from children. *)
         n += inW (writeRune newline) ;;;
         n += inW (writeIndent indent) ;;;
         k n
     else λ k, k n) (λ n,
    (* Write the closing tag. *)
    let s := "</" +:+ tagStr +:+ ">" in
    n += inW (io_WriteString s) ;;;
    mret (n, None))).

Definition singleTag_writePretty (l : loc) (indent : nat) : M St result :=
  b ← inH (load_tag l);
  let n := 0 in
  n += inW (writeIndent indent) ;;;
  tagStr ← checked (Const.index tagTypeStringMap (baseTag.tagType b));
  (* Write the tag. *)
  attrs ← inH (read_intMap (baseTag.attrs b));
  customAttrs ← inH (read_strMap (baseTag.customAttrs b));
  n += inW (writeOpenTagLeadSorted attrs customAttrs tagStr) ;;;
  (* Finish the tag. *)
  n += inW (io_WriteString " />") ;;;
  mret (n, None).

Definition commentTag_writePretty
    (childWritePretty : tagWriter → nat → M St result) (l : loc)
    (indent : nat) : M St result :=
  b ← inH (load_tag l);
  let n := 0 in
  n += inW (writeIndent indent) ;;;
  n += inW (io_WriteString "<!--") ;;;
  let newIndent := indent + kIndentSpace in
  (* Recursively write all children. *)
  for_each (baseTag.children b) (λ childTag n continue,
    (* Pretty print with newline. *)
    n += inW (writeRune newline) ;;;
    n += childWritePretty childTag newIndent ;;;
    continue n) n (λ n,
  (if decide (0 < length (baseTag.children b)) then
     λ k,
       (* Separate from children. *)
       n += inW (writeRune newline) ;;;
       n += inW (writeIndent indent) ;;;
       k n
   else
     λ k,
       (* Ensure that we have a space. *)
       n += inW (writeRune " ") ;;;
       k n) (λ n,
  n += inW (io_WriteString "-->") ;;;
  mret (n, None))).

Definition htmlTag_writePretty
    (childWritePretty : tagWriter → nat → M St result) (l : loc)
    (indent : nat) : M St result :=
  let n := 0 in
  n += inW (writeIndent indent) ;;;
  (* Always prepend a DOCTYPE declaration. *)
  n += inW (io_WriteString ("<!DOCTYPE html>" +:+ String newline "")) ;;;
  n += baseTag_writePretty childWritePretty l indent ;;;
  mret (n, None).

Definition nullTag_writePretty
    (childWritePretty : tagWriter → nat → M St result) (l : loc)
    (indent : nat) : M St result :=
  b ← inH (load_tag l);
  let children := baseTag.children b in
  let n := 0 in
  for_each (zip (seq 0 (length children)) children) (λ ic n continue,
    let ii := ic.1 in
    let childTag := ic.2 in
    n += childWritePretty childTag 0 ;;;
    if decide (ii = length children - 1) then
      (* Avoid the final newline. *)
      continue n
    else
      (* Pretty print with newline. *)
      n += inW (writeRune newline) ;;;
      continue n) n (λ n,
  mret (n, None)).

(** [w.writePretty(writer, indent, env...)]: the call through the
    interface. *)
Fixpoint writePretty (fuel : nat) (env : list Environment) (w : tagWriter)
    (indent : nat) : M St result :=
  match fuel with
  | 0 => λ _, OutOfFuel
  | S fuel' =>
      match w with
      | TextW l =>
          tx ← inH (load_text l); inW (TextTag.writePretty tx indent)
      | TextVarW l =>
          tv ← inH (load_textVar l);
          inW (TextTagVar.writePretty tv indent env)
      | TagW ty l =>
          match ty with
          | TComment => commentTag_writePretty (writePretty fuel' env) l indent
          | THtml => htmlTag_writePretty (writePretty fuel' env) l indent
          | TNull => nullTag_writePretty (writePretty fuel' env) l indent
          | TSingle | TInput => singleTag_writePretty l indent
          | TBase | TBody | TOption =>
              baseTag_writePretty (writePretty fuel' env) l indent
          end
      end
  end.

(** Writes the tag tree from the given root tag. *)
Definition Write (fuel : nat) (root : Tag) (env : list Environment)
    : M St result :=
  write fuel env (Tag_writer root).

Definition WritePretty (fuel : nat) (root : Tag) (env : list Environment)
    : M St result :=
  writePretty fuel env (Tag_writer root) 0.

(** *** Copy *)

(** Returns a copy of attrs. *)
Definition copyAttrs (attrs : option loc) : M Heap loc :=
  m ← read_intMap attrs; alloc_intMap m.

Definition copyCustomAttrs (attrs : option loc) : M Heap loc :=
  m ← read_strMap attrs; alloc_strMap m.

(** The common body of [baseTag.Copy] and [singleTag.Copy], which differ in
    [renderCacheOpen] and in the type of the copy. *)
Definition copy_with
    (renderCacheOpen : gmap Z string → gmap string string → string →
                       outcome (string * option error))
    (l : loc) : M Heap loc :=
  b ← load_tag l;
  (if baseTag.isCacheClean b then mret ()
   else
     tagStr ← checked (Const.index tagTypeStringMap (baseTag.tagType b));
     (* On an error the cache is left dirty. *)
     refresh_cache renderCacheOpen l tagStr;; mret ());;
  b ← load_tag l;
  attrs ← copyAttrs (baseTag.attrs b);
  customAttrs ← copyCustomAttrs (baseTag.customAttrs b);
  alloc_tag
    (baseTag.mk (baseTag.tagType b) (Some attrs) (Some customAttrs) []
       None (baseTag.isCacheClean b) (baseTag.cacheOpen b) false).

Definition baseTag_Copy (l : loc) : M Heap Tag :=
  l' ← copy_with baseTag_renderCacheOpen l; mret (TBase, l').

Definition singleTag_Copy (l : loc) : M Heap Tag :=
  l' ← copy_with singleTag_renderCacheOpen l; mret (TSingle, l').

Definition commentTag_Copy (l : loc) : M Heap Tag :=
  l' ← alloc_tag baseTag.zero; mret (TComment, l').

Definition nullTag_Copy (l : loc) : M Heap Tag :=
  l' ← newNullTag; mret (TNull, l').

(** [t.Copy()]: the call through the interface. *)
Definition Copy (t : Tag) : M Heap Tag :=
  match t.1 with
  | TComment => commentTag_Copy t.2
  | TNull => nullTag_Copy t.2
  | TSingle | TInput => singleTag_Copy t.2
  | TBase | TBody | THtml | TOption => baseTag_Copy t.2
  end.

End render.
(** ** The expansion of a variable text, as the specification words it

    For each span in order: the literal text before it, escaped unless the
    leaf is unsafe; then, with the name being the span without its leading
    delimiter, one verbatim delimiter if the name is the delimiter and
    otherwise the value of the name in the environment (the string
    [undefined] if absent), escaped unless unsafe.  After the last span the
    remaining suffix, escaped unless unsafe. *)
Module Expansion.

Definition escape_unless (unsafe : bool) (s : string) : string :=
  if unsafe then s else html_EscapeString s.

(** The bytes of [text] from index [from] up to, not including, [to]. *)
Definition between (text : string) (from to : nat) : string :=
  Str.take (to - from) (Str.drop from text).

Definition name_of (text : string) (v : Var) : string :=
  Str.drop 1 (between text (Var.startOffset v)
                (Var.startOffset v + Var.length v)).

Definition substitute (unsafe : bool) (env : Environment) (name : string)
    : string :=
  if decide (name = "$") then "$"
  else escape_unless unsafe
         (match env !! name with
          | Some value => Value_String value
          | None => "undefined"
          end).

Fixpoint chunks (unsafe : bool) (env : Environment) (text : string)
    (spans : list Var) (from : nat) : list string :=
  match spans with
  | [] => [escape_unless unsafe (Str.drop from text)]
  | v :: spans' =>
      escape_unless unsafe (between text from (Var.startOffset v))
      :: substitute unsafe env (name_of text v)
      :: chunks unsafe env text spans' (Var.startOffset v + Var.length v)
  end.

Definition expand (unsafe : bool) (env : Environment) (text : string)
    (spans : list Var) : string :=
  Str.concat (chunks unsafe env text spans 0).

End Expansion.

(** [spans_from text from vars]: the spans lie in [text] at or after [from],
    one after the other, each on a dollar and at least one byte long. *)
Inductive spans_from (text : string) : nat → list Var → Prop :=
  | spans_from_nil from :
      from ≤ String.length text → spans_from text from []
  | spans_from_cons from v vars :
      from ≤ Var.startOffset v →
      1 ≤ Var.length v →
      String.get (Var.startOffset v) text = Some "$"%char →
      Var.startOffset v + Var.length v ≤ String.length text →
      spans_from text (Var.startOffset v + Var.length v) vars →
      spans_from text from (v :: vars).

(** Handing a sequence of strings to the sink one after the other, stopping
    at the first failure. *)
Fixpoint write_chunks (chunks : list string) (count : nat) : M Writer result :=
  match chunks with
  | [] => mret (count, None)
  | c :: chunks' => count += io_WriteString c ;;; write_chunks chunks' count
  end.

(** A sink that accepts every write. *)
Definition reliable (w : Writer) : Prop := ∀ i s, policy w i s = None.

(** The sink [w] after it has accepted the bytes [s] in [c] calls. *)
Definition absorb (w : Writer) (s : string) (c : nat) : Writer :=
  {| written := written w +:+ s; calls := calls w + c; policy := policy w |}.

(** ** The attributes of a pretty-printed opening tag, as the specification
    words them

    Without custom attributes the known attributes are sorted by the integer
    value of their identifier; otherwise known and custom attributes are
    merged into one map keyed by name and sorted by name, byte by byte. *)
Module Pretty.

(** One attribute as it appears in the output. *)
Definition attribute (kv : string * string) : string :=
  " " +:+ kv.1 +:+ String "=" (String dquote "") +:+ kv.2
  +:+ String dquote "".

Definition open_tag_lead (tagStr : string) (kvs : list (string * string))
    : string :=
  "<" +:+ tagStr +:+ Str.concat (attribute <$> kvs).

(** Every identifier of a known attribute is one of the kAttr constants. *)
Definition known_in_range (attrs : gmap Z string) : Prop :=
  ∀ id, is_Some (attrs !! id) → (0 ≤ id < kAttrMAXCOUNT)%Z.

Definition name (id : Z) : string :=
  default "" (Const.index attrStringMap id).

(** The known attributes, keyed by name. *)
Definition named (attrs : gmap Z string) : gmap string string :=
  list_to_map ((λ kv, (name kv.1, kv.2)) <$> map_to_list attrs).

Definition by_identifier (attrs : gmap Z string)
    (kvs : list (string * string)) : Prop :=
  ∃ ids : list Z,
    Sorted Z.le ids
    ∧ ids ≡ₚ (map_to_list attrs).*1
    ∧ kvs = (λ id, (name id, default "" (attrs !! id))) <$> ids.

Definition by_name (attrs : gmap Z string) (customAttrs : gmap string string)
    (kvs : list (string * string)) : Prop :=
  Sorted String.le kvs.*1
  ∧ kvs.*1 ≡ₚ (name <$> (map_to_list attrs).*1) ++ (map_to_list customAttrs).*1
  ∧ Forall (λ kv, (customAttrs ∪ named attrs) !! kv.1 = Some kv.2) kvs.

(** The merged attributes read as one set keyed by name: every name of the
    merged map once, sorted by name. *)
Definition one_set_by_name (attrs : gmap Z string)
    (customAttrs : gmap string string) (kvs : list (string * string))
    : Prop :=
  Sorted String.le kvs.*1
  ∧ kvs ≡ₚ map_to_list (customAttrs ∪ named attrs).

Definition sorted_attributes (attrs : gmap Z string)
    (customAttrs : gmap string string) (kvs : list (string * string))
    : Prop :=
  if decide (customAttrs = ∅) then by_identifier attrs kvs
  else by_name attrs customAttrs kvs.

End Pretty.

(** Two results of the merging loops that hold the same map and the same
    keys up to their order. *)
Definition merged_rel (r1 r2 : gmap string string * list string) : Prop :=
  r1.1 = r2.1 ∧ r1.2 ≡ₚ r2.2.

(** ** Heaps without dangling references *)

(** The object an interface value points to exists. *)
Definition allocated (h : Heap) (w : tagWriter) : Prop :=
  match w with
  | TagW _ l => is_Some (tags h !! l)
  | TextW l => is_Some (texts h !! l)
  | TextVarW l => is_Some (textVars h !! l)
  end.

Global Instance allocated_dec h w : Decision (allocated h w).
Proof. destruct w; simpl; apply _. Defined.

Definition closed_tag (h : Heap) (b : baseTag.t) : Prop :=
  Forall (allocated h) (baseTag.children b)
  ∧ (∀ a, baseTag.attrs b = Some a → is_Some (intMaps h !! a))
  ∧ (∀ c, baseTag.customAttrs b = Some c → is_Some (strMaps h !! c)).

(** Every child and every map that a tag of the heap refers to is in the
    heap, as in every state of a Go program. *)
Definition closed (h : Heap) : Prop :=
  ∀ l b, tags h !! l = Some b → closed_tag h b.

(** A version of [closed] that can be computed on a given heap. *)
Definition closed_tagb (h : Heap) (b : baseTag.t) : bool :=
  forallb (λ w, bool_decide (allocated h w)) (baseTag.children b)
  && match baseTag.attrs b with
     | Some a => bool_decide (is_Some (intMaps h !! a))
     | None => true
     end
  && match baseTag.customAttrs b with
     | Some c => bool_decide (is_Some (strMaps h !! c))
     | None => true
     end.

Definition closedb (h : Heap) : bool :=
  forallb (λ lb, closed_tagb h lb.2) (map_to_list (tags h)).

(** Two states of a tag that differ in the cache fields only. *)
Definition same_shape (b0 b1 : baseTag.t) : Prop :=
  baseTag.tagType b0 = baseTag.tagType b1
  ∧ baseTag.attrs b0 = baseTag.attrs b1
  ∧ baseTag.customAttrs b0 = baseTag.customAttrs b1
  ∧ baseTag.children b0 = baseTag.children b1
  ∧ baseTag.parent b0 = baseTag.parent b1
  ∧ baseTag.hidden b0 = baseTag.hidden b1.

(** [h1] holds every object of [h0], the tags up to their cache fields. *)
Definition covers (h0 h1 : Heap) : Prop :=
  (∀ l b0, tags h0 !! l = Some b0 →
     ∃ b1, tags h1 !! l = Some b1 ∧ same_shape b0 b1)
  ∧ texts h0 ⊆ texts h1
  ∧ textVars h0 ⊆ textVars h1
  ∧ intMaps h0 ⊆ intMaps h1
  ∧ strMaps h0 ⊆ strMaps h1.

(** Two heaps that extend the heap [h0] and hold the same tag at every
    address of a tag of [h0]. *)
Definition framed (h0 h1 h2 : Heap) : Prop :=
  covers h0 h1 ∧ covers h0 h2
  ∧ (∀ l, is_Some (tags h0 !! l) → tags h1 !! l = tags h2 !! l).

(** Two runs that end alike: the same value, the same sink, and heaps that
    are still framed. *)
Definition rel_outcome {A} (h0 : Heap) (Q : A → Prop)
    (o1 o2 : outcome (A * St)) : Prop :=
  match o1, o2 with
  | Ret (a1, s1), Ret (a2, s2) =>
      a1 = a2 ∧ Q a1 ∧ s1.2 = s2.2 ∧ framed h0 s1.1 s2.1
  | Panic, Panic => True
  | OutOfFuel, OutOfFuel => True
  | _, _ => False
  end.

(** A computation that cannot tell two framed heaps apart. *)
Definition sim {A} (h0 : Heap) (Q : A → Prop) (m : M St A) : Prop :=
  ∀ h1 h2 w, framed h0 h1 h2 → rel_outcome h0 Q (m (h1, w)) (m (h2, w)).

(** ** Mutations of the attributes of a tag *)

Inductive attr_mutation : Type :=
  | Mut_setAttr (keyId : Z) (value : string)
  | Mut_SetAttribute (key value : string)
  | Mut_SetAttributes (attrs : gmap string string)
  | Mut_RemoveAttribute (key : string)
  | Mut_RemoveAttributes (keys : list string)
  | Mut_SetClasses (classes : list string)
  | Mut_AddClasses (classes : list string).

Definition mutate (l : loc) (m : attr_mutation) : M Heap unit :=
  match m with
  | Mut_setAttr keyId value => setAttr l keyId value
  | Mut_SetAttribute key value => SetAttribute l key value
  | Mut_SetAttributes attrs => SetAttributes l attrs
  | Mut_RemoveAttribute key => RemoveAttribute l key
  | Mut_RemoveAttributes keys => RemoveAttributes l keys
  | Mut_SetClasses classes => SetClasses l classes
  | Mut_AddClasses classes => AddClasses l classes
  end.

(** [h2] differs from [h1] at most in the tag at [l], in the map[int]string
    at [a] and in the map[string]string at [c]. *)
Definition differs_at (l a c : loc) (h1 h2 : Heap) : Prop :=
  (∀ l0, l0 ≠ l → tags h2 !! l0 = tags h1 !! l0)
  ∧ texts h2 = texts h1
  ∧ textVars h2 = textVars h1
  ∧ (∀ a0, a0 ≠ a → intMaps h2 !! a0 = intMaps h1 !! a0)
  ∧ (∀ c0, c0 ≠ c → strMaps h2 !! c0 = strMaps h1 !! c0).

(** The tag at [l] has the map objects at [a] and [c] as its attribute
    maps. *)
Definition owns (l a c : loc) (h : Heap) : Prop :=
  ∃ b, tags h !! l = Some b
       ∧ baseTag.attrs b = Some a ∧ baseTag.customAttrs b = Some c.

(** A heap computation that, started where [l] owns [a] and [c], changes
    these three objects at most. *)
Definition touches {A} (l a c : loc) (Q : A → Prop) (m : M Heap A) : Prop :=
  ∀ h r h', owns l a c h → m h = Ret (r, h') →
    Q r ∧ differs_at l a c h h' ∧ owns l a c h'.

(** The source tag after [Copy]: its cache has been made valid. *)
Definition refreshed (s : string) (b : baseTag.t) : baseTag.t :=
  if baseTag.isCacheClean b then b
  else baseTag.with_isCacheClean true (baseTag.with_cacheOpen s b).

(** The concrete types of element nodes: every type but the comment and null
    wrappers. *)
Definition element_type (ty : dynType) : Prop :=
  ty ≠ TComment ∧ ty ≠ TNull.

(** ** Sample trees, built through the API *)

(** What a caller of a rendering function observes: the returned pair and
    the bytes that reached the sink. *)
Definition observe {A} (o : outcome (A * St)) : outcome (A * string) :=
  match o with
  | Ret (a, s) => Ret (a, written s.2)
  | Panic => Panic
  | OutOfFuel => OutOfFuel
  end.

(** The result of a call on the heap, without the heap. *)
Definition value_of {A} (o : outcome (A * Heap)) : outcome A :=
  match o with
  | Ret (a, _) => Ret a
  | Panic => Panic
  | OutOfFuel => OutOfFuel
  end.

Module Sample.

(** [d := H.Div(); d.Br().Hide(true)], then [Write(w, d)]. *)
Definition div_hidden_br (w : Writer) : outcome (result * string) :=
  observe
    ((d ← inH htmlGen_Div;
      br ← inH (baseTag_Br d.2);
      inH (Hide br.2 true);;
      Write canonical_order 3 d []) (emptyHeap, w)).

(** [d := H.Div()], then [Write(w, d)]. *)
Definition div_alone (w : Writer) : outcome (result * string) :=
  observe
    ((d ← inH htmlGen_Div;
      Write canonical_order 3 d []) (emptyHeap, w)).

(** [br := H.Br(); br.Hide(true)], then [WritePretty(w, br)]. *)
Definition hidden_br_pretty (w : Writer) : outcome (result * string) :=
  observe
    ((br ← inH htmlGen_Br;
      inH (Hide br.2 true);;
      WritePretty canonical_order 3 br []) (emptyHeap, w)).

(** [d := H.Div(); d.Div().Hide(true)], then [WritePretty(w, d)]. *)
Definition div_hidden_div_pretty (w : Writer) : outcome (result * string) :=
  observe
    ((d ← inH htmlGen_Div;
      c ← inH (baseTag_Div d.2);
      inH (Hide c.2 true);;
      WritePretty canonical_order 3 d []) (emptyHeap, w)).

(** [d := H.Div()], then [WritePretty(w, d)]. *)
Definition div_alone_pretty (w : Writer) : outcome (result * string) :=
  observe
    ((d ← inH htmlGen_Div;
      WritePretty canonical_order 3 d []) (emptyHeap, w)).

(** [p := H.Div(); c := H.Div(); p.AddChild(c)]; the result is the
    children of [p], the tag [c] and [c.Parent()]. *)
Definition add_child : outcome (list tagWriter * Tag * option loc) :=
  value_of
    ((p ← htmlGen_Div;
      c ← htmlGen_Div;
      AddChild p.2 c;;
      b ← load_tag p.2;
      parent ← Parent c.2;
      mret (baseTag.children b, c, parent)) emptyHeap).

(** [i := H.Input(""); i.SetValue("v")], a first [Write(w, i)], then
    [i.ResetOptions()] and a second [Write(w, i)].  The result is the two
    returned pairs, [i.Value()] and the cache flag after the reset, and the
    bytes the sink received. *)
Definition reset_options (w : Writer)
    : outcome ((result * result * string * bool) * string) :=
  observe
    ((i ← inH (htmlGen_Input "");
      inH (InputTag_SetValue i.2 "v");;
      r1 ← Write canonical_order 2 i [];
      inH (InputTag_ResetOptions i.2);;
      v ← inH (InputTag_Value i.2);
      b ← inH (load_tag i.2);
      r2 ← Write canonical_order 2 i [];
      mret (r1, r2, v, baseTag.isCacheClean b)) (emptyHeap, w)).

(** [root := H.Div(); root.Up(count...)] *)
Definition up_from_root (count : list Z) : outcome (option loc) :=
  value_of ((root ← htmlGen_Div; baseTag_Up root.2 count) emptyHeap).

(** [root := H.Div(); c := root.Div(); c.Up(count...)] *)
Definition up_from_child (count : list Z) : outcome (option loc) :=
  value_of
    ((root ← htmlGen_Div;
      c ← baseTag_Div root.2;
      baseTag_Up c.2 count) emptyHeap).

(** [d := H.Div(); d.Span().T("x")], then [Write(w, d)]. *)
Definition div_span_text (w : Writer) : outcome (result * string) :=
  observe
    ((d ← inH htmlGen_Div;
      s ← inH (baseTag_Span d.2);
      inH (baseTag_T s.2 ["x"]);;
      Write canonical_order 4 d []) (emptyHeap, w)).

(** The same tree, with [WritePretty(w, d)]. *)
Definition div_span_text_pretty (w : Writer) : outcome (result * string) :=
  observe
    ((d ← inH htmlGen_Div;
      s ← inH (baseTag_Span d.2);
      inH (baseTag_T s.2 ["x"]);;
      WritePretty canonical_order 4 d []) (emptyHeap, w)).

(** [d := H.Div(); d.SetClasses("foo")]: the heap after the two calls. *)
Definition div_with_class : Heap :=
  match (d ← htmlGen_Div; SetClasses d.2 ["foo"]) emptyHeap with
  | Ret (_, h) => h
  | _ => emptyHeap
  end.

(** [r := NewNull(); r.T("hello")]: the heap after the two calls. *)
Definition null_hello : Heap :=
  match (r ← NewNull; baseTag_T r.2 ["hello"]) emptyHeap with
  | Ret (_, h) => h
  | _ => emptyHeap
  end.

End Sample.

(** * Further properties of the package

    The definitions below support the properties proved in the last part of
    the development: the contract between the count a writing function
    returns and the bytes that reach the sink, and what rendering may change
    in the heap. *)

(** ** The count and the sink *)

(** [w'] is the sink [w] after the bytes [str] were appended to it. *)
Definition appended (w w' : Writer) (str : string) : Prop :=
  written w' = written w +:+ str ∧ policy w' = policy w.

(** A writing function that is entered with the running count [n] and whose
    effect on the state is described by [step]: the count it returns never
    exceeds [n] plus the number of bytes it appended, and is equal to it when
    no error is returned. *)
Definition accounts {S} (step : S → S → string → Prop) (n : nat)
    (m : M S result) : Prop :=
  ∀ s, match m s with
       | Ret ((n', err), s') =>
           ∃ str, step s s' str
                  ∧ n' ≤ n + String.length str
                  ∧ (err = None → n' = n + String.length str)
       | Panic | OutOfFuel => True
       end.

(** A computation that appends nothing. *)
Definition silent {S A} (step : S → S → string → Prop) (m : M S A) : Prop :=
  ∀ s, match m s with
       | Ret (_, s') => step s s' ""
       | Panic | OutOfFuel => True
       end.

Class StepLaws {S} (step : S → S → string → Prop) : Prop := {
  step_nil : ∀ s, step s s "";
  step_app : ∀ s1 s2 s3 a b,
    step s1 s2 a → step s2 s3 b → step s1 s3 (a +:+ b)
}.

(** ** Rendering and the heap *)

(** [h'] is [h] up to the cache fields of its tags: the same tags with the
    same type, maps, children, parent and hidden flag, and the same text
    leaves and map objects. *)
Definition recached (h h' : Heap) : Prop :=
  (∀ l, option_Forall2 same_shape (tags h !! l) (tags h' !! l))
  ∧ texts h' = texts h
  ∧ textVars h' = textVars h
  ∧ intMaps h' = intMaps h
  ∧ strMaps h' = strMaps h.

(** A step of a rendering function: the heap changes within [R] and the
    sink grows by [str]. *)
Definition st_step (R : Heap → Heap → Prop) (s s' : St) (str : string)
    : Prop :=
  R s.1 s'.1 ∧ appended s.2 s'.2 str.

(** A heap computation whose final heap is related to the first by [R]. *)
Definition keeps {A} (R : Heap → Heap → Prop) (m : M Heap A) : Prop :=
  ∀ h, match m h with
       | Ret (_, h') => R h h'
       | Panic | OutOfFuel => True
       end.

(** ** Sample states *)

Module Examples.

(** The heap after [d := H.Div(); d.Span().T("x")]; [d] is the tag at
    address 0. *)
Definition div_span_text : Heap :=
  match (d ← htmlGen_Div;
         s ← baseTag_Span d.2;
         baseTag_T s.2 ["x"]) emptyHeap with
  | Ret (_, h) => h
  | _ => emptyHeap
  end.

(** The heap after [d := H.Div(); c := d.Div(); c.Div()]: three nested divs
    at the addresses 0, 1 and 2. *)
Definition nested_divs : Heap :=
  match (d ← htmlGen_Div;
         c ← baseTag_Div d.2;
         baseTag_Div c.2) emptyHeap with
  | Ret (_, h) => h
  | _ => emptyHeap
  end.

(** The heap after [d := H.Div(); d.SetId("x"); d.SetTitle("t")]. *)
Definition div_id_title : Heap :=
  match (d ← htmlGen_Div;
         SetId d.2 "x";;
         SetTitle d.2 "t") emptyHeap with
  | Ret (_, h) => h
  | _ => emptyHeap
  end.

(** The heap after [i := H.Input("text"); i.SetValue("v")]; [i] is the tag
    at address 0. *)
Definition input_text_value : Heap :=
  match (i ← htmlGen_Input "text";
         InputTag_SetValue i.2 "v") emptyHeap with
  | Ret (_, h) => h
  | _ => emptyHeap
  end.

End Examples.

(** ** Variable names *)

(** A name that the second alternative of [reVar] matches in full: a letter
    or underscore followed by letters, digits and underscores. *)
Definition is_identifier (s : string) : bool :=
  match s with
  | EmptyString => false
  | String c s' => is_ident_start c && forallb is_ident_char (Str.bytes s')
  end.

(** ** base_tag.go: further methods *)

Definition baseTag_Id (l : loc) : M Heap string :=
  b ← load_tag l;
  attrs ← read_intMap (baseTag.attrs b);
  (* The empty string is returned by default. *)
  mret (default "" (attrs !! kAttrId)).

(** [t.Input(inputType)], called without options: like [Body], it appends
    the new tag to the children and does not go through [addChild]. *)
Definition baseTag_Input (l : loc) (inputType : string) : M Heap Tag :=
  newTag ← htmlGen_Input inputType;
  update_tag l (λ b,
    baseTag.with_children (baseTag.children b ++ [Tag_writer newTag]) b);;
  mret newTag.

(** The loop of [RemoveParent]:
    [for ii := len(parentChildren) - 1; ii >= 0; ii-- { ... }], entered with
    [k = ii + 1].  It searches in reverse order for [t] and returns the
    children with the sections before and after [ii] spliced, or [None] when
    the loop ends without a match. *)
Fixpoint RemoveParent_loop (t : tagWriter) (parentChildren : list tagWriter)
    (k : nat) : option (list tagWriter) :=
  match k with
  | 0 => None
  | S ii =>
      match parentChildren !! ii with
      | Some child =>
          if decide (child = t) then
            Some (take ii parentChildren ++ drop (S ii) parentChildren)
          else RemoveParent_loop t parentChildren ii
      | None => None
      end
  end.

(** [t.RemoveParent()].  The receiver is a [*baseTag], so the interface
    value that the children of the parent are compared with has the concrete
    type [*baseTag]: a child that was stored with another concrete type is
    not equal to it.  [parent.getChildren()] on the nil interface panics. *)
Definition RemoveParent (l : loc) : M Heap unit :=
  b ← load_tag l;
  (* Remove t from the children slice of the parent. *)
  parent ← checked (baseTag.parent b);
  pb ← load_tag parent;
  let parentChildren := baseTag.children pb in
  match RemoveParent_loop (TagW TBase l) parentChildren
          (length parentChildren) with
  | Some newChildren =>
      update_tag parent (baseTag.with_children newChildren)
  | None => mret ()
  end;;
  update_tag l (baseTag.with_parent None).

(** The open-tag cache of the tag at [l] is marked dirty. *)
Definition dirty (l : loc) (h : Heap) : Prop :=
  ∃ b, tags h !! l = Some b ∧ baseTag.isCacheClean b = false.

(** ** tag.go: [OptionTag] and [CheckedInputTag] *)

Definition OptionTag_Selected (l : loc) : M Heap bool :=
  b ← load_tag l;
  attrs ← read_intMap (baseTag.attrs b);
  mret (bool_decide (is_Some (attrs !! kAttrSelected))).

Definition OptionTag_Value (l : loc) : M Heap string :=
  b ← load_tag l;
  attrs ← read_intMap (baseTag.attrs b);
  mret (default "" (attrs !! kAttrValue)).

Definition CheckedInputTag_Checked (l : loc) : M Heap bool :=
  b ← load_tag l;
  attrs ← read_intMap (baseTag.attrs b);
  mret (bool_decide (is_Some (attrs !! kAttrChecked))).

Definition CheckedInputTag_SetChecked (l : loc) (checked : bool)
    : M Heap unit :=
  b ← load_tag l;
  (if checked then intMap_assign (baseTag.attrs b) kAttrChecked ""
   else intMap_delete (baseTag.attrs b) kAttrChecked);;
  update_tag l (baseTag.with_isCacheClean false).

(** ** tag.go and htmlgen.go: text leaves *)

(** [t.T(text...)] on a text leaf: appends the escaped text. *)
Definition TextTag_T (l : loc) (text : list string) : M Heap unit :=
  match text with
  | [] => mret ()
  | s :: _ =>
      tx ← load_text l;
      store_text l
        (TextTag.mk (TextTag.parent tx)
           (TextTag.text tx +:+ html_EscapeString s))
  end.

(** [t.TUnsafe(text...)] on a text leaf: appends the text as it is. *)
Definition TextTag_TUnsafe (l : loc) (text : list string) : M Heap unit :=
  match text with
  | [] => mret ()
  | s :: _ =>
      tx ← load_text l;
      store_text l (TextTag.mk (TextTag.parent tx) (TextTag.text tx +:+ s))
  end.

(** [t.TV(text...)] on a variable-text leaf: appends the text; [t.vars] is
    left as it is. *)
Definition TextTagVar_TV (text : list string) (tv : TextTagVar.t)
    : TextTagVar.t :=
  match text with
  | [] => tv
  | s :: _ =>
      TextTagVar.mk (TextTagVar.parent tv) (TextTagVar.text tv +:+ s)
        (TextTagVar.vars tv) (TextTagVar.isUnsafe tv)
  end.

(** The bytes that [html.EscapeString] replaces, but for the ampersand:
    the two angle brackets and the two quotes. *)
Definition is_markup (c : ascii) : bool :=
  Ascii.eqb c "<" || Ascii.eqb c ">" || Ascii.eqb c dquote
  || Ascii.eqb c "'".

(** ** Rendering a second time *)

(** [hf] holds every valid cache of [h]: it is [h] up to cache fields, and a
    tag whose cache is clean in [h] is the same tag in [hf]. *)
Definition settled (h hf : Heap) : Prop :=
  recached h hf
  ∧ ∀ l b, tags h !! l = Some b → baseTag.isCacheClean b = true →
           tags hf !! l = Some b.

(** Two sinks that will treat the writes to come alike. *)
Definition alike (w w2 : Writer) : Prop :=
  ∀ i s, policy w2 (calls w2 + i) s = policy w (calls w + i) s.

(** A computation on the sink whose result and whose bytes are the same on
    two sinks that are alike. *)
Definition echoes {A} (m : M Writer A) : Prop :=
  ∀ w w2, alike w w2 →
    match m w, m w2 with
    | Ret (a, w'), Ret (a2, w2') =>
        a = a2 ∧ alike w' w2'
        ∧ ∃ str, written w' = written w +:+ str
                 ∧ written w2' = written w2 +:+ str
    | Panic, Panic | OutOfFuel, OutOfFuel => True
    | _, _ => False
    end.

(** [m'] replays [m]: whenever [m] returns, [m'] started on any heap that
    holds the caches [m] left, and on a sink that is like the one [m] started
    on, returns the same result, writes the same bytes and leaves that heap
    as it is. *)
Definition replays {A} (m m' : M St A) : Prop :=
  ∀ h w a h' w', m (h, w) = Ret (a, (h', w')) →
    settled h h'
    ∧ ∀ hf w2, settled h' hf → alike w w2 →
        ∃ w2' str,
          m' (hf, w2) = Ret (a, (hf, w2'))
          ∧ alike w' w2'
          ∧ written w' = written w +:+ str
          ∧ written w2' = written w2 +:+ str.

(** A computation on the sink that returns no error on a sink that accepts
    every write. *)
Definition unfailing (m : M Writer result) : Prop :=
  ∀ w, reliable w →
    match m w with
    | Ret ((_, None), w') => reliable w'
    | Ret ((_, Some _), _) => False
    | Panic | OutOfFuel => True
    end.

(** What [baseTag.write] does once the cache is valid: the cached open
    tag, the children, the closing tag. *)
Definition baseTag_write_cached (childWrite : tagWriter → M St result)
    (b : baseTag.t) (tagStr : string) : M St result :=
  let n := 0 in
  n += inW (io_WriteString (baseTag.cacheOpen b)) ;;;
  for_each (baseTag.children b) (λ childTag n continue,
    n += childWrite childTag ;;;
    continue n) n (λ n,
  n += inW (io_WriteString "</") ;;;
  n += inW (io_WriteString tagStr) ;;;
  n += inW (writeRune ">") ;;;
  mret (n, None)).

(** What [singleTag.write] does once the cache is valid. *)
Definition singleTag_write_cached (b : baseTag.t) (tagStr : string)
    : M St result :=
  inW (io_WriteString (baseTag.cacheOpen b)).

(** * Properties *)

(** ** Byte strings *)

Section str_lemmas.
Implicit Types (s : string) (n m i : nat) (c : ascii).

Lemma app_nil s : "" +:+ s = s.
Proof. reflexivity. Qed.

Lemma app_cons c s1 s2 : String c s1 +:+ s2 = String c (s1 +:+ s2).
Proof. reflexivity. Qed.

Lemma length_app s1 s2 :
  String.length (s1 +:+ s2) = String.length s1 + String.length s2.
Proof.
  induction s1 as [|a s1 IH]; [done|]. rewrite app_cons. simpl. by rewrite IH.
Qed.

Lemma app_empty_r s : s +:+ "" = s.
Proof. induction s as [|a s IH]; [done|]. by rewrite app_cons, IH. Qed.

Lemma app_assoc' s1 s2 s3 : (s1 +:+ s2) +:+ s3 = s1 +:+ (s2 +:+ s3).
Proof. induction s1 as [|a s1 IH]; [done|]. by rewrite !app_cons, IH. Qed.

Lemma length_take n s : String.length (Str.take n s) = n `min` String.length s.
Proof.
  revert s; induction n as [|n IH]; intros [|a s]; simpl; try done.
  by rewrite IH.
Qed.

Lemma length_drop n s : String.length (Str.drop n s) = String.length s - n.
Proof.
  revert s; induction n as [|n IH]; intros [|a s]; simpl; try done.
Qed.

Lemma drop_drop n m s : Str.drop n (Str.drop m s) = Str.drop (m + n) s.
Proof.
  revert s; induction m as [|m IH]; intros s; simpl; [done|].
  destruct s as [|a s]; [by destruct n|apply IH].
Qed.

Lemma drop_all n s : String.length s ≤ n → Str.drop n s = "".
Proof.
  revert s; induction n as [|n IH]; intros [|a s]; simpl; try done; [lia|].
  intros ?. apply IH. lia.
Qed.

Lemma take_drop n s : Str.take n s +:+ Str.drop n s = s.
Proof.
  revert s; induction n as [|n IH]; intros [|a s]; simpl; try done.
  by rewrite app_cons, IH.
Qed.

Lemma get_drop n i s : String.get i (Str.drop n s) = String.get (n + i) s.
Proof.
  revert s; induction n as [|n IH]; intros s; simpl; [done|].
  destruct s as [|a s]; [by destruct i|apply IH].
Qed.

Lemma bytes_drop_subseteq n s c : c ∈ Str.bytes (Str.drop n s) → c ∈ Str.bytes s.
Proof.
  revert s; induction n as [|n IH]; intros [|a s]; simpl; try done.
  intros ?%IH. unfold Str.bytes in *. simpl. by apply list_elem_of_further.
Qed.

Lemma IndexRune_None s c : c ∉ Str.bytes s → Str.IndexRune s c = None.
Proof.
  unfold Str.bytes. induction s as [|a s IH]; simpl; [done|].
  intros Hnot. destruct (Ascii.eqb_spec a c) as [->|Hne].
  - destruct Hnot. by left.
  - rewrite IH; [done|]. intros ?. apply Hnot. by right.
Qed.

Lemma IndexRune_Some s c i :
  Str.IndexRune s c = Some i → i < String.length s ∧ String.get i s = Some c.
Proof.
  revert i; induction s as [|a s IH]; intros i; simpl; [done|].
  destruct (Ascii.eqb_spec a c) as [->|Hne].
  - intros [= <-]. split; [lia|done].
  - destruct (Str.IndexRune s c) as [j|]; simpl; [|done].
    intros [= <-]. destruct (IH j eq_refl). split; [lia|done].
Qed.

Lemma length_span_le p s : String.length (Str.span p s) ≤ String.length s.
Proof. induction s as [|a s IH]; simpl; [done|]. destruct (p a); simpl; lia. Qed.

Lemma length_reVar_FindString s :
  String.length (reVar_FindString s) ≤ String.length s.
Proof.
  destruct s as [|a s]; simpl; [done|].
  destruct (Ascii.eqb a "$"); simpl; [lia|].
  destruct (is_ident_start a); simpl; [|lia].
  pose proof (length_span_le is_ident_char s). lia.
Qed.

Lemma slice_Some s lo hi :
  lo ≤ hi → hi ≤ String.length s →
  Str.slice s lo hi = Some (Str.take (hi - lo) (Str.drop lo s)).
Proof.
  intros Hlo Hhi. unfold Str.slice.
  apply Nat.leb_le in Hlo, Hhi. by rewrite Hlo, Hhi.
Qed.

Lemma take_all n s : String.length s ≤ n → Str.take n s = s.
Proof.
  revert s; induction n as [|n IH]; intros [|a s]; simpl; try done; [lia|].
  intros ?. f_equal. apply IH. lia.
Qed.

Lemma slice_from_Some s lo :
  lo ≤ String.length s → Str.slice_from s lo = Some (Str.drop lo s).
Proof.
  intros Hlo. unfold Str.slice_from. rewrite slice_Some by lia.
  f_equal. apply take_all. by rewrite length_drop.
Qed.

End str_lemmas.

(** ** The variable parser *)

Lemma parseVars_loop_acc fuel text offset vars :
  parseVars_loop fuel text offset vars
  = vars ++ parseVars_loop fuel text offset [].
Proof.
  revert offset vars. induction fuel as [|fuel IH]; intros offset vars; simpl.
  { by rewrite app_nil_r. }
  destruct (offset <? String.length text)%nat; [|by rewrite app_nil_r].
  destruct (Str.IndexRune _ _) as [index|]; [|by rewrite app_nil_r].
  rewrite IH. simpl. rewrite (IH _ [_]). by rewrite <-app_assoc.
Qed.

Lemma parseVars_loop_spans fuel text offset :
  offset ≤ String.length text →
  spans_from text offset (parseVars_loop fuel text offset []).
Proof.
  revert offset. induction fuel as [|fuel IH]; intros offset Hoff; simpl.
  { by constructor. }
  destruct (offset <? String.length text)%nat eqn:Hlt; [|by constructor].
  apply Nat.ltb_lt in Hlt.
  destruct (Str.IndexRune _ _) as [index|] eqn:Hidx; [|by constructor].
  apply IndexRune_Some in Hidx as [Hi Hget].
  rewrite length_drop in Hi. rewrite get_drop in Hget.
  pose proof (length_reVar_FindString
    (Str.drop (index + 1) (Str.drop offset text))) as Hm.
  rewrite !length_drop in Hm.
  rewrite parseVars_loop_acc. simpl.
  constructor; simpl; try done; try lia.
  replace (offset + index + S _) with (offset + (index + S
    (String.length (reVar_FindString
      (Str.drop (index + 1) (Str.drop offset text)))))) by lia.
  apply IH. lia.
Qed.

(** The bound on the number of iterations is never what ends the loop: any
    two bounds of at least [len(text) - offset] give the same spans. *)
Lemma parseVars_loop_fuel fuel1 fuel2 text offset vars :
  String.length text - offset ≤ fuel1 →
  String.length text - offset ≤ fuel2 →
  parseVars_loop fuel1 text offset vars = parseVars_loop fuel2 text offset vars.
Proof.
  revert fuel2 offset vars.
  induction fuel1 as [|fuel1 IH]; intros [|fuel2] offset vars H1 H2; simpl;
    try done.
  - destruct (Nat.ltb_spec offset (String.length text)); [lia|done].
  - destruct (Nat.ltb_spec offset (String.length text)); [lia|done].
  - destruct (Nat.ltb_spec offset (String.length text)); [|done].
    destruct (Str.IndexRune _ _) as [index|]; [|done].
    apply IH; lia.
Qed.

Lemma parseVars_fuel fuel text :
  String.length text ≤ fuel → parseVars_loop fuel text 0 [] = parseVars text.
Proof. intros ?. apply parseVars_loop_fuel; lia. Qed.

Lemma parseVars_spans text : spans_from text 0 (parseVars text).
Proof. apply parseVars_loop_spans. lia. Qed.

(** ** Rendering a variable text *)

Lemma io_WriteString_reliable s w :
  reliable w →
  io_WriteString s w
  = Ret ((String.length s, None),
         {| written := written w +:+ s; calls := S (calls w);
            policy := policy w |}).
Proof. intros Hw. unfold io_WriteString. by rewrite Hw. Qed.

Lemma write_chunks_reliable chunks count w :
  reliable w →
  write_chunks chunks count w
  = Ret ((count + String.length (Str.concat chunks), None),
         {| written := written w +:+ Str.concat chunks;
            calls := calls w + length chunks; policy := policy w |}).
Proof.
  revert count w. induction chunks as [|c chunks IH]; intros count w Hw; simpl.
  - unfold mret, M_ret. rewrite app_empty_r, !Nat.add_0_r. by destruct w.
  - unfold tally. rewrite io_WriteString_reliable by done.
    rewrite IH by done. simpl. rewrite length_app, app_assoc'.
    do 3 f_equal; [lia|]. f_equal. lia.
Qed.

Lemma write_chunks_not_panic chunks count w :
  write_chunks chunks count w ≠ Panic ∧ write_chunks chunks count w ≠ OutOfFuel.
Proof.
  revert count w. induction chunks as [|c chunks IH]; intros count w; simpl.
  - done.
  - unfold tally, io_WriteString.
    destruct (policy w (calls w) c) as [[k e]|]; [done|]. apply IH.
Qed.

Lemma tally_ext {S} n (m : M S result) k1 k2 s :
  (∀ n' s', k1 n' s' = k2 n' s') → tally n m k1 s = tally n m k2 s.
Proof.
  intros Hk. unfold tally. destruct (m s) as [[[c [e|]] s']| |]; auto.
Qed.

Lemma bind_checked_Some {S A B} (a : A) (k : A → M S B) s :
  (checked (Some a) ≫= k) s = k a s.
Proof. reflexivity. Qed.

(** On spans that lie in the text, the loop of [write] hands to the sink
    exactly the chunks of the expansion, in order. *)
Lemma write_loop_chunks tv env vars offset count w :
  spans_from (TextTagVar.text tv) offset vars →
  TextTagVar.write_loop tv env vars offset count w
  = write_chunks
      (Expansion.chunks (TextTagVar.isUnsafe tv) env (TextTagVar.text tv)
         vars offset) count w.
Proof.
  intros Hsp. revert count w.
  induction Hsp as [from Hfrom|from v vars H1 H2 H3 H4 Hsp IH];
    intros count w;
    cbn [TextTagVar.write_loop Expansion.chunks write_chunks].
  - rewrite slice_from_Some by done. rewrite bind_checked_Some. done.
  - rewrite (slice_Some _ from (Var.startOffset v)) by lia.
    rewrite bind_checked_Some.
    apply tally_ext. intros n1 w1.
    rewrite slice_Some by lia. rewrite bind_checked_Some.
    rewrite slice_from_Some; last first.
    { rewrite length_take, length_drop. lia. }
    rewrite bind_checked_Some.
    unfold Expansion.substitute, Expansion.name_of, Expansion.between.
    destruct (decide (_ = "$")) as [Heq|Hne].
    + apply tally_ext. intros n2 w2. apply IH.
    + unfold Expansion.escape_unless.
      destruct (env !! _); simpl; (apply tally_ext; intros n2 w2; apply IH).
Qed.

Lemma write_NewTextTagVar text unsafe optEnv w :
  TextTagVar.write (TextTagVar.SetUnsafe unsafe (NewTextTagVar text)) optEnv w
  = write_chunks
      (Expansion.chunks unsafe (TextTagVar.env_of optEnv) text
         (parseVars text) 0) 0 w.
Proof.
  unfold TextTagVar.write. rewrite write_loop_chunks; [done|].
  simpl. apply parseVars_spans.
Qed.

Lemma write_parsed tv optEnv w :
  TextTagVar.vars tv = parseVars (TextTagVar.text tv) →
  TextTagVar.write tv optEnv w
  = write_chunks
      (Expansion.chunks (TextTagVar.isUnsafe tv) (TextTagVar.env_of optEnv)
         (TextTagVar.text tv) (TextTagVar.vars tv) 0) 0 w.
Proof.
  intros Hvars. unfold TextTagVar.write. apply write_loop_chunks.
  rewrite Hvars. apply parseVars_spans.
Qed.

(** Expansion on a leaf as [NewTextTagVar] builds it.  A variable-text leaf
    whose spans are the parsed spans of its text hands to the sink, in order and for every sink, the chunks of the
    expansion: for each span the literal text before it (escaped unless
    unsafe), then one verbatim dollar if the name after the leading dollar is
    the dollar itself, and otherwise the value of the name in the environment
    or the string undefined (escaped unless unsafe); finally the remaining
    suffix (escaped unless unsafe).  On a sink that accepts every write the
    output grows by exactly the expansion and the count is its length. *)
Theorem TextTagVar_write_expands (tv : TextTagVar.t)
    (optEnv : list Environment) (w : Writer) :
  TextTagVar.vars tv = parseVars (TextTagVar.text tv) →
  let unsafe := TextTagVar.isUnsafe tv in
  let env := TextTagVar.env_of optEnv in
  let text := TextTagVar.text tv in
  TextTagVar.write tv optEnv w
  = write_chunks (Expansion.chunks unsafe env text (parseVars text) 0) 0 w
  ∧ (reliable w →
     ∃ w', TextTagVar.write tv optEnv w
           = Ret ((String.length (Expansion.expand unsafe env text
                                    (parseVars text)), None), w')
           ∧ written w'
             = written w +:+ Expansion.expand unsafe env text (parseVars text)).
Proof.
  intros Hvars unsafe env text.
  pose proof (write_parsed tv optEnv w Hvars) as Hw.
  rewrite Hvars in Hw. split; [done|].
  intros Hrel. rewrite Hw, write_chunks_reliable by done.
  eexists. split; [reflexivity|done].
Qed.

Lemma TextTagVar_write_expands_witness :
  ∃ w', TextTagVar.write (NewTextTagVar "hello, $name")
          [ {[ "name" := StringValue "foo&bar" ]} ] bytes_Buffer
        = Ret ((18, None), w')
        ∧ written w' = "hello, foo&amp;bar".
Proof.
  exact (proj2 (TextTagVar_write_expands (NewTextTagVar "hello, $name")
                  [ {[ "name" := StringValue "foo&bar" ]} ] bytes_Buffer
                  eq_refl) (λ _ _, eq_refl)).
Defined.

(** C2 (fails on the code).  [SetText] and [TV] change the text of a
    variable-text leaf and keep the spans that [NewTextTagVar] parsed from
    the first text, so that [write] works on spans that are not those of
    the text.  After [SetText] of a text that ends before the first span,
    [write] panics on the slice before the span.  After [SetText] of a text
    with a variable on a leaf that was built without one, and after [TV] of
    such a text, the variable is written as it stands, where the expansion
    of the text is the one with the value of the name.  After [SetText] of a
    text without a dollar on a leaf built from a variable, the bytes under
    the old span are taken for a name and replaced. *)
Theorem stale_spans_break_expansion :
  TextTagVar.write (TextTagVar.SetText "hi" (NewTextTagVar "hello, $name"))
    [ {[ "name" := StringValue "foo" ]} ] bytes_Buffer
  = Panic
  ∧ (∃ w',
       TextTagVar.write
         (TextTagVar.SetText "hello, $name" (NewTextTagVar "hi"))
         [ {[ "name" := StringValue "foo" ]} ] bytes_Buffer
       = Ret ((12, None), w')
       ∧ written w' = "hello, $name")
  ∧ (∃ w',
       TextTagVar.write (TextTagVar_TV ["$name"] (NewTextTagVar "hello, "))
         [ {[ "name" := StringValue "foo" ]} ] bytes_Buffer
       = Ret ((12, None), w')
       ∧ written w' = "hello, $name")
  ∧ Expansion.expand false {[ "name" := StringValue "foo" ]} "hello, $name"
      (parseVars "hello, $name")
    = "hello, foo"
  ∧ (∃ w',
       TextTagVar.write (TextTagVar.SetText "xyz" (NewTextTagVar "$a"))
         [ {[ "a" := StringValue "foo" ]} ] bytes_Buffer
       = Ret ((10, None), w')
       ∧ written w' = "undefinedz").
Proof.
  split; [vm_compute; reflexivity|].
  split; [eexists; split; vm_compute; reflexivity|].
  split; [eexists; split; vm_compute; reflexivity|].
  split; [vm_compute; reflexivity|].
  eexists; split; vm_compute; reflexivity.
Qed.

(** ** Parser facts *)

Lemma parseVars_loop_no_dollar fuel text offset :
  "$"%char ∉ Str.bytes text → parseVars_loop fuel text offset [] = [].
Proof.
  intros Hno. destruct fuel as [|fuel]; simpl; [done|].
  destruct (offset <? String.length text)%nat; [|done].
  rewrite IndexRune_None; [done|].
  intros Hin. by apply Hno, (bytes_drop_subseteq offset).
Qed.

(** C3.  A text without a dollar has no spans, and the two sample texts of
    the test-suite parse to the spans listed there. *)
Theorem parseVars_no_dollar_and_samples :
  (∀ text : string, "$"%char ∉ Str.bytes text → parseVars text = [])
  ∧ parseVars "01234 $worl" = [Var.mk 6 5]
  ∧ parseVars "01234 $worl $ $$ $"
    = [Var.mk 6 5; Var.mk 12 1; Var.mk 14 2; Var.mk 17 1].
Proof.
  split; [|split; reflexivity].
  intros text Hno. by apply parseVars_loop_no_dollar.
Qed.

Lemma parseVars_no_dollar_and_samples_witness : parseVars "hello" = [].
Proof.
  apply (proj1 parseVars_no_dollar_and_samples "hello").
  apply (bool_decide_unpack _). vm_compute. exact I.
Defined.

Lemma spans_from_Forall text from vars :
  spans_from text from vars →
  Forall (λ v, from ≤ Var.startOffset v
               ∧ 1 ≤ Var.length v
               ∧ String.get (Var.startOffset v) text = Some "$"%char
               ∧ Var.startOffset v + Var.length v ≤ String.length text) vars.
Proof.
  induction 1 as [|from v vars H1 H2 H3 H4 Hsp IH]; constructor; [done|].
  eapply Forall_impl; [exact IH|]. simpl. intros b (?&?&?&?).
  repeat split; try done. lia.
Qed.

Lemma spans_from_ordered text from vars i j a b :
  spans_from text from vars →
  i < j → vars !! i = Some a → vars !! j = Some b →
  Var.startOffset a + Var.length a ≤ Var.startOffset b.
Proof.
  intros Hsp. revert i j. induction Hsp as [|from v vars H1 H2 H3 H4 Hsp IH];
    intros i j Hij Hi Hj; [done|].
  destruct j as [|j]; [lia|]. simpl in Hj.
  destruct i as [|i]; simpl in Hi.
  - injection Hi as <-.
    apply spans_from_Forall in Hsp.
    eapply Forall_lookup_1 in Hsp as (?&_); [|exact Hj]. done.
  - apply (IH i j); [lia|done..].
Qed.

(** C10.  Every span that [parseVars] returns is at least one byte long,
    starts on a dollar of the text and ends within the text; a span ends
    before any later span starts, so the spans are pairwise disjoint and their
    start offsets increase strictly; and [write], run on a leaf that holds
    the text with these spans, never panics on a slice out of range. *)
Theorem parseVars_spans_well_formed (text : string) :
  Forall (λ v, 1 ≤ Var.length v
               ∧ String.get (Var.startOffset v) text = Some "$"%char
               ∧ Var.startOffset v + Var.length v ≤ String.length text)
    (parseVars text)
  ∧ (∀ i j a b,
       i < j → parseVars text !! i = Some a → parseVars text !! j = Some b →
       Var.startOffset a + Var.length a ≤ Var.startOffset b
       ∧ Var.startOffset a < Var.startOffset b)
  ∧ (∀ tv optEnv w,
       TextTagVar.text tv = text → TextTagVar.vars tv = parseVars text →
       TextTagVar.write tv optEnv w ≠ Panic).
Proof.
  pose proof (parseVars_spans text) as Hsp. split; [|split].
  - eapply Forall_impl; [by apply spans_from_Forall in Hsp|].
    simpl. by intros v (_&?&?&?).
  - intros i j a b Hij Hi Hj.
    pose proof (spans_from_ordered _ _ _ _ _ _ _ Hsp Hij Hi Hj) as Hle.
    split; [done|].
    apply spans_from_Forall in Hsp.
    eapply Forall_lookup_1 in Hsp as (_&?&_); [|exact Hi]. lia.
  - intros tv optEnv w <- Hvars. rewrite write_parsed by done.
    apply write_chunks_not_panic.
Qed.

Lemma parseVars_spans_well_formed_witness :
  (Var.startOffset (Var.mk 0 2) + Var.length (Var.mk 0 2)
     ≤ Var.startOffset (Var.mk 3 2)
   ∧ Var.startOffset (Var.mk 0 2) < Var.startOffset (Var.mk 3 2))
  ∧ TextTagVar.write (NewTextTagVar "$a $b") [] bytes_Buffer ≠ Panic.
Proof.
  destruct (parseVars_spans_well_formed "$a $b") as (_ & Hordered & Hslices).
  split.
  - apply (Hordered 0 1); [lia|reflexivity|reflexivity].
  - apply Hslices; reflexivity.
Defined.

(** ** Hidden tags *)

(** A hidden tag whose [write] is [baseTag.write] writes nothing. *)
Lemma baseTag_write_hidden ord childWrite l b s :
  tags s.1 !! l = Some b → baseTag.hidden b = true →
  baseTag_write ord childWrite l s = Ret ((0, None), s).
Proof.
  intros Hl Hh. unfold baseTag_write, mbind, M_bind, inH, load_tag.
  rewrite Hl, Hh. by destruct s.
Qed.

Lemma baseTag_writePretty_hidden ord childWritePretty l indent b s :
  tags s.1 !! l = Some b → baseTag.hidden b = true →
  baseTag_writePretty ord childWritePretty l indent s = Ret ((0, None), s).
Proof.
  intros Hl Hh. unfold baseTag_writePretty, mbind, M_bind, inH, load_tag.
  rewrite Hl, Hh. by destruct s.
Qed.

(** C1 (fails on the code).  A hidden self-closing tag is still written:
    compact rendering of a div whose only child is a hidden br gives the six
    bytes of the br between the tags of the div, and pretty rendering of a
    hidden br gives the br.  In pretty rendering a div whose only child is
    hidden gets a line feed before its closing tag that a div without
    children does not get. *)
Theorem hidden_singleTag_is_written :
  Sample.div_hidden_br bytes_Buffer = Ret ((17, None), "<div><br /></div>")
  ∧ Sample.div_alone bytes_Buffer = Ret ((11, None), "<div></div>")
  ∧ Sample.hidden_br_pretty bytes_Buffer = Ret ((6, None), "<br />")
  ∧ Sample.div_hidden_div_pretty bytes_Buffer
    = Ret ((12, None), "<div>" +:+ String newline "</div>")
  ∧ Sample.div_alone_pretty bytes_Buffer = Ret ((11, None), "<div></div>").
Proof. repeat split; vm_compute; reflexivity. Qed.

(** ** Parent links *)

(** C4 (fails on the code).  After [p.AddChild(c)] the tag [c] is the child
    of [p] and its parent reference is still nil. *)
Theorem AddChild_leaves_parent_nil :
  ∃ c : Tag, Sample.add_child = Ret ([Tag_writer c], c, None).
Proof. exists (TBase, 1). vm_compute. reflexivity. Qed.

(** ** The open-tag cache *)

(** C5 (fails on the code).  [InputTag.ResetOptions] removes the value
    attribute and leaves the cache marked clean: the render after the reset
    repeats the stale opening tag. *)
Theorem ResetOptions_keeps_cache_clean :
  Sample.reset_options bytes_Buffer
  = Ret (((19, None), (19, None), "", true),
         "<input value=" +:+ String dquote "v" +:+ String dquote " />"
         +:+ "<input value=" +:+ String dquote "v" +:+ String dquote " />").
Proof. vm_compute. reflexivity. Qed.

(** ** Up *)

Lemma baseTag_Up_count_below_one l c h :
  (c < 1)%Z → baseTag_Up l [c] h = baseTag_Up l [1%Z] h.
Proof.
  intros Hc. unfold baseTag_Up.
  by replace (Z.to_nat (c - 1)) with (Z.to_nat (1 - 1)) by lia.
Qed.

Lemma baseTag_Up_default l h : baseTag_Up l [] h = baseTag_Up l [1%Z] h.
Proof. reflexivity. Qed.

(** C8 (fails on the code).  [Up(2)] on a tag without a parent panics, and
    so does [Up(3)] on the child of such a tag; the walk returns nil only
    when it ends exactly one step above the root. *)
Theorem Up_past_root_panics :
  Sample.up_from_root [2%Z] = Panic
  ∧ Sample.up_from_child [3%Z] = Panic
  ∧ Sample.up_from_root [1%Z] = Ret None
  ∧ Sample.up_from_child [2%Z] = Ret None.
Proof. repeat split; vm_compute; reflexivity. Qed.

(** ** Failing sinks *)

(** C9 (fails on the code).  On a sink that rejects the third write, compact
    rendering of a div that holds a span that holds a text returns the count
    5 with the error while 11 bytes have reached the sink: the bytes written
    inside the failed child call are not counted.  Pretty rendering of the
    same tree on the same sink returns the count 0 with the error while one
    byte has reached the sink: the count of the failed call that writes the
    opening tag is not counted either. *)
Theorem failed_render_count_is_short :
  Sample.div_span_text (failing_after 2)
  = Ret ((5, Some "sink closed"), "<div><span>")
  ∧ String.length "<div><span>" = 11
  ∧ Sample.div_span_text_pretty (failing_after 2)
    = Ret ((0, Some "sink closed"), "<").
Proof. repeat split; vm_compute; reflexivity. Qed.

(** ** Sorted attributes *)

Lemma sort_Ints_perm l1 l2 : l1 ≡ₚ l2 → sort_Ints l1 = sort_Ints l2.
Proof.
  intros Hp. apply (Sorted_unique Z.le).
  - apply Sorted_merge_sort, _.
  - apply Sorted_merge_sort, _.
  - unfold sort_Ints. by rewrite !merge_sort_Permutation.
Qed.

Lemma sort_Strings_perm l1 l2 : l1 ≡ₚ l2 → sort_Strings l1 = sort_Strings l2.
Proof.
  intros Hp. apply (Sorted_unique String.le).
  - apply Sorted_merge_sort, _.
  - apply Sorted_merge_sort, _.
  - unfold sort_Strings. by rewrite !merge_sort_Permutation.
Qed.

Lemma attrStringMap_NoDup : NoDup attrStringMap.
Proof. apply (bool_decide_unpack _). vm_compute. exact I. Qed.

Lemma index_attr_inj id1 id2 k :
  Const.index attrStringMap id1 = Some k →
  Const.index attrStringMap id2 = Some k → id1 = id2.
Proof.
  unfold Const.index.
  destruct (Z.leb_spec 0 id1), (Z.leb_spec 0 id2); try done.
  intros H1 H2.
  pose proof (NoDup_lookup _ _ _ _ attrStringMap_NoDup H1 H2). lia.
Qed.

Lemma index_attr_in_range id :
  (0 ≤ id < kAttrMAXCOUNT)%Z →
  Const.index attrStringMap id = Some (Pretty.name id).
Proof.
  intros [Hlo Hhi]. unfold Pretty.name, Const.index.
  destruct (Z.leb_spec 0 id); [|lia].
  destruct (lookup_lt_is_Some_2 attrStringMap (Z.to_nat id)) as [k ->];
    [|done].
  change (length attrStringMap) with 67. unfold kAttrMAXCOUNT in Hhi. lia.
Qed.

Lemma merge_known_acc_perm l m ks1 ks2 :
  ks1 ≡ₚ ks2 →
  option_Forall2 merged_rel (merge_known l m ks1) (merge_known l m ks2).
Proof.
  revert m ks1 ks2. induction l as [|kv l IH]; intros m ks1 ks2 Hks; simpl.
  - by constructor.
  - destruct (Const.index attrStringMap kv.1) as [key|]; simpl;
      [|constructor].
    apply IH. by f_equiv.
Qed.

Lemma merge_known_perm l1 l2 :
  l1 ≡ₚ l2 → NoDup l1.*1 →
  ∀ m ks1 ks2, ks1 ≡ₚ ks2 →
  option_Forall2 merged_rel (merge_known l1 m ks1) (merge_known l2 m ks2).
Proof.
  induction 1 as [|x l1 l2 Hp IH|x y l|l1 l2 l3 Hp1 IH1 Hp2 IH2];
    intros Hnd m ks1 ks2 Hks.
  - by constructor.
  - simpl. destruct (Const.index attrStringMap x.1) as [key|]; simpl;
      [|constructor].
    apply IH; [by inversion Hnd|by f_equiv].
  - simpl.
    destruct (Const.index attrStringMap y.1) as [ky|] eqn:Hy,
             (Const.index attrStringMap x.1) as [kx|] eqn:Hx; simpl;
      try constructor.
    assert (ky ≠ kx) as Hne.
    { intros ->. pose proof (index_attr_inj _ _ _ Hy Hx) as Heq.
      apply NoDup_cons in Hnd as [Hnin _]. apply Hnin. simpl.
      rewrite Heq. by left. }
    rewrite (insert_insert_ne _ kx ky) by done.
    apply merge_known_acc_perm.
    rewrite <-!app_assoc. simpl. rewrite Hks. f_equiv. apply perm_swap.
  - specialize (IH1 Hnd m ks1 ks1 (reflexivity _)).
    assert (NoDup l2.*1) as Hnd2 by (by rewrite <-Hp1).
    specialize (IH2 Hnd2 m ks1 ks2 Hks).
    destruct IH1 as [r1 r2 [? ?]|]; inversion IH2 as [? r3 [? ?]|];
      simplify_eq; constructor.
    split; [congruence|by etrans].
Qed.

Lemma merge_custom_acc_perm l m ks1 ks2 :
  ks1 ≡ₚ ks2 → merged_rel (merge_custom l m ks1) (merge_custom l m ks2).
Proof.
  revert m ks1 ks2. induction l as [|kv l IH]; intros m ks1 ks2 Hks; simpl.
  - done.
  - apply IH. by f_equiv.
Qed.

Lemma merge_custom_perm l1 l2 :
  l1 ≡ₚ l2 → NoDup l1.*1 →
  ∀ m ks1 ks2, ks1 ≡ₚ ks2 →
  merged_rel (merge_custom l1 m ks1) (merge_custom l2 m ks2).
Proof.
  induction 1 as [|x l1 l2 Hp IH|x y l|l1 l2 l3 Hp1 IH1 Hp2 IH2];
    intros Hnd m ks1 ks2 Hks.
  - done.
  - simpl. apply IH; [by inversion Hnd|by f_equiv].
  - simpl.
    assert (y.1 ≠ x.1) as Hne.
    { intros Heq. apply NoDup_cons in Hnd as [Hnin _]. apply Hnin. simpl.
      rewrite Heq. by left. }
    rewrite (insert_insert_ne _ x.1 y.1) by done.
    apply merge_custom_acc_perm.
    rewrite <-!app_assoc. simpl. rewrite Hks. f_equiv. apply perm_swap.
  - specialize (IH1 Hnd m ks1 ks1 (reflexivity _)).
    assert (NoDup l2.*1) as Hnd2 by (by rewrite <-Hp1).
    specialize (IH2 Hnd2 m ks1 ks2 Hks).
    destruct IH1 as [? ?], IH2 as [? ?]. split; [congruence|by etrans].
Qed.

Lemma range_int_NoDup ord m : valid_order ord → NoDup (range_int ord m).*1.
Proof. intros [Hi _]. rewrite Hi. apply NoDup_fst_map_to_list. Qed.

Lemma range_str_NoDup ord m : valid_order ord → NoDup (range_str ord m).*1.
Proof. intros [_ Hs]. rewrite Hs. apply NoDup_fst_map_to_list. Qed.

(** The sorted opening tag does not depend on the order in which the two
    maps are iterated. *)
Lemma writeOpenTagLeadSorted_order ord1 ord2 attrs customAttrs tagStr w :
  valid_order ord1 → valid_order ord2 →
  writeOpenTagLeadSorted ord1 attrs customAttrs tagStr w
  = writeOpenTagLeadSorted ord2 attrs customAttrs tagStr w.
Proof.
  intros Hv1 Hv2. unfold writeOpenTagLeadSorted.
  apply tally_ext; intros n1 w1. apply tally_ext; intros n2 w2.
  destruct (decide (size customAttrs = 0)).
  - rewrite (sort_Ints_perm (range_int ord1 attrs).*1
               (range_int ord2 attrs).*1); [done|].
    destruct Hv1 as [-> _], Hv2 as [-> _]. done.
  - pose proof (merge_known_perm (range_int ord1 attrs) (range_int ord2 attrs))
      as Hk.
    destruct (Hk (ltac:(destruct Hv1 as [-> _], Hv2 as [-> _]; done))
                 (range_int_NoDup _ _ Hv1) ∅ [] [] (reflexivity _))
      as [[m1 ks1] [m2 ks2] [Hm Hks]|]; [|done].
    simpl in Hm, Hks. subst m2. rewrite !bind_checked_Some. simpl.
    pose proof (merge_custom_perm (range_str ord1 customAttrs)
                  (range_str ord2 customAttrs)
                  (ltac:(destruct Hv1 as [_ ->], Hv2 as [_ ->]; done))
                  (range_str_NoDup _ _ Hv1) m1 ks1 ks2 Hks) as [Hm' Hks'].
    rewrite Hm', (sort_Strings_perm _ _ Hks'). done.
Qed.

(** *** On a sink that accepts every write *)

Lemma reliable_absorb w s c : reliable w → reliable (absorb w s c).
Proof. intros Hw i s'. apply Hw. Qed.

Lemma absorb_nil w : absorb w "" 0 = w.
Proof.
  destruct w as [wr ca po]. unfold absorb. simpl.
  by rewrite app_empty_r, Nat.add_0_r.
Qed.

Lemma absorb_absorb w s1 c1 s2 c2 :
  absorb (absorb w s1 c1) s2 c2 = absorb w (s1 +:+ s2) (c1 + c2).
Proof.
  unfold absorb. simpl. by rewrite app_assoc', Nat.add_assoc.
Qed.

Lemma tally_write_reliable n s (K : nat → M Writer result) w :
  reliable w →
  tally n (io_WriteString s) K w = K (n + String.length s) (absorb w s 1).
Proof.
  intros Hw. unfold tally. rewrite io_WriteString_reliable by done.
  unfold absorb. by rewrite Nat.add_1_r.
Qed.

Lemma tally_Ret {S} n (m : M S result) K s c s' :
  m s = Ret ((c, None), s') → tally n m K s = K (n + c) s'.
Proof. intros Hm. unfold tally. by rewrite Hm. Qed.

Lemma writeKeyValue_reliable key value w :
  reliable w →
  writeKeyValue key value w
  = Ret ((String.length (key +:+ String "=" (String dquote "") +:+ value
                         +:+ String dquote ""), None),
         absorb w (key +:+ String "=" (String dquote "") +:+ value
                   +:+ String dquote "") 4).
Proof.
  intros Hw. unfold writeKeyValue, writeRune.
  rewrite tally_write_reliable by done.
  rewrite tally_write_reliable by by apply reliable_absorb.
  rewrite tally_write_reliable by by do 2 apply reliable_absorb.
  rewrite tally_write_reliable by by do 3 apply reliable_absorb.
  rewrite !absorb_absorb. unfold mret, M_ret. do 3 f_equal.
  rewrite !length_app. simpl. lia.
Qed.

Lemma attribute_reliable key value n (K : nat → M Writer result) w :
  reliable w →
  tally n (writeRune " ")
    (λ n, tally n (writeKeyValue key value) (λ n, K n)) w
  = K (n + String.length (Pretty.attribute (key, value)))
      (absorb w (Pretty.attribute (key, value)) 5).
Proof.
  intros Hw. unfold writeRune. rewrite tally_write_reliable by done.
  erewrite tally_Ret; last by apply writeKeyValue_reliable, reliable_absorb.
  rewrite absorb_absorb. unfold Pretty.attribute. simpl.
  rewrite app_nil. f_equal. lia.
Qed.

Lemma for_each_attributes {X} (xs : list X) body (f : X → string * string)
    n (K : nat → M Writer result) w :
  reliable w →
  (∀ x n K w, x ∈ xs → reliable w →
     body x n K w
     = K (n + String.length (Pretty.attribute (f x)))
         (absorb w (Pretty.attribute (f x)) 5)) →
  for_each xs body n K w
  = K (n + String.length (Str.concat (Pretty.attribute <$> (f <$> xs))))
      (absorb w (Str.concat (Pretty.attribute <$> (f <$> xs)))
         (5 * length xs)).
Proof.
  revert n w. induction xs as [|x xs IH]; intros n w Hw Hbody.
  - simpl. by rewrite absorb_nil, Nat.add_0_r.
  - cbn [for_each]. rewrite Hbody by (done || by left).
    rewrite IH; [|by apply reliable_absorb|].
    + rewrite absorb_absorb, !fmap_cons.
      change (Str.concat (?a :: ?l)) with (a +:+ Str.concat l).
      rewrite length_app. f_equal; [lia|]. f_equal. simpl. lia.
    + intros y n' K' w' Hy Hw'. apply Hbody; [by right|done].
Qed.

Lemma writeKeyIdValue_in_range keyId value w :
  (0 ≤ keyId < kAttrMAXCOUNT)%Z →
  writeKeyIdValue keyId value w = writeKeyValue (Pretty.name keyId) value w.
Proof.
  intros Hr. unfold writeKeyIdValue. rewrite index_attr_in_range by done.
  reflexivity.
Qed.

Lemma known_attribute_reliable keyId value n (K : nat → M Writer result) w :
  (0 ≤ keyId < kAttrMAXCOUNT)%Z → reliable w →
  tally n (writeRune " ")
    (λ n, tally n (writeKeyIdValue keyId value) (λ n, K n)) w
  = K (n + String.length (Pretty.attribute (Pretty.name keyId, value)))
      (absorb w (Pretty.attribute (Pretty.name keyId, value)) 5).
Proof.
  intros Hr Hw. rewrite <-attribute_reliable by done.
  apply tally_ext. intros n' w'. unfold tally.
  by rewrite writeKeyIdValue_in_range.
Qed.

(** The list of known attributes with the identifiers replaced by names. *)
Lemma merge_known_in_range l m ks :
  Forall (λ kv : Z * string, (0 ≤ kv.1 < kAttrMAXCOUNT)%Z) l →
  merge_known l m ks
  = Some (foldl (λ m (kv : string * string), <[kv.1 := kv.2]> m) m
            ((λ kv, (Pretty.name kv.1, kv.2)) <$> l),
          ks ++ (Pretty.name <$> l.*1)).
Proof.
  intros Hl. revert m ks. induction Hl as [|kv l Hkv Hl IH]; intros m ks.
  - simpl. by rewrite app_nil_r.
  - cbn [merge_known]. rewrite index_attr_in_range by done. simpl.
    rewrite IH. by rewrite <-app_assoc.
Qed.

Lemma merge_custom_spec l m ks :
  merge_custom l m ks
  = (foldl (λ m (kv : string * string), <[kv.1 := kv.2]> m) m l, ks ++ l.*1).
Proof.
  revert m ks. induction l as [|kv l IH]; intros m ks; simpl.
  - by rewrite app_nil_r.
  - rewrite IH. by rewrite <-app_assoc.
Qed.

Lemma foldl_insert_union (l : list (string * string)) (m : gmap string string) :
  NoDup l.*1 →
  foldl (λ m kv, <[kv.1 := kv.2]> m) m l = list_to_map l ∪ m.
Proof.
  revert m. induction l as [|kv l IH]; intros m Hnd; simpl.
  - by rewrite (left_id_L ∅ (∪)).
  - apply NoDup_cons in Hnd as [Hnin Hnd]. rewrite IH by done.
    rewrite <-insert_union_l, insert_union_r; [done|].
    by apply not_elem_of_list_to_map_1.
Qed.

Lemma names_NoDup (l : list (Z * string)) :
  Forall (λ kv : Z * string, (0 ≤ kv.1 < kAttrMAXCOUNT)%Z) l →
  NoDup l.*1 → NoDup ((λ kv, (Pretty.name kv.1, kv.2)) <$> l).*1.
Proof.
  intros Hl Hnd. rewrite <-list_fmap_compose.
  change (NoDup ((Pretty.name ∘ fst) <$> l)). rewrite list_fmap_compose.
  apply NoDup_fmap_2_strong; [|done].
  intros id1 id2 [kv1 [-> H1]]%list_elem_of_fmap
    [kv2 [-> H2]]%list_elem_of_fmap Heq.
  rewrite Forall_forall in Hl.
  eapply index_attr_inj; [by apply index_attr_in_range, Hl|].
  rewrite Heq. by apply index_attr_in_range, Hl.
Qed.

Lemma range_int_in_range ord attrs :
  valid_order ord → Pretty.known_in_range attrs →
  Forall (λ kv : Z * string, (0 ≤ kv.1 < kAttrMAXCOUNT)%Z)
    (range_int ord attrs).
Proof.
  intros [Hi _] Hr. rewrite Hi. apply Forall_forall. intros [id v] Hin.
  apply elem_of_map_to_list in Hin. apply Hr. by eexists.
Qed.

Lemma open_tag_lead_length tagStr kvs :
  String.length (Pretty.open_tag_lead tagStr kvs)
  = 1 + String.length tagStr
    + String.length (Str.concat (Pretty.attribute <$> kvs)).
Proof.
  unfold Pretty.open_tag_lead. rewrite app_cons, app_nil. simpl.
  rewrite length_app. lia.
Qed.

(** On a sink that accepts every write, the sorted opening tag is the tag
    name followed by the attributes in the order of the specification. *)
Lemma writeOpenTagLeadSorted_reliable ord attrs customAttrs tagStr w :
  valid_order ord → Pretty.known_in_range attrs → reliable w →
  ∃ kvs w',
    Pretty.sorted_attributes attrs customAttrs kvs
    ∧ writeOpenTagLeadSorted ord attrs customAttrs tagStr w
      = Ret ((String.length (Pretty.open_tag_lead tagStr kvs), None), w')
    ∧ written w' = written w +:+ Pretty.open_tag_lead tagStr kvs.
Proof.
  intros Hv Hr Hw. unfold writeOpenTagLeadSorted, writeRune.
  rewrite tally_write_reliable by done.
  rewrite tally_write_reliable by by apply reliable_absorb.
  rewrite absorb_absorb.
  assert (reliable (absorb w ("<" +:+ tagStr) (1 + 1))) as Hw'
    by by apply reliable_absorb.
  unfold Pretty.sorted_attributes.
  destruct (decide (size customAttrs = 0)) as [Hsz|Hsz].
  - apply map_size_empty_iff in Hsz.
    set (ids := sort_Ints (range_int ord attrs).*1).
    assert (ids ≡ₚ (map_to_list attrs).*1) as Hperm.
    { unfold ids, sort_Ints. rewrite merge_sort_Permutation.
      destruct Hv as [-> _]. done. }
    eexists ((λ id, (Pretty.name id, default "" (attrs !! id))) <$> ids), _.
    split; [|split].
    + rewrite decide_True by done.
      exists ids. split; [apply Sorted_merge_sort, _|done].
    + rewrite (for_each_attributes ids _
                 (λ id, (Pretty.name id, default "" (attrs !! id))))
        by first [done | intros id n K w0 Hid Hw0;
          apply known_attribute_reliable; [|done];
          apply Hr; rewrite Hperm in Hid;
          apply list_elem_of_fmap in Hid as [[id' v] [-> Hin]];
          apply elem_of_map_to_list in Hin; by eexists].
      unfold mret, M_ret. rewrite open_tag_lead_length. reflexivity.
    + simpl. rewrite app_assoc'. done.
  - rewrite merge_known_in_range by by apply range_int_in_range.
    rewrite bind_checked_Some. cbn [fst snd]. rewrite merge_custom_spec.
    cbn [fst snd app].
    set (nl := (λ kv : Z * string, (Pretty.name kv.1, kv.2))
               <$> range_int ord attrs).
    set (cl := range_str ord customAttrs).
    set (M := foldl _ (foldl _ ∅ nl) cl).
    set (ks := sort_Strings _).
    assert (M = customAttrs ∪ Pretty.named attrs) as HM.
    { unfold M. rewrite !foldl_insert_union.
      - rewrite (right_id_L ∅ (∪)). f_equal.
        + unfold cl. rewrite <-(list_to_map_to_list customAttrs) at 2.
          apply list_to_map_proper; [by apply range_str_NoDup|].
          by destruct Hv as [_ ->].
        + unfold Pretty.named, nl. apply list_to_map_proper.
          * apply names_NoDup; [by apply range_int_in_range|].
            by apply range_int_NoDup.
          * by destruct Hv as [-> _].
      - apply names_NoDup; [by apply range_int_in_range|].
        by apply range_int_NoDup.
      - by apply range_str_NoDup. }
    assert (ks ≡ₚ (Pretty.name <$> (map_to_list attrs).*1)
                  ++ (map_to_list customAttrs).*1) as Hks.
    { unfold ks, sort_Strings. rewrite merge_sort_Permutation. unfold cl.
      destruct Hv as [-> ->]. done. }
    eexists ((λ k, (k, default "" (M !! k))) <$> ks), _.
    split; [|split].
    + rewrite decide_False by by rewrite <-map_size_empty_iff.
      assert (((λ k, (k, default "" (M !! k))) <$> ks).*1 = ks) as Hfst.
      { rewrite <-list_fmap_compose. apply list_fmap_id. }
      split; [|split].
      * rewrite Hfst. apply Sorted_merge_sort, _.
      * by rewrite Hfst.
      * apply Forall_fmap, Forall_forall. intros k Hk. simpl.
        rewrite <-HM.
        assert (is_Some (M !! k)) as [v ->]; [|done].
        rewrite HM, Hks in *. apply lookup_union_is_Some.
        apply elem_of_app in Hk as [Hk|Hk]; [right|left].
        -- unfold Pretty.named.
           destruct (list_to_map _ !! k) eqn:Hn; [done|].
           apply not_elem_of_list_to_map_2 in Hn. destruct Hn.
           rewrite <-list_fmap_compose.
           by rewrite <-list_fmap_compose in Hk.
        -- apply list_elem_of_fmap in Hk as [[k' v] [-> Hin]].
           apply elem_of_map_to_list in Hin. by eexists.
    + rewrite (for_each_attributes ks _ (λ k, (k, default "" (M !! k))))
        by first [done | intros k n K w0 Hk Hw0;
                         by apply attribute_reliable].
      unfold mret, M_ret. rewrite open_tag_lead_length. reflexivity.
    + simpl. rewrite app_assoc'. done.
Qed.

(** The order of the sorted opening tag.  Pretty rendering writes the
    attributes of a tag in an order that does not depend on the order in
    which the maps are iterated: any two iteration orders give the same
    result on every sink, so two renders of the same state are
    byte-identical.  On a sink that accepts every write the output is the
    tag name followed, without custom attributes, by the known attributes
    sorted by the integer value of their identifier, and otherwise by the
    names of the known attributes together with the names of the custom
    attributes, sorted by name, each name with the value it has in the map
    merged by name. *)
Theorem writeOpenTagLeadSorted_deterministic (ord1 ord2 : MapOrder)
    (attrs : gmap Z string) (customAttrs : gmap string string)
    (tagStr : string) (w : Writer) :
  valid_order ord1 → valid_order ord2 →
  writeOpenTagLeadSorted ord1 attrs customAttrs tagStr w
  = writeOpenTagLeadSorted ord2 attrs customAttrs tagStr w
  ∧ (Pretty.known_in_range attrs → reliable w →
     ∃ kvs w',
       Pretty.sorted_attributes attrs customAttrs kvs
       ∧ writeOpenTagLeadSorted ord1 attrs customAttrs tagStr w
         = Ret ((String.length (Pretty.open_tag_lead tagStr kvs), None), w')
       ∧ written w' = written w +:+ Pretty.open_tag_lead tagStr kvs).
Proof.
  intros Hv1 Hv2. split.
  - by apply writeOpenTagLeadSorted_order.
  - intros Hr Hw. by apply writeOpenTagLeadSorted_reliable.
Qed.

Lemma known_in_range_keys (attrs : gmap Z string) :
  forallb (λ kv : Z * string, (0 <=? kv.1)%Z && (kv.1 <? kAttrMAXCOUNT)%Z)
    (map_to_list attrs) = true →
  Pretty.known_in_range attrs.
Proof.
  rewrite forallb_forall. intros Hall id [v Hid].
  apply elem_of_map_to_list, list_elem_of_In, Hall in Hid. simpl in Hid.
  apply andb_prop in Hid as [?%Z.leb_le ?%Z.ltb_lt]. done.
Qed.

Lemma canonical_order_valid : valid_order canonical_order.
Proof. split; intros m; reflexivity. Qed.

Lemma reversed_order_valid : valid_order reversed_order.
Proof. split; intros m; simpl; apply reverse_Permutation. Qed.

Lemma writeOpenTagLeadSorted_deterministic_witness :
  writeOpenTagLeadSorted canonical_order
    {[ kAttrId := "x"; kAttrClass := "c" ]} {[ "data" := "1" ]} "div"
    bytes_Buffer
  = writeOpenTagLeadSorted reversed_order
      {[ kAttrId := "x"; kAttrClass := "c" ]} {[ "data" := "1" ]} "div"
      bytes_Buffer
  ∧ ∃ kvs w',
      Pretty.sorted_attributes {[ kAttrId := "x"; kAttrClass := "c" ]}
        {[ "data" := "1" ]} kvs
      ∧ writeOpenTagLeadSorted canonical_order
          {[ kAttrId := "x"; kAttrClass := "c" ]} {[ "data" := "1" ]} "div"
          bytes_Buffer
        = Ret ((String.length (Pretty.open_tag_lead "div" kvs), None), w')
      ∧ written w' = written bytes_Buffer +:+ Pretty.open_tag_lead "div" kvs.
Proof.
  destruct (writeOpenTagLeadSorted_deterministic canonical_order
              reversed_order {[ kAttrId := "x"; kAttrClass := "c" ]}
              {[ "data" := "1" ]} "div" bytes_Buffer
              canonical_order_valid reversed_order_valid) as [Hsame Hout].
  split; [exact Hsame|]. apply Hout.
  - apply known_in_range_keys. vm_compute. reflexivity.
  - intros i s. reflexivity.
Defined.

(** C6 (fails on the code).  A tag with the known attribute id set to x
    and a custom attribute of the same name set to y.  The two loops of
    [writeOpenTagLeadSorted] put both into the map merged by name, where the
    custom value replaces the known one, and append the name to the keys
    once each: the sorted opening tag carries the name twice, both times
    with the custom value, and the known value is lost.  This is the
    rendering of no list that holds every name of the merged map once, and
    it is not what [writeOpenTagLead] writes for the same tag either, which
    is each of the two attributes with its own value. *)
Theorem shared_name_is_written_twice :
  (∃ w',
     writeOpenTagLeadSorted canonical_order {[ kAttrId := "x" ]}
       {[ "id" := "y" ]} "div" bytes_Buffer
     = Ret ((18, None), w')
     ∧ written w'
       = "<div id=" +:+ String dquote "y" +:+ String dquote " id="
         +:+ String dquote "y" +:+ String dquote ""
     ∧ ∀ kvs,
         Pretty.one_set_by_name {[ kAttrId := "x" ]} {[ "id" := "y" ]} kvs →
         written w' ≠ Pretty.open_tag_lead "div" kvs)
  ∧ (∃ w',
       writeOpenTagLead canonical_order {[ kAttrId := "x" ]}
         {[ "id" := "y" ]} "div" bytes_Buffer
       = Ret ((18, None), w')
       ∧ written w'
         = "<div id=" +:+ String dquote "x" +:+ String dquote " id="
           +:+ String dquote "y" +:+ String dquote "").
Proof.
  split.
  - eexists. split; [vm_compute; reflexivity|]. split; [reflexivity|].
    intros kvs [_ Hperm].
    assert (map_to_list (({[ "id" := "y" ]} : gmap string string)
                         ∪ Pretty.named {[ kAttrId := "x" ]})
            = [("id", "y")]) as Hmerged by (vm_compute; reflexivity).
    rewrite Hmerged in Hperm.
    apply Permutation_singleton_r in Hperm as ->.
    vm_compute. discriminate.
  - eexists. split; vm_compute; reflexivity.
Qed.

(** ** Rendering depends on the reachable objects only *)

Lemma same_shape_refl b : same_shape b b.
Proof. by repeat split. Qed.

Lemma same_shape_trans b1 b2 b3 :
  same_shape b1 b2 → same_shape b2 b3 → same_shape b1 b3.
Proof.
  intros (?&?&?&?&?&?) (?&?&?&?&?&?). repeat split; congruence.
Qed.

Lemma inH_bind {A B} (m : M Heap A) (k : A → M Heap B) s :
  inH (m ≫= k) s = (inH m ≫= λ a, inH (k a)) s.
Proof.
  unfold inH, mbind, M_bind. destruct s as [h w]. simpl.
  by destruct (m h) as [[a h']| |].
Qed.

Section frame.
Context (ord : MapOrder) (h0 : Heap) (Hclosed : closed h0).

Lemma sim_ext {A} (Q : A → Prop) m m' :
  (∀ s, m s = m' s) → sim h0 Q m → sim h0 Q m'.
Proof. intros Hext Hm h1 h2 w Hf. rewrite <-!Hext. by apply Hm. Qed.

Lemma sim_weaken {A} (Q Q' : A → Prop) m :
  (∀ a, Q a → Q' a) → sim h0 Q m → sim h0 Q' m.
Proof.
  intros HQ Hm h1 h2 w Hf. specialize (Hm h1 h2 w Hf). unfold rel_outcome in *.
  destruct (m (h1, w)) as [[a1 s1]| |], (m (h2, w)) as [[a2 s2]| |]; try done.
  destruct Hm as (Ha & Hq & Hw & Hf'). auto.
Qed.

Lemma sim_ret {A} (Q : A → Prop) a : Q a → sim h0 Q (mret a).
Proof. intros HQ h1 h2 w Hf. simpl. done. Qed.

Lemma sim_panic {A} (Q : A → Prop) : sim h0 Q panic.
Proof. intros h1 h2 w Hf. done. Qed.

Lemma sim_out_of_fuel {A} (Q : A → Prop) : sim h0 Q (λ _, OutOfFuel).
Proof. intros h1 h2 w Hf. done. Qed.

Lemma sim_checked {A} (Q : A → Prop) o :
  (∀ a, o = Some a → Q a) → sim h0 Q (checked o).
Proof. intros HQ. destruct o; [apply sim_ret; auto|apply sim_panic]. Qed.

Lemma sim_checked_True {A} (o : option A) : sim h0 (λ _, True) (checked o).
Proof. by apply sim_checked. Qed.

Lemma sim_bind {A B} (Q : A → Prop) (Q' : B → Prop) m k :
  sim h0 Q m → (∀ a, Q a → sim h0 Q' (k a)) → sim h0 Q' (m ≫= k).
Proof.
  intros Hm Hk h1 h2 w Hf. specialize (Hm h1 h2 w Hf).
  unfold mbind, M_bind, rel_outcome in *.
  destruct (m (h1, w)) as [[a1 [h1' w1]]| |],
           (m (h2, w)) as [[a2 [h2' w2]]| |]; try done.
  simpl in Hm. destruct Hm as (<- & HQ & <- & Hf'). by apply Hk.
Qed.

Lemma sim_tally (Q : result → Prop) n m k :
  sim h0 (λ _, True) m → (∀ n', sim h0 Q (k n')) → (∀ e, Q (n, Some e)) →
  sim h0 Q (tally n m k).
Proof.
  intros Hm Hk HQ h1 h2 w Hf. specialize (Hm h1 h2 w Hf).
  unfold tally, rel_outcome in *.
  destruct (m (h1, w)) as [[[c1 e1] [h1' w1]]| |],
           (m (h2, w)) as [[[c2 e2] [h2' w2]]| |]; try done.
  simpl in Hm. destruct Hm as ([= <- <-] & _ & <- & Hf').
  destruct e1; [by simpl|by apply Hk].
Qed.

Lemma sim_for_each {X} (Q : result → Prop) (xs : list X) body n k :
  (∀ x n k, x ∈ xs → (∀ n', sim h0 Q (k n')) → sim h0 Q (body x n k)) →
  (∀ n', sim h0 Q (k n')) →
  sim h0 Q (for_each xs body n k).
Proof.
  revert n k. induction xs as [|x xs IH]; intros n k Hbody Hk; simpl.
  - apply Hk.
  - apply Hbody; [by left|]. intros n'. apply IH; [|done].
    intros y n'' k' Hy. apply Hbody. by right.
Qed.

Lemma sim_inW {A} (m : M Writer A) : sim h0 (λ _, True) (inW m).
Proof.
  intros h1 h2 w Hf. unfold inW. simpl. by destruct (m w) as [[a w']| |].
Qed.

Lemma sim_load_tag l :
  is_Some (tags h0 !! l) →
  sim h0 (λ b, ∃ b0, tags h0 !! l = Some b0 ∧ same_shape b0 b)
    (inH (load_tag l)).
Proof.
  intros [b0 Hb0] h1 h2 w Hf. pose proof Hf as (Hc1 & Hc2 & Hag).
  destruct Hc1 as (Ht1 & _). destruct (Ht1 l b0 Hb0) as (b1 & Hb1 & Hsh).
  unfold inH, load_tag. simpl. rewrite <-Hag by by eexists.
  rewrite Hb1. simpl. eauto 10.
Qed.

Lemma sim_load_text l :
  is_Some (texts h0 !! l) →
  sim h0 (λ _, True) (inH (load_text l)).
Proof.
  intros [tx Htx] h1 h2 w Hf. pose proof Hf as (Hc1 & Hc2 & Hag).
  destruct Hc1 as (_ & Hx1 & _), Hc2 as (_ & Hx2 & _).
  unfold inH, load_text. simpl.
  rewrite (lookup_weaken _ _ _ _ Htx Hx1), (lookup_weaken _ _ _ _ Htx Hx2).
  done.
Qed.

Lemma sim_load_textVar l :
  is_Some (textVars h0 !! l) →
  sim h0 (λ _, True) (inH (load_textVar l)).
Proof.
  intros [tv Htv] h1 h2 w Hf. pose proof Hf as (Hc1 & Hc2 & Hag).
  destruct Hc1 as (_ & _ & Hx1 & _), Hc2 as (_ & _ & Hx2 & _).
  unfold inH, load_textVar. simpl.
  rewrite (lookup_weaken _ _ _ _ Htv Hx1), (lookup_weaken _ _ _ _ Htv Hx2).
  done.
Qed.

Lemma intMap_of_covers h r :
  covers h0 h → (∀ a, r = Some a → is_Some (intMaps h0 !! a)) →
  intMap_of h r = intMap_of h0 r.
Proof.
  intros (_ & _ & _ & Hi & _) Hr. unfold intMap_of.
  destruct r as [a|]; [|done]. destruct (Hr a eq_refl) as [m Hm]. simpl.
  by rewrite Hm, (lookup_weaken _ _ _ _ Hm Hi).
Qed.

Lemma strMap_of_covers h r :
  covers h0 h → (∀ c, r = Some c → is_Some (strMaps h0 !! c)) →
  strMap_of h r = strMap_of h0 r.
Proof.
  intros (_ & _ & _ & _ & Hs) Hr. unfold strMap_of.
  destruct r as [c|]; [|done]. destruct (Hr c eq_refl) as [m Hm]. simpl.
  by rewrite Hm, (lookup_weaken _ _ _ _ Hm Hs).
Qed.

Lemma sim_read_intMap r :
  (∀ a, r = Some a → is_Some (intMaps h0 !! a)) →
  sim h0 (λ _, True) (inH (read_intMap r)).
Proof.
  intros Hr h1 h2 w Hf. pose proof Hf as (Hc1 & Hc2 & Hag).
  unfold inH, read_intMap. simpl.
  rewrite (intMap_of_covers h1 r), (intMap_of_covers h2 r) by done. done.
Qed.

Lemma sim_read_strMap r :
  (∀ c, r = Some c → is_Some (strMaps h0 !! c)) →
  sim h0 (λ _, True) (inH (read_strMap r)).
Proof.
  intros Hr h1 h2 w Hf. pose proof Hf as (Hc1 & Hc2 & Hag).
  unfold inH, read_strMap. simpl.
  rewrite (strMap_of_covers h1 r), (strMap_of_covers h2 r) by done. done.
Qed.

Lemma sim_inH_bind {A B} (Q : A → Prop) (Q' : B → Prop) (m : M Heap A) k :
  sim h0 Q (inH m) → (∀ a, Q a → sim h0 Q' (inH (k a))) →
  sim h0 Q' (inH (m ≫= k)).
Proof.
  intros Hm Hk. eapply sim_ext; [intros s; symmetry; apply inH_bind|].
  by eapply sim_bind.
Qed.

Lemma sim_inH_ret {A} (Q : A → Prop) a : Q a → sim h0 Q (inH (mret a)).
Proof. intros HQ h1 h2 w Hf. simpl. done. Qed.

Lemma sim_inH_pure {A} (o : outcome A) : sim h0 (λ _, True) (inH (pure o)).
Proof. intros h1 h2 w Hf. unfold inH, pure. simpl. by destruct o. Qed.

Lemma sim_inH_checked {A} (o : option A) :
  sim h0 (λ _, True) (inH (checked o)).
Proof. intros h1 h2 w Hf. unfold inH, checked. simpl. by destruct o. Qed.

Lemma closed_attrs l b0 b :
  tags h0 !! l = Some b0 → same_shape b0 b →
  (∀ a, baseTag.attrs b = Some a → is_Some (intMaps h0 !! a))
  ∧ (∀ c, baseTag.customAttrs b = Some c → is_Some (strMaps h0 !! c))
  ∧ Forall (allocated h0) (baseTag.children b).
Proof.
  intros Hb0 (_ & Ha & Hc & Hch & _). destruct (Hclosed l b0 Hb0) as (?&?&?).
  rewrite <-Ha, <-Hc, <-Hch. done.
Qed.

Lemma sim_update_tag l f :
  is_Some (tags h0 !! l) →
  (∀ b0 b, same_shape b0 b → same_shape b0 (f b)) →
  sim h0 (λ _, True) (inH (update_tag l f)).
Proof.
  intros [b0 Hb0] Hf h1 h2 w Hfr. pose proof Hfr as (Hc1 & Hc2 & Hag).
  destruct (proj1 Hc1 l b0 Hb0) as (b1 & Hb1 & Hsh).
  assert (tags h2 !! l = Some b1) as Hb2 by (by rewrite <-Hag by by eexists).
  unfold inH, update_tag, mbind, M_bind, load_tag, store_tag. simpl.
  rewrite Hb1, Hb2. simpl. repeat split; try done.
  - intros l' b0' Hl'. simpl. destruct (decide (l' = l)) as [->|Hne].
    + rewrite lookup_insert_eq. simplify_eq. eauto.
    + rewrite lookup_insert_ne by done. by apply Hc1.
  - apply Hc1.
  - apply Hc1.
  - apply Hc1.
  - apply Hc1.
  - intros l' b0' Hl'. simpl. destruct (decide (l' = l)) as [->|Hne].
    + rewrite lookup_insert_eq. simplify_eq. eauto.
    + rewrite lookup_insert_ne by done. by apply Hc2.
  - apply Hc2.
  - apply Hc2.
  - apply Hc2.
  - apply Hc2.
  - intros l' Hl'. simpl. destruct (decide (l' = l)) as [->|Hne].
    + by rewrite !lookup_insert_eq.
    + rewrite !lookup_insert_ne by done. by apply Hag.
Qed.

Lemma sim_refresh_cache renderCacheOpen l tagStr :
  is_Some (tags h0 !! l) →
  sim h0 (λ _, True) (inH (refresh_cache renderCacheOpen l tagStr)).
Proof.
  intros Hl. unfold refresh_cache.
  eapply sim_inH_bind; [by apply sim_load_tag|].
  intros b (b0 & Hb0 & Hsh). simpl.
  destruct (closed_attrs l b0 b Hb0 Hsh) as (Ha & Hc & _).
  eapply sim_inH_bind; [by apply sim_read_intMap|]. intros attrs _.
  eapply sim_inH_bind; [by apply sim_read_strMap|]. intros customAttrs _.
  eapply sim_inH_bind; [apply sim_inH_pure|]. intros r _.
  eapply sim_inH_bind.
  { apply sim_update_tag; [done|]. by intros ?? (?&?&?&?&?&?). }
  intros _ _. destruct r.2.
  - by apply sim_inH_ret.
  - eapply sim_inH_bind.
    { apply sim_update_tag; [done|]. by intros ?? (?&?&?&?&?&?). }
    intros _ _. by apply sim_inH_ret.
Qed.

Lemma sim_isHidden c :
  allocated h0 c → sim h0 (λ _, True) (inH (tagWriter_isHidden c)).
Proof.
  intros Hc. destruct c as [ty l|l|l]; simpl.
  - unfold isHidden. eapply sim_inH_bind; [by apply sim_load_tag|].
    intros b _. by apply sim_inH_ret.
  - by apply sim_inH_ret.
  - by apply sim_inH_ret.
Qed.

(** The rules above, for goals about computations that return a count. *)
Ltac sim_step :=
  first
    [ apply sim_tally; [first [apply sim_inW|idtac]| |done]
    | apply sim_ret; done
    | apply sim_inW ].

Lemma sim_children_write (childWrite : tagWriter → M St result) children n k :
  Forall (allocated h0) children →
  (∀ c, allocated h0 c → sim h0 (λ _, True) (childWrite c)) →
  (∀ n', sim h0 (λ _, True) (k n')) →
  sim h0 (λ _, True)
    (for_each children (λ childTag n continue,
       tally n (childWrite childTag) (λ n, continue n)) n k).
Proof.
  intros Hch Hcw Hk. apply sim_for_each; [|done].
  intros c n' k' Hc Hk'. rewrite Forall_forall in Hch.
  apply sim_tally; [by apply Hcw, Hch|done|done].
Qed.

Lemma sim_baseTag_write childWrite l :
  is_Some (tags h0 !! l) →
  (∀ c, allocated h0 c → sim h0 (λ _, True) (childWrite c)) →
  sim h0 (λ _, True) (baseTag_write ord childWrite l).
Proof.
  intros Hl Hcw. unfold baseTag_write.
  eapply sim_bind; [by apply sim_load_tag|]. intros b _.
  destruct (baseTag.hidden b); [by apply sim_ret|].
  eapply sim_bind; [apply sim_checked_True|]. intros tagStr _.
  eapply sim_bind.
  { instantiate (1 := λ _, True). destruct (baseTag.isCacheClean b).
    - by apply sim_ret.
    - by apply sim_refresh_cache. }
  intros [err|] _; [by apply sim_ret|].
  eapply sim_bind; [by apply sim_load_tag|]. intros b' (b0 & Hb0 & Hsh).
  destruct (closed_attrs l b0 b' Hb0 Hsh) as (_ & _ & Hch).
  sim_step. intros n1.
  apply sim_children_write; [done..|].
  intros n2. sim_step. intros n3. sim_step. intros n4. sim_step.
  intros n5. sim_step.
Qed.

Lemma sim_singleTag_write l :
  is_Some (tags h0 !! l) →
  sim h0 (λ _, True) (singleTag_write ord l).
Proof.
  intros Hl. unfold singleTag_write.
  eapply sim_bind; [by apply sim_load_tag|]. intros b _.
  eapply sim_bind; [apply sim_checked_True|]. intros tagStr _.
  eapply sim_bind.
  { instantiate (1 := λ _, True). destruct (baseTag.isCacheClean b).
    - by apply sim_ret.
    - by apply sim_refresh_cache. }
  intros [err|] _; [by apply sim_ret|].
  eapply sim_bind; [by apply sim_load_tag|]. intros b' _. apply sim_inW.
Qed.

Lemma sim_commentTag_write childWrite l :
  is_Some (tags h0 !! l) →
  (∀ c, allocated h0 c → sim h0 (λ _, True) (childWrite c)) →
  sim h0 (λ _, True) (commentTag_write childWrite l).
Proof.
  intros Hl Hcw. unfold commentTag_write.
  eapply sim_bind; [by apply sim_load_tag|]. intros b (b0 & Hb0 & Hsh).
  destruct (closed_attrs l b0 b Hb0 Hsh) as (_ & _ & Hch).
  sim_step. intros n1. apply sim_children_write; [done..|].
  intros n2. sim_step. intros n3. sim_step.
Qed.

Lemma sim_htmlTag_write childWrite l :
  is_Some (tags h0 !! l) →
  (∀ c, allocated h0 c → sim h0 (λ _, True) (childWrite c)) →
  sim h0 (λ _, True) (htmlTag_write ord childWrite l).
Proof.
  intros Hl Hcw. unfold htmlTag_write.
  sim_step. intros n1.
  apply sim_tally; [by apply sim_baseTag_write| |done].
  intros n2. sim_step.
Qed.

Lemma sim_nullTag_write childWrite l :
  is_Some (tags h0 !! l) →
  (∀ c, allocated h0 c → sim h0 (λ _, True) (childWrite c)) →
  sim h0 (λ _, True) (nullTag_write childWrite l).
Proof.
  intros Hl Hcw. unfold nullTag_write.
  eapply sim_bind; [by apply sim_load_tag|]. intros b (b0 & Hb0 & Hsh).
  destruct (closed_attrs l b0 b Hb0 Hsh) as (_ & _ & Hch).
  apply sim_children_write; [done..|]. intros n2. sim_step.
Qed.

(** Compact rendering cannot tell two framed heaps apart. *)
Lemma sim_write fuel env w :
  allocated h0 w → sim h0 (λ _, True) (write ord fuel env w).
Proof.
  revert w. induction fuel as [|fuel IH]; intros w Hw.
  { apply sim_out_of_fuel. }
  destruct w as [ty l|l|l]; simpl in *.
  - destruct ty.
    + by apply sim_baseTag_write.
    + by apply sim_baseTag_write.
    + by apply sim_commentTag_write.
    + by apply sim_htmlTag_write.
    + by apply sim_singleTag_write.
    + by apply sim_nullTag_write.
    + by apply sim_baseTag_write.
    + by apply sim_singleTag_write.
  - eapply sim_bind; [by apply sim_load_text|]. intros tx _. apply sim_inW.
  - eapply sim_bind; [by apply sim_load_textVar|]. intros tv _. apply sim_inW.
Qed.

Lemma sim_baseTag_writePretty childWritePretty l indent :
  is_Some (tags h0 !! l) →
  (∀ c i, allocated h0 c → sim h0 (λ _, True) (childWritePretty c i)) →
  sim h0 (λ _, True) (baseTag_writePretty ord childWritePretty l indent).
Proof.
  intros Hl Hcw. unfold baseTag_writePretty.
  eapply sim_bind; [by apply sim_load_tag|]. intros b (b0 & Hb0 & Hsh).
  destruct (closed_attrs l b0 b Hb0 Hsh) as (Ha & Hc & Hch).
  destruct (baseTag.hidden b); [by apply sim_ret|].
  eapply sim_bind; [apply sim_checked_True|]. intros tagStr _.
  sim_step. intros n1.
  eapply sim_bind; [by apply sim_read_intMap|]. intros attrs _.
  eapply sim_bind; [by apply sim_read_strMap|]. intros customAttrs _.
  sim_step. intros n2. sim_step. intros n3.
  apply sim_for_each.
  - intros c n k Hc' Hk. rewrite Forall_forall in Hch.
    eapply sim_bind; [by apply sim_isHidden, Hch|]. intros [|] _; [done|].
    sim_step. intros n4.
    apply sim_tally; [by apply Hcw, Hch|done|done].
  - intros n4. destruct (decide (0 < length (baseTag.children b))).
    + sim_step. intros n5. sim_step. intros n6. sim_step. intros n7.
      sim_step.
    + sim_step. intros n5. sim_step.
Qed.

Lemma sim_singleTag_writePretty l indent :
  is_Some (tags h0 !! l) →
  sim h0 (λ _, True) (singleTag_writePretty ord l indent).
Proof.
  intros Hl. unfold singleTag_writePretty.
  eapply sim_bind; [by apply sim_load_tag|]. intros b (b0 & Hb0 & Hsh).
  destruct (closed_attrs l b0 b Hb0 Hsh) as (Ha & Hc & Hch).
  sim_step. intros n1.
  eapply sim_bind; [apply sim_checked_True|]. intros tagStr _.
  eapply sim_bind; [by apply sim_read_intMap|]. intros attrs _.
  eapply sim_bind; [by apply sim_read_strMap|]. intros customAttrs _.
  sim_step. intros n2. sim_step. intros n3. sim_step.
Qed.

Lemma sim_commentTag_writePretty childWritePretty l indent :
  is_Some (tags h0 !! l) →
  (∀ c i, allocated h0 c → sim h0 (λ _, True) (childWritePretty c i)) →
  sim h0 (λ _, True) (commentTag_writePretty childWritePretty l indent).
Proof.
  intros Hl Hcw. unfold commentTag_writePretty.
  eapply sim_bind; [by apply sim_load_tag|]. intros b (b0 & Hb0 & Hsh).
  destruct (closed_attrs l b0 b Hb0 Hsh) as (Ha & Hc & Hch).
  sim_step. intros n1. sim_step. intros n2.
  apply sim_for_each.
  - intros c n k Hc' Hk. rewrite Forall_forall in Hch.
    sim_step. intros n4.
    apply sim_tally; [by apply Hcw, Hch|done|done].
  - intros n4. destruct (decide (0 < length (baseTag.children b))).
    + sim_step. intros n5. sim_step. intros n6. sim_step. intros n7.
      sim_step.
    + sim_step. intros n5. sim_step. intros n6. sim_step.
Qed.

Lemma sim_htmlTag_writePretty childWritePretty l indent :
  is_Some (tags h0 !! l) →
  (∀ c i, allocated h0 c → sim h0 (λ _, True) (childWritePretty c i)) →
  sim h0 (λ _, True) (htmlTag_writePretty ord childWritePretty l indent).
Proof.
  intros Hl Hcw. unfold htmlTag_writePretty.
  sim_step. intros n1. sim_step. intros n2.
  apply sim_tally; [by apply sim_baseTag_writePretty| |done].
  intros n3. sim_step.
Qed.

Lemma sim_nullTag_writePretty childWritePretty l indent :
  is_Some (tags h0 !! l) →
  (∀ c i, allocated h0 c → sim h0 (λ _, True) (childWritePretty c i)) →
  sim h0 (λ _, True) (nullTag_writePretty childWritePretty l indent).
Proof.
  intros Hl Hcw. unfold nullTag_writePretty.
  eapply sim_bind; [by apply sim_load_tag|]. intros b (b0 & Hb0 & Hsh).
  destruct (closed_attrs l b0 b Hb0 Hsh) as (Ha & Hc & Hch).
  apply sim_for_each.
  - intros [ii c] n k Hc' Hk. rewrite Forall_forall in Hch. simpl.
    apply elem_of_zip_r in Hc'.
    apply sim_tally; [by apply Hcw, Hch| |done].
    intros n1. destruct (decide (ii = _)); [done|].
    sim_step. done.
  - intros n1. sim_step.
Qed.

(** Pretty rendering cannot tell two framed heaps apart. *)
Lemma sim_writePretty fuel env w indent :
  allocated h0 w → sim h0 (λ _, True) (writePretty ord fuel env w indent).
Proof.
  revert w indent. induction fuel as [|fuel IH]; intros w indent Hw.
  { apply sim_out_of_fuel. }
  destruct w as [ty l|l|l]; simpl in *.
  - destruct ty.
    + by apply sim_baseTag_writePretty.
    + by apply sim_baseTag_writePretty.
    + by apply sim_commentTag_writePretty.
    + by apply sim_htmlTag_writePretty.
    + by apply sim_singleTag_writePretty.
    + by apply sim_nullTag_writePretty.
    + by apply sim_baseTag_writePretty.
    + by apply sim_singleTag_writePretty.
  - eapply sim_bind; [by apply sim_load_text|]. intros tx _. apply sim_inW.
  - eapply sim_bind; [by apply sim_load_textVar|]. intros tv _. apply sim_inW.
Qed.

End frame.

Lemma rel_outcome_observe {A} h0 (Q : A → Prop) o1 o2 :
  rel_outcome h0 Q o1 o2 → observe o1 = observe o2.
Proof.
  unfold rel_outcome, observe.
  destruct o1 as [[a1 s1]| |], o2 as [[a2 s2]| |]; try done.
  by intros (-> & _ & -> & _).
Qed.

(** ** Mutations of a tag change the tag and its own maps only *)

Lemma differs_at_refl l a c h : differs_at l a c h h.
Proof. by repeat split. Qed.

Lemma differs_at_trans l a c h1 h2 h3 :
  differs_at l a c h1 h2 → differs_at l a c h2 h3 → differs_at l a c h1 h3.
Proof.
  intros (Ht & Hx & Hv & Hi & Hs) (Ht' & Hx' & Hv' & Hi' & Hs').
  repeat split; try congruence.
  - intros l0 Hl0. by rewrite Ht', Ht.
  - intros a0 Ha0. by rewrite Hi', Hi.
  - intros c0 Hc0. by rewrite Hs', Hs.
Qed.

Section touches.
Context (l a c : loc).

Lemma touches_ret {A} (Q : A → Prop) x : Q x → touches l a c Q (mret x).
Proof.
  intros HQ h r h' Ho [= <- <-]. split; [done|]. split; [|done].
  apply differs_at_refl.
Qed.

Lemma touches_bind {A B} (Q : A → Prop) (Q' : B → Prop) (m : M Heap A) k :
  touches l a c Q m → (∀ x, Q x → touches l a c Q' (k x)) →
  touches l a c Q' (m ≫= k).
Proof.
  intros Hm Hk h r h' Ho. unfold mbind, M_bind.
  destruct (m h) as [[x h1]| |] eqn:Hmh; [|done..].
  intros Hkx. destruct (Hm h x h1 Ho Hmh) as (HQ & Hd & Ho1).
  destruct (Hk x HQ h1 r h' Ho1 Hkx) as (HQ' & Hd' & Ho').
  split; [done|]. split; [|done]. by eapply differs_at_trans.
Qed.

Lemma touches_load_tag :
  touches l a c
    (λ b, baseTag.attrs b = Some a ∧ baseTag.customAttrs b = Some c)
    (load_tag l).
Proof.
  intros h r h' Ho. pose proof Ho as (b & Hb & Ha & Hc).
  unfold load_tag. rewrite Hb. intros [= <- <-].
  split; [done|]. split; [apply differs_at_refl|done].
Qed.

Lemma touches_read_intMap r :
  touches l a c (λ _, True) (read_intMap r).
Proof.
  intros h x h' Ho [= <- <-]. split; [done|].
  split; [apply differs_at_refl|done].
Qed.

Lemma touches_update_tag f :
  (∀ b, baseTag.attrs (f b) = baseTag.attrs b
        ∧ baseTag.customAttrs (f b) = baseTag.customAttrs b) →
  touches l a c (λ _, True) (update_tag l f).
Proof.
  intros Hf h r h' (b & Hb & Ha & Hc).
  unfold update_tag, mbind, M_bind, load_tag, store_tag. rewrite Hb.
  intros [= <- <-]. split; [done|]. split.
  - repeat split; try done. intros l0 Hl0. simpl.
    by rewrite lookup_insert_ne.
  - exists (f b). simpl. rewrite lookup_insert_eq.
    destruct (Hf b) as [-> ->]. done.
Qed.

Lemma touches_intMap_assign k v :
  touches l a c (λ _, True) (intMap_assign (Some a) k v).
Proof.
  intros h r h' Ho [= <- <-]. split; [done|]. split.
  - repeat split; try done. intros a0 Ha0. simpl.
    by rewrite lookup_insert_ne.
  - done.
Qed.

Lemma touches_intMap_delete k :
  touches l a c (λ _, True) (intMap_delete (Some a) k).
Proof.
  intros h r h' Ho [= <- <-]. split; [done|]. split.
  - repeat split; try done. intros a0 Ha0. simpl.
    by rewrite lookup_insert_ne.
  - done.
Qed.

Lemma touches_strMap_assign k v :
  touches l a c (λ _, True) (strMap_assign (Some c) k v).
Proof.
  intros h r h' Ho [= <- <-]. split; [done|]. split.
  - repeat split; try done. intros c0 Hc0. simpl.
    by rewrite lookup_insert_ne.
  - done.
Qed.

Lemma touches_strMap_delete k :
  touches l a c (λ _, True) (strMap_delete (Some c) k).
Proof.
  intros h r h' Ho [= <- <-]. split; [done|]. split.
  - repeat split; try done. intros c0 Hc0. simpl.
    by rewrite lookup_insert_ne.
  - done.
Qed.

Lemma touches_for_each_ {X} (xs : list X) body :
  (∀ x, touches l a c (λ _, True) (body x)) →
  touches l a c (λ _, True) (for_each_ xs body).
Proof.
  intros Hbody. induction xs as [|x xs IH]; simpl.
  - by apply touches_ret.
  - eapply touches_bind; [apply Hbody|]. by intros _ _.
Qed.

Lemma touches_invalidate :
  touches l a c (λ _, True) (update_tag l (baseTag.with_isCacheClean false)).
Proof. apply touches_update_tag. by intros b. Qed.

(** Every mutation of the attributes of the tag at [l] changes that tag and
    its two maps at most. *)
Lemma touches_mutate m : touches l a c (λ _, True) (mutate l m).
Proof.
  destruct m as [keyId value|key value|attrs|key|keys|classes|classes]; simpl.
  - unfold setAttr. eapply touches_bind; [apply touches_load_tag|].
    intros b [Ha Hc]. rewrite ?Ha, ?Hc.
    eapply touches_bind; [|intros; apply touches_invalidate].
    destruct (decide _);
      [apply touches_intMap_delete|apply touches_intMap_assign].
  - unfold SetAttribute. eapply touches_bind; [apply touches_load_tag|].
    intros b [Ha Hc]. rewrite ?Ha, ?Hc.
    eapply touches_bind; [|intros; apply touches_invalidate].
    apply touches_strMap_assign.
  - unfold SetAttributes. eapply touches_bind; [apply touches_load_tag|].
    intros b [Ha Hc]. rewrite ?Ha, ?Hc.
    eapply touches_bind; [|intros; apply touches_invalidate].
    apply touches_for_each_. intros kv. apply touches_strMap_assign.
  - unfold RemoveAttribute. eapply touches_bind; [apply touches_load_tag|].
    intros b [Ha Hc]. rewrite ?Ha, ?Hc.
    eapply touches_bind; [|intros; apply touches_invalidate].
    apply touches_strMap_delete.
  - unfold RemoveAttributes. eapply touches_bind; [apply touches_load_tag|].
    intros b [Ha Hc]. rewrite ?Ha, ?Hc.
    eapply touches_bind; [|intros; apply touches_invalidate].
    apply touches_for_each_. intros k. apply touches_strMap_delete.
  - unfold SetClasses. eapply touches_bind; [apply touches_load_tag|].
    intros b [Ha Hc]. rewrite ?Ha, ?Hc.
    eapply touches_bind; [|intros; apply touches_invalidate].
    destruct (decide _);
      [apply touches_intMap_delete|apply touches_intMap_assign].
  - unfold AddClasses. destruct (decide _); [by apply touches_ret|].
    eapply touches_bind; [apply touches_load_tag|].
    intros b [Ha Hc]. rewrite ?Ha, ?Hc.
    eapply touches_bind; [apply touches_read_intMap|].
    intros attrs _.
    eapply touches_bind; [|intros; apply touches_invalidate].
    destruct (decide _); apply touches_intMap_assign.
Qed.

Lemma touches_mutations ms :
  touches l a c (λ _, True) (for_each_ ms (mutate l)).
Proof. apply touches_for_each_, touches_mutate. Qed.

End touches.

(** ** Copy *)

(** With every known attribute in range, rendering the opening tag into a
    buffer neither fails nor panics. *)
Lemma writeOpenTagLead_reliable ord attrs customAttrs tagStr w :
  valid_order ord → Pretty.known_in_range attrs → reliable w →
  ∃ n s c, writeOpenTagLead ord attrs customAttrs tagStr w
           = Ret ((n, None), absorb w s c).
Proof.
  intros Hv Hr Hw. unfold writeOpenTagLead, writeRune.
  rewrite tally_write_reliable by done.
  rewrite tally_write_reliable by by apply reliable_absorb.
  rewrite absorb_absorb.
  pose proof (range_int_in_range ord attrs Hv Hr) as Hin.
  rewrite Forall_forall in Hin.
  rewrite (for_each_attributes (range_int ord attrs) _
             (λ kv, (Pretty.name kv.1, kv.2)))
    by first [by apply reliable_absorb
             | intros kv n K w0 Hkv Hw0;
               by apply known_attribute_reliable; [apply Hin|]].
  rewrite absorb_absorb.
  rewrite (for_each_attributes (range_str ord customAttrs) _ (λ kv, kv))
    by first [by apply reliable_absorb
             | intros [k v] n K w0 Hkv Hw0; by apply attribute_reliable].
  rewrite absorb_absorb. unfold mret, M_ret. eauto.
Qed.

Lemma render_open_Ret ord finish attrs customAttrs tagStr :
  valid_order ord → Pretty.known_in_range attrs →
  ∃ s, render_open ord finish attrs customAttrs tagStr = Ret (s, None).
Proof.
  intros Hv Hr. unfold render_open.
  destruct (writeOpenTagLead_reliable ord attrs customAttrs tagStr
              bytes_Buffer Hv Hr) as (n & s & c & ->); [done|].
  rewrite io_WriteString_reliable by done. eauto.
Qed.

Lemma with_tags_with_tags f g h :
  with_tags f (with_tags g h) = with_tags (f ∘ g) h.
Proof. reflexivity. Qed.

Lemma refresh_cache_Ret renderCacheOpen l tagStr h b s :
  tags h !! l = Some b →
  renderCacheOpen (intMap_of h (baseTag.attrs b))
    (strMap_of h (baseTag.customAttrs b)) tagStr = Ret (s, None) →
  refresh_cache renderCacheOpen l tagStr h
  = Ret (None,
         with_tags
           <[l := baseTag.with_isCacheClean true (baseTag.with_cacheOpen s b)]>
           h).
Proof.
  intros Hb Hr.
  unfold refresh_cache, mbind, M_bind, load_tag, read_intMap, read_strMap,
    pure, update_tag, store_tag, load_tag, mbind, M_bind.
  rewrite Hb, Hr. simpl. rewrite Hb. simpl.
  rewrite lookup_insert_eq. simpl.
  unfold with_tags. simpl. by rewrite insert_insert_eq.
Qed.

Lemma refreshed_clean s b : baseTag.isCacheClean (refreshed s b) = true.
Proof. unfold refreshed. by destruct (baseTag.isCacheClean b) eqn:?. Qed.

Lemma refreshed_shape s b : same_shape b (refreshed s b).
Proof.
  unfold refreshed. destruct (baseTag.isCacheClean b); by repeat split.
Qed.

Lemma copy_tail l h b :
  tags h !! l = Some b →
  (load_tag l ≫= λ b0,
     copyAttrs (baseTag.attrs b0) ≫= λ attrs,
       copyCustomAttrs (baseTag.customAttrs b0) ≫= λ customAttrs,
         alloc_tag
           (baseTag.mk (baseTag.tagType b0) (Some attrs) (Some customAttrs)
              [] None (baseTag.isCacheClean b0) (baseTag.cacheOpen b0)
              false)) h
  = Ret (fresh (dom (tags h)),
         mkHeap
           (<[fresh (dom (tags h)) :=
                baseTag.mk (baseTag.tagType b)
                  (Some (fresh (dom (intMaps h))))
                  (Some (fresh (dom (strMaps h)))) [] None
                  (baseTag.isCacheClean b) (baseTag.cacheOpen b) false]>
              (tags h))
           (texts h) (textVars h)
           (<[fresh (dom (intMaps h)) := intMap_of h (baseTag.attrs b)]>
              (intMaps h))
           (<[fresh (dom (strMaps h)) := strMap_of h (baseTag.customAttrs b)]>
              (strMaps h))).
Proof.
  intros Hb. unfold mbind, M_bind, load_tag. rewrite Hb. reflexivity.
Qed.

Lemma copy_with_Ret ord finish l h b :
  valid_order ord →
  tags h !! l = Some b →
  is_Some (Const.index tagTypeStringMap (baseTag.tagType b)) →
  Pretty.known_in_range (intMap_of h (baseTag.attrs b)) →
  ∃ s,
    copy_with (render_open ord finish) l h
    = Ret (fresh (dom (tags h)),
           mkHeap
             (<[fresh (dom (tags h)) :=
                  baseTag.mk (baseTag.tagType b)
                    (Some (fresh (dom (intMaps h))))
                    (Some (fresh (dom (strMaps h)))) [] None true
                    (baseTag.cacheOpen (refreshed s b)) false]>
                (<[l := refreshed s b]> (tags h)))
             (texts h) (textVars h)
             (<[fresh (dom (intMaps h)) := intMap_of h (baseTag.attrs b)]>
                (intMaps h))
             (<[fresh (dom (strMaps h)) := strMap_of h (baseTag.customAttrs b)]>
                (strMaps h))).
Proof.
  intros Hv Hb [tagStr Htag] Hr.
  destruct (render_open_Ret ord finish (intMap_of h (baseTag.attrs b))
              (strMap_of h (baseTag.customAttrs b)) tagStr Hv Hr) as [s Hs].
  exists s. unfold copy_with.
  unfold mbind at 1, M_bind at 1, load_tag at 1. rewrite Hb.
  unfold mbind at 1, M_bind at 1. unfold refreshed.
  destruct (baseTag.isCacheClean b) eqn:Hclean.
  - unfold mret at 1, M_ret at 1. cbv iota beta.
    rewrite (copy_tail l h b Hb), Hclean.
    rewrite (insert_id (tags h) l b Hb). done.
  - rewrite Htag, bind_checked_Some.
    unfold mbind at 1, M_bind at 1.
    rewrite (refresh_cache_Ret _ l tagStr h b s Hb Hs).
    unfold mret at 1, M_ret at 1. cbv iota beta.
    erewrite copy_tail; last by (simpl; apply lookup_insert_eq).
    simpl. rewrite dom_insert_lookup_L by by eexists. done.
Qed.

Lemma fresh_lookup_None {V} (m : gmap loc V) : m !! fresh (dom m) = None.
Proof. apply not_elem_of_dom, is_fresh. Qed.

Lemma framed_differs h h' h'' l' a' c' :
  covers h h' →
  tags h !! l' = None → intMaps h !! a' = None → strMaps h !! c' = None →
  differs_at l' a' c' h' h'' →
  framed h h'' h'.
Proof.
  intros Hc Hl' Ha' Hc' (Ht & Hx & Hv & Hi & Hs).
  pose proof Hc as (Hct & Hcx & Hcv & Hci & Hcs).
  split; [|split; [done|]].
  - split; [|split; [|split; [|split]]].
    + intros l0 b0 Hl0. rewrite Ht by congruence. by apply Hct.
    + by rewrite Hx.
    + by rewrite Hv.
    + apply map_subseteq_spec. intros i x Hix.
      rewrite Hi by congruence. by eapply lookup_weaken.
    + apply map_subseteq_spec. intros i x Hix.
      rewrite Hs by congruence. by eapply lookup_weaken.
  - intros l0 [b0 Hl0]. apply Ht. congruence.
Qed.

Lemma frame_observe ord h h1 h2 fuel env w wr indent :
  closed h → framed h h1 h2 → allocated h w →
  observe (write ord fuel env w (h1, wr))
  = observe (write ord fuel env w (h2, wr))
  ∧ observe (writePretty ord fuel env w indent (h1, wr))
    = observe (writePretty ord fuel env w indent (h2, wr)).
Proof.
  intros Hcl Hf Hw. split.
  - eapply rel_outcome_observe, sim_write; done.
  - eapply rel_outcome_observe, sim_writePretty; done.
Qed.

Lemma TextTag_Copy_detached h lt tx :
  texts h !! lt = Some tx →
  ∃ lt' h1,
    TextTag_Copy lt h = Ret (lt', h1)
    ∧ lt' ≠ lt
    ∧ value_of (TextTag_Text lt' h1) = Ret (TextTag.text tx)
    ∧ ∀ s h2,
        TextTag_SetText lt' s h1 = Ret ((), h2) →
        value_of (TextTag_Text lt h2) = Ret (TextTag.text tx)
        ∧ value_of (TextTag_Text lt' h2) = Ret s.
Proof.
  intros Htx. pose proof (fresh_lookup_None (texts h)) as Hfresh.
  assert (fresh (dom (texts h)) ≠ lt) as Hne by congruence.
  eexists _, _. split; [|split; [exact Hne|split]].
  - unfold TextTag_Copy, mbind, M_bind, load_text. rewrite Htx. reflexivity.
  - unfold TextTag_Text, mbind, M_bind, load_text. simpl.
    by rewrite lookup_insert_eq.
  - intros s h2.
    unfold TextTag_SetText, TextTag_Text, mbind, M_bind, load_text,
      store_text. simpl.
    rewrite lookup_insert_eq. intros [= <-]. simpl.
    rewrite lookup_insert_eq, lookup_insert_ne by done.
    rewrite lookup_insert_ne by done. by rewrite Htx.
Qed.

Lemma closedb_closed h : closedb h = true → closed h.
Proof.
  unfold closedb. rewrite forallb_forall. intros Hall l b Hb.
  specialize (Hall (l, b)). simpl in Hall.
  assert (closed_tagb h b = true) as Hcb.
  { apply Hall, list_elem_of_In, elem_of_map_to_list, Hb. }
  unfold closed_tagb in Hcb.
  apply andb_prop in Hcb as [Hcb Hc]. apply andb_prop in Hcb as [Hch Ha].
  split; [|split].
  - apply Forall_forall. intros w Hw.
    rewrite forallb_forall in Hch.
    by apply (bool_decide_eq_true_1 _), Hch, list_elem_of_In.
  - intros a Heq. rewrite Heq in Ha. by apply (bool_decide_eq_true_1 _).
  - intros c Heq. rewrite Heq in Hc. by apply (bool_decide_eq_true_1 _).
Qed.



(** * Further properties *)

(** ** The count returned by the writing functions *)

Section accounts.
Context {S : Type} (step : S → S → string → Prop) `{!StepLaws step}.

Lemma accounts_ret n : accounts step n (mret (n, None)).
Proof.
  intros s. exists "". split; [apply step_nil|]. simpl. split; [lia|].
  intros _. lia.
Qed.

Lemma accounts_fail n n' e : n' ≤ n → accounts step n (mret (n', Some e)).
Proof.
  intros Hle s. exists "". split; [apply step_nil|]. simpl. split; [lia|done].
Qed.

Lemma accounts_tally n (m : M S result) k :
  accounts step 0 m → (∀ n', accounts step n' (k n')) →
  accounts step n (tally n m k).
Proof.
  intros Hm Hk s. unfold tally. specialize (Hm s).
  destruct (m s) as [[[c [e|]] s1]| |]; try done.
  - destruct Hm as (str & Hstep & _ & _). exists str.
    split; [done|]. split; [lia|done].
  - destruct Hm as (str & Hstep & _ & Heq). specialize (Heq eq_refl).
    simpl in Heq. specialize (Hk (n + c) s1).
    destruct (k (n + c) s1) as [[[n' err] s2]| |]; try done.
    destruct Hk as (str2 & Hstep2 & Hle2 & Heq2).
    exists (str +:+ str2). rewrite length_app.
    split; [by eapply step_app|]. split; [lia|].
    intros Herr. specialize (Heq2 Herr). lia.
Qed.

Lemma accounts_for_each {A} (l : list A) body n k :
  (∀ x n continue, x ∈ l →
     (∀ n', accounts step n' (continue n')) →
     accounts step n (body x n continue)) →
  (∀ n', accounts step n' (k n')) →
  accounts step n (for_each l body n k).
Proof.
  revert n. induction l as [|x l IH]; intros n Hbody Hk; simpl; [done|].
  apply Hbody; [by left|]. intros n'. apply IH; [|done].
  intros y m continue Hy. apply Hbody. by right.
Qed.

Lemma accounts_bind_silent {A} (m : M S A) (k : A → M S result) n :
  silent step m → (∀ a, accounts step n (k a)) → accounts step n (m ≫= k).
Proof.
  intros Hm Hk s. unfold mbind, M_bind. specialize (Hm s).
  destruct (m s) as [[a s1]| |]; try done.
  specialize (Hk a s1). destruct (k a s1) as [[[n' err] s2]| |]; try done.
  destruct Hk as (str & Hstep & Hle & Heq). exists str. split; [|done].
  rewrite <-(app_nil str). by eapply step_app.
Qed.

Lemma silent_ret {A} (a : A) : silent step (mret a).
Proof. intros s. apply step_nil. Qed.

Lemma silent_checked {A} (o : option A) : silent step (checked o).
Proof. intros s. destruct o; simpl; [apply step_nil|done]. Qed.

Lemma silent_bind {A B} (m : M S A) (k : A → M S B) :
  silent step m → (∀ a, silent step (k a)) → silent step (m ≫= k).
Proof.
  intros Hm Hk s. unfold mbind, M_bind. specialize (Hm s).
  destruct (m s) as [[a s1]| |]; try done.
  specialize (Hk a s1). destruct (k a s1) as [[b s2]| |]; try done.
  rewrite <-(app_nil ""). by eapply step_app.
Qed.

End accounts.

Global Instance appended_laws : StepLaws appended.
Proof.
  split.
  - intros w. split; [by rewrite app_empty_r|done].
  - intros w1 w2 w3 a b [Ha Hpa] [Hb Hpb]. split; [|congruence].
    by rewrite Hb, Ha, app_assoc'.
Qed.

Global Instance st_step_laws R `{!PreOrder R} : StepLaws (st_step R).
Proof.
  split.
  - intros s. split; [reflexivity|apply step_nil].
  - intros s1 s2 s3 a b [? ?] [? ?]. split; [by etrans|by eapply step_app].
Qed.

Lemma accounts_io_WriteString s : accounts appended 0 (io_WriteString s).
Proof.
  intros w. unfold io_WriteString.
  destruct (policy w (calls w) s) as [[k e]|].
  - exists (Str.take (k `min` String.length s) s). split; [done|].
    rewrite length_take. simpl. split; [lia|done].
  - exists s. split; [done|]. simpl. split; [lia|done].
Qed.

Lemma accounts_writeRune ch : accounts appended 0 (writeRune ch).
Proof. apply accounts_io_WriteString. Qed.

Lemma accounts_writeIndent indent : accounts appended 0 (writeIndent indent).
Proof. apply accounts_io_WriteString. Qed.

(** Solves a goal [accounts step n m] for a function built from the write
    idiom, loops and the primitive writes. *)
Ltac accounts_writer :=
  repeat first
    [ apply accounts_ret; apply _
    | apply accounts_io_WriteString
    | apply accounts_writeRune
    | apply accounts_writeIndent
    | apply accounts_tally; [apply _| |intros ?]
    | apply accounts_bind_silent;
        [apply _|apply silent_checked; apply _|intros ?]
    | apply accounts_for_each; [intros ? ? ? _ ?|intros ?]
    | progress auto ].

Lemma accounts_writeKeyValue key value :
  accounts appended 0 (writeKeyValue key value).
Proof. unfold writeKeyValue. accounts_writer. Qed.

Lemma accounts_writeKeyIdValue keyId value :
  accounts appended 0 (writeKeyIdValue keyId value).
Proof.
  unfold writeKeyIdValue. accounts_writer.
Qed.

Lemma accounts_writeOpenTagLeadSorted ord attrs customAttrs tagStr :
  accounts appended 0 (writeOpenTagLeadSorted ord attrs customAttrs tagStr).
Proof.
  unfold writeOpenTagLeadSorted. accounts_writer.
  destruct (decide _); accounts_writer.
Qed.

Lemma accounts_TextTag_write tx : accounts appended 0 (TextTag.write tx).
Proof. apply accounts_io_WriteString. Qed.

Lemma accounts_TextTag_writePretty tx indent :
  accounts appended 0 (TextTag.writePretty tx indent).
Proof. unfold TextTag.writePretty. accounts_writer. Qed.

Lemma accounts_write_loop tv env vars offset count :
  accounts appended count (TextTagVar.write_loop tv env vars offset count).
Proof.
  revert offset count. induction vars as [|v vars IH]; intros offset count;
    simpl; accounts_writer.
  destruct (decide _); accounts_writer.
Qed.

Lemma accounts_TextTagVar_write tv optEnv :
  accounts appended 0 (TextTagVar.write tv optEnv).
Proof. apply accounts_write_loop. Qed.

Lemma accounts_TextTagVar_writePretty tv indent env :
  accounts appended 0 (TextTagVar.writePretty tv indent env).
Proof.
  unfold TextTagVar.writePretty. accounts_writer.
  apply accounts_TextTagVar_write.
Qed.

(** ** Rendering and the heap *)

Global Instance same_shape_equiv : Equivalence same_shape.
Proof.
  split.
  - intros b. apply same_shape_refl.
  - intros b1 b2 (?&?&?&?&?&?). by repeat split.
  - intros b1 b2 b3. apply same_shape_trans.
Qed.

Global Instance recached_preorder : PreOrder recached.
Proof.
  split.
  - intros h. split; [|done]. intros l. by destruct (tags h !! l); constructor.
  - intros h1 h2 h3 (Ht1 & ? & ? & ? & ?) (Ht2 & ? & ? & ? & ?).
    split; [|repeat split; congruence].
    intros l. specialize (Ht1 l). specialize (Ht2 l).
    destruct Ht1 as [b1 b2 H12|]; inversion Ht2; subst; constructor.
    by etrans.
Qed.

Section keeps.
Context (R : Heap → Heap → Prop) `{!PreOrder R}.

Lemma keeps_ret {A} (a : A) : keeps R (mret a).
Proof. intros h. change (R h h). reflexivity. Qed.

Lemma keeps_bind {A B} (m : M Heap A) (k : A → M Heap B) :
  keeps R m → (∀ a, keeps R (k a)) → keeps R (m ≫= k).
Proof.
  intros Hm Hk h. unfold mbind, M_bind. specialize (Hm h).
  destruct (m h) as [[a h1]| |]; try done.
  specialize (Hk a h1). destruct (k a h1) as [[b h2]| |]; try done.
  by etrans.
Qed.

Lemma keeps_pure {A} (o : outcome A) : keeps R (pure o).
Proof. intros h. destruct o; simpl; [reflexivity|done..]. Qed.

Lemma keeps_load_tag l : keeps R (load_tag l).
Proof. intros h. unfold load_tag. destruct (_ !! _); [reflexivity|done]. Qed.

Lemma keeps_load_text l : keeps R (load_text l).
Proof. intros h. unfold load_text. destruct (_ !! _); [reflexivity|done]. Qed.

Lemma keeps_load_textVar l : keeps R (load_textVar l).
Proof.
  intros h. unfold load_textVar. destruct (_ !! _); [reflexivity|done].
Qed.

Lemma keeps_read_intMap r : keeps R (read_intMap r).
Proof. intros h. change (R h h). reflexivity. Qed.

Lemma keeps_read_strMap r : keeps R (read_strMap r).
Proof. intros h. change (R h h). reflexivity. Qed.

Lemma keeps_isHidden l : keeps R (isHidden l).
Proof. apply keeps_bind; [apply keeps_load_tag|intros b; apply keeps_ret]. Qed.

Lemma keeps_tagWriter_isHidden w : keeps R (tagWriter_isHidden w).
Proof. destruct w; simpl; [apply keeps_isHidden|apply keeps_ret..]. Qed.

Lemma accounts_inW n (m : M Writer result) :
  accounts appended n m → accounts (st_step R) n (inW m).
Proof.
  intros Hm s. unfold inW. specialize (Hm s.2).
  destruct (m s.2) as [[[n' err] w']| |]; try done.
  destruct Hm as (str & ? & ? & ?). exists str. split; [|done].
  split; [reflexivity|done].
Qed.

Lemma silent_inH {A} (m : M Heap A) :
  keeps R m → silent (st_step R) (inH m).
Proof.
  intros Hm s. unfold inH. specialize (Hm s.1).
  destruct (m s.1) as [[a h']| |]; try done.
  split; [done|apply step_nil].
Qed.

End keeps.

Lemma keeps_update_cache l f :
  (∀ b, same_shape b (f b)) → keeps recached (update_tag l f).
Proof.
  intros Hf h. unfold update_tag, load_tag, store_tag, mbind, M_bind.
  destruct (tags h !! l) as [b|] eqn:Hb; [|done].
  split; [|done]. intros l0. simpl.
  destruct (decide (l0 = l)) as [->|Hne].
  - rewrite lookup_insert_eq, Hb. constructor. apply Hf.
  - rewrite lookup_insert_ne by done. by destruct (tags h !! l0); constructor.
Qed.

Lemma keeps_refresh_cache renderCacheOpen l tagStr :
  keeps recached (refresh_cache renderCacheOpen l tagStr).
Proof.
  unfold refresh_cache.
  apply keeps_bind; [apply _|apply keeps_load_tag, _|intros b].
  apply keeps_bind; [apply _|apply keeps_read_intMap, _|intros attrs].
  apply keeps_bind; [apply _|apply keeps_read_strMap, _|intros customAttrs].
  apply keeps_bind; [apply _|apply keeps_pure, _|intros r].
  apply keeps_bind; [apply _|by apply keeps_update_cache|intros _].
  destruct (r.2); [apply keeps_ret, _|].
  apply keeps_bind; [apply _|by apply keeps_update_cache|intros _].
  apply keeps_ret, _.
Qed.

(** Solves a goal [accounts (st_step R) n m] for a rendering function, given
    the same fact for the rendering of the children. *)
Ltac accounts_render_step :=
  lazymatch goal with
  | |- accounts _ _ (mret (_, None)) => apply accounts_ret; apply _
  | |- accounts _ _ (mret (_, Some _)) => apply accounts_fail; [apply _|lia]
  | |- accounts _ _ (inW _) => apply accounts_inW; try solve [apply _]
  | |- accounts _ _ (tally _ _ _) =>
      (apply accounts_tally; try solve [apply _]); [|intros ?]
  | |- accounts _ _ (for_each _ _ _ _) =>
      apply accounts_for_each; [intros ? ? ? _ ?|intros ?]
  | |- accounts _ _ (_ ≫= _) =>
      (apply accounts_bind_silent; try solve [apply _]); [|intros ?]
  | |- accounts _ _ (writeOpenTagLeadSorted _ _ _ _) =>
      apply accounts_writeOpenTagLeadSorted
  | |- accounts _ _ (TextTag.write _) => apply accounts_TextTag_write
  | |- accounts _ _ (TextTag.writePretty _ _) =>
      apply accounts_TextTag_writePretty
  | |- accounts _ _ (TextTagVar.write _ _) => apply accounts_TextTagVar_write
  | |- accounts _ _ (TextTagVar.writePretty _ _ _) =>
      apply accounts_TextTagVar_writePretty
  | |- accounts _ _ (io_WriteString _) => apply accounts_io_WriteString
  | |- accounts _ _ (writeRune _) => apply accounts_writeRune
  | |- accounts _ _ (writeIndent _) => apply accounts_writeIndent
  | |- silent _ (checked _) => apply silent_checked; apply _
  | |- silent _ (mret _) => apply silent_ret; apply _
  | |- silent _ (inH _) => apply silent_inH; try solve [apply _]
  | |- keeps _ (load_tag _) => apply keeps_load_tag; apply _
  | |- keeps _ (load_text _) => apply keeps_load_text; apply _
  | |- keeps _ (load_textVar _) => apply keeps_load_textVar; apply _
  | |- keeps _ (read_intMap _) => apply keeps_read_intMap; apply _
  | |- keeps _ (read_strMap _) => apply keeps_read_strMap; apply _
  | |- keeps _ (tagWriter_isHidden _) =>
      apply keeps_tagWriter_isHidden; apply _
  | |- keeps _ (refresh_cache _ _ _) => apply keeps_refresh_cache
  | |- accounts _ _ _ => progress auto
  end.

Ltac accounts_render := repeat accounts_render_step.

Section accounts_write.
Context (ord : MapOrder).
Context (childWrite : tagWriter → M St result).
Context (Hchild : ∀ w, accounts (st_step recached) 0 (childWrite w)).

Lemma accounts_baseTag_write l :
  accounts (st_step recached) 0 (baseTag_write ord childWrite l).
Proof.
  unfold baseTag_write. accounts_render.
  destruct (baseTag.hidden _); accounts_render.
  { destruct (baseTag.isCacheClean _); accounts_render. }
  destruct a1; accounts_render.
Qed.

Lemma accounts_singleTag_write l :
  accounts (st_step recached) 0 (singleTag_write ord l).
Proof.
  unfold singleTag_write. accounts_render.
  { destruct (baseTag.isCacheClean _); accounts_render. }
  destruct a1; accounts_render.
Qed.

Lemma accounts_commentTag_write l :
  accounts (st_step recached) 0 (commentTag_write childWrite l).
Proof. unfold commentTag_write. accounts_render. Qed.

Lemma accounts_htmlTag_write l :
  accounts (st_step recached) 0 (htmlTag_write ord childWrite l).
Proof.
  unfold htmlTag_write.
  apply accounts_tally; [apply _|accounts_render|intros ?].
  apply accounts_tally; [apply _|apply accounts_baseTag_write|intros ?].
  accounts_render.
Qed.

Lemma accounts_nullTag_write l :
  accounts (st_step recached) 0 (nullTag_write childWrite l).
Proof. unfold nullTag_write. accounts_render. Qed.

End accounts_write.

Lemma accounts_write ord fuel env w :
  accounts (st_step recached) 0 (write ord fuel env w).
Proof.
  revert w. induction fuel as [|fuel IH]; intros w; [done|]. simpl.
  destruct w as [ty l|l|l]; [|accounts_render..].
  destruct ty;
    auto using accounts_baseTag_write, accounts_singleTag_write,
      accounts_commentTag_write, accounts_htmlTag_write,
      accounts_nullTag_write.
Qed.

Section accounts_writePretty.
Context (ord : MapOrder).
Context (childWritePretty : tagWriter → nat → M St result).
Context (Hchild : ∀ w indent,
           accounts (st_step eq) 0 (childWritePretty w indent)).

Lemma accounts_baseTag_writePretty l indent :
  accounts (st_step eq) 0 (baseTag_writePretty ord childWritePretty l indent).
Proof.
  unfold baseTag_writePretty. accounts_render.
  destruct (baseTag.hidden _); accounts_render.
  - destruct a3; accounts_render.
  - destruct (decide _); accounts_render.
Qed.

Lemma accounts_singleTag_writePretty l indent :
  accounts (st_step eq) 0 (singleTag_writePretty ord l indent).
Proof. unfold singleTag_writePretty. accounts_render. Qed.

Lemma accounts_commentTag_writePretty l indent :
  accounts (st_step eq) 0 (commentTag_writePretty childWritePretty l indent).
Proof.
  unfold commentTag_writePretty. accounts_render.
  destruct (decide _); accounts_render.
Qed.

Lemma accounts_htmlTag_writePretty l indent :
  accounts (st_step eq) 0 (htmlTag_writePretty ord childWritePretty l indent).
Proof.
  unfold htmlTag_writePretty.
  apply accounts_tally; [apply _|accounts_render|intros ?].
  apply accounts_tally; [apply _|accounts_render|intros ?].
  apply accounts_tally; [apply _|apply accounts_baseTag_writePretty|intros ?].
  accounts_render.
Qed.

Lemma accounts_nullTag_writePretty l indent :
  accounts (st_step eq) 0 (nullTag_writePretty childWritePretty l indent).
Proof.
  unfold nullTag_writePretty. accounts_render.
  destruct (decide _); accounts_render.
Qed.

End accounts_writePretty.

Lemma accounts_writePretty ord fuel env w indent :
  accounts (st_step eq) 0 (writePretty ord fuel env w indent).
Proof.
  revert w indent. induction fuel as [|fuel IH]; intros w indent; [done|].
  simpl. destruct w as [ty l|l|l]; [|accounts_render..].
  destruct ty;
    auto using accounts_baseTag_writePretty, accounts_singleTag_writePretty,
      accounts_commentTag_writePretty, accounts_htmlTag_writePretty,
      accounts_nullTag_writePretty.
Qed.

(** X1.  The count and the sink.  Whenever [write] or [writePretty] returns,
    with or without an error, the sink holds what it held before followed by
    the bytes of this call; the returned count is never more than the number
    of these bytes, and it is exactly their number when no error is
    returned. *)
Theorem render_count_is_bytes_written :
  (∀ ord fuel env w s n err s',
     write ord fuel env w s = Ret ((n, err), s') →
     ∃ str, written s'.2 = written s.2 +:+ str
            ∧ n ≤ String.length str
            ∧ (err = None → n = String.length str))
  ∧ (∀ ord fuel env w indent s n err s',
       writePretty ord fuel env w indent s = Ret ((n, err), s') →
       ∃ str, written s'.2 = written s.2 +:+ str
              ∧ n ≤ String.length str
              ∧ (err = None → n = String.length str)).
Proof.
  split.
  - intros ord fuel env w s n err s' Hrun.
    pose proof (accounts_write ord fuel env w s) as Hacc.
    rewrite Hrun in Hacc. destruct Hacc as (str & [_ [Hw _]] & Hle & Heq).
    by exists str.
  - intros ord fuel env w indent s n err s' Hrun.
    pose proof (accounts_writePretty ord fuel env w indent s) as Hacc.
    rewrite Hrun in Hacc. destruct Hacc as (str & [_ [Hw _]] & Hle & Heq).
    by exists str.
Qed.

Lemma render_count_is_bytes_written_witness :
  (∃ s' str,
     write canonical_order 4 [] (TagW TBase 0)
       (Examples.div_span_text, failing_after 2)
     = Ret ((5, Some "sink closed"), s')
     ∧ written s'.2 = "" +:+ str
     ∧ 5 ≤ String.length str)
  ∧ (∃ s' str,
       writePretty canonical_order 4 [] (TagW TBase 0) 0
         (Examples.div_span_text, bytes_Buffer)
       = Ret ((37, None), s')
       ∧ written s'.2 = "" +:+ str
       ∧ 37 = String.length str).
Proof.
  destruct render_count_is_bytes_written as [Hwrite Hpretty]. split.
  - edestruct (Hwrite canonical_order 4 [] (TagW TBase 0)
                 (Examples.div_span_text, failing_after 2))
      as (str & Hstr & Hle & _); [vm_compute; reflexivity|].
    eexists _, str. split; [vm_compute; reflexivity|]. by split.
  - edestruct (Hpretty canonical_order 4 [] (TagW TBase 0) 0
                 (Examples.div_span_text, bytes_Buffer))
      as (str & Hstr & _ & Heq); [vm_compute; reflexivity|].
    eexists _, str. split; [vm_compute; reflexivity|]. split; [done|].
    by apply Heq.
Defined.

(** X2.  Compact rendering changes nothing in the heap but the cache fields
    of tags: when [write] returns, with or without an error, every tag has
    the type, maps, children, parent and hidden flag it had, no tag was added
    or removed, and the text leaves and the attribute maps are the same. *)
Theorem write_changes_caches_only ord fuel env w s r s' :
  write ord fuel env w s = Ret (r, s') →
  (∀ l, option_Forall2 same_shape (tags s.1 !! l) (tags s'.1 !! l))
  ∧ texts s'.1 = texts s.1
  ∧ textVars s'.1 = textVars s.1
  ∧ intMaps s'.1 = intMaps s.1
  ∧ strMaps s'.1 = strMaps s.1.
Proof.
  intros Hrun. pose proof (accounts_write ord fuel env w s) as Hacc.
  rewrite Hrun in Hacc. destruct r as [n err].
  by destruct Hacc as (str & [Hre _] & _).
Qed.

Lemma write_changes_caches_only_witness :
  ∃ s',
    write canonical_order 4 [] (TagW TBase 0)
      (Examples.div_span_text, bytes_Buffer)
    = Ret ((25, None), s')
    ∧ texts s'.1 = texts Examples.div_span_text
    ∧ intMaps s'.1 = intMaps Examples.div_span_text.
Proof.
  eexists. split; [vm_compute; reflexivity|].
  edestruct (write_changes_caches_only canonical_order 4 [] (TagW TBase 0)
               (Examples.div_span_text, bytes_Buffer))
    as (_ & Htexts & _ & HintMaps & _); [vm_compute; reflexivity|].
  split; [exact Htexts|exact HintMaps].
Defined.

(** X3.  Pretty rendering never writes to the heap: when [writePretty]
    returns, with or without an error, the heap is the one it started from
    (the open-tag cache is neither used nor refreshed). *)
Theorem writePretty_leaves_heap ord fuel env w indent s r s' :
  writePretty ord fuel env w indent s = Ret (r, s') → s'.1 = s.1.
Proof.
  intros Hrun. pose proof (accounts_writePretty ord fuel env w indent s) as Hacc.
  rewrite Hrun in Hacc. destruct r as [n err].
  by destruct Hacc as (str & [Hre _] & _).
Qed.

Lemma writePretty_leaves_heap_witness :
  ∃ s',
    writePretty canonical_order 4 [] (TagW TBase 0) 0
      (Examples.div_span_text, failing_after 5)
    = Ret ((6, Some "sink closed"), s')
    ∧ s'.1 = Examples.div_span_text.
Proof.
  eexists. split; [vm_compute; reflexivity|].
  eapply (writePretty_leaves_heap canonical_order 4 [] (TagW TBase 0) 0
            (Examples.div_span_text, failing_after 5)).
  vm_compute. reflexivity.
Defined.

(** ** The spans of the parser *)

Lemma get_Some_lt i s c : String.get i s = Some c → i < String.length s.
Proof.
  revert i. induction s as [|a s IH]; intros [|i]; simpl; try done; [lia|].
  intros ?%IH. lia.
Qed.

Lemma get_None_ge i s : String.get i s = None → String.length s ≤ i.
Proof.
  revert i. induction s as [|a s IH]; intros [|i]; simpl; try done; [lia|].
  intros ?%IH. lia.
Qed.

Lemma IndexRune_first s c i j :
  Str.IndexRune s c = Some i → j < i → String.get j s ≠ Some c.
Proof.
  revert i j. induction s as [|a s IH]; intros i j; simpl; [done|].
  destruct (Ascii.eqb_spec a c) as [->|Hne].
  - intros [= <-]. lia.
  - destruct (Str.IndexRune s c) as [k|] eqn:Hk; simpl; [|done].
    intros [= <-] Hj. destruct j as [|j]; [congruence|].
    apply (IH k); [done|lia].
Qed.

Lemma IndexRune_None_get s c j :
  Str.IndexRune s c = None → String.get j s ≠ Some c.
Proof.
  revert j. induction s as [|a s IH]; intros j; simpl; [by destruct j|].
  destruct (Ascii.eqb_spec a c) as [->|Hne]; [done|].
  destruct (Str.IndexRune s c) as [k|] eqn:Hk; simpl; [done|].
  intros _. destruct j as [|j]; [congruence|]. by apply IH.
Qed.

Lemma parseVars_loop_covers fuel text offset i :
  String.length text - offset ≤ fuel →
  offset ≤ i → String.get i text = Some "$"%char →
  ∃ v, v ∈ parseVars_loop fuel text offset []
       ∧ Var.startOffset v ≤ i < Var.startOffset v + Var.length v.
Proof.
  revert offset. induction fuel as [|fuel IH]; intros offset Hfuel Hoff Hget;
    pose proof (get_Some_lt _ _ _ Hget) as Hi; simpl; [lia|].
  destruct (Nat.ltb_spec offset (String.length text)) as [Hlt|]; [|lia].
  destruct (Str.IndexRune _ _) as [index|] eqn:Hidx.
  - pose proof (IndexRune_Some _ _ _ Hidx) as [Hindex _].
    rewrite length_drop in Hindex.
    rewrite parseVars_loop_acc.
    set (varLen := S (String.length _)).
    destruct (decide (i < offset + index + varLen)) as [Hin|Hout].
    + exists (Var.mk (offset + index) varLen). split; [by left|]. simpl.
      split; [|done].
      destruct (decide (offset + index ≤ i)) as [|Hbefore]; [done|].
      destruct (IndexRune_first _ _ _ (i - offset) Hidx); [lia|].
      rewrite get_drop. by replace (offset + (i - offset)) with i by lia.
    + destruct (IH (offset + (index + varLen))) as (v & Hv & Hrange);
        [lia|lia|done|].
      exists v. split; [by right|done].
  - destruct (IndexRune_None_get _ _ (i - offset) Hidx).
    rewrite get_drop. by replace (offset + (i - offset)) with i by lia.
Qed.

(** X4.  No dollar is left out: every dollar of the text lies inside one of
    the spans that [parseVars] returns. *)
Theorem parseVars_covers_every_dollar (text : string) (i : nat) :
  String.get i text = Some "$"%char →
  ∃ v, v ∈ parseVars text
       ∧ Var.startOffset v ≤ i < Var.startOffset v + Var.length v.
Proof. intros Hget. apply parseVars_loop_covers; [lia|lia|done]. Qed.

Lemma parseVars_covers_every_dollar_witness :
  ∃ v, v ∈ parseVars "a $$ b"
       ∧ Var.startOffset v ≤ 3 < Var.startOffset v + Var.length v.
Proof. apply (parseVars_covers_every_dollar "a $$ b" 3). reflexivity. Defined.

Lemma take_span p s : Str.take (String.length (Str.span p s)) s = Str.span p s.
Proof.
  induction s as [|a s IH]; simpl; [done|].
  destruct (p a); simpl; [by rewrite IH|done].
Qed.

Lemma forallb_span p s : forallb p (Str.bytes (Str.span p s)) = true.
Proof.
  unfold Str.bytes. induction s as [|a s IH]; simpl; [done|].
  destruct (p a) eqn:Hp; simpl; [by rewrite Hp|done].
Qed.

Lemma get_after_span p s c :
  String.get (String.length (Str.span p s)) s = Some c → p c = false.
Proof.
  induction s as [|a s IH]; simpl; [done|].
  destruct (p a) eqn:Hp; simpl; [done|]. by intros [= <-].
Qed.

Lemma drop_get i s c :
  String.get i s = Some c → Str.drop i s = String c (Str.drop (S i) s).
Proof.
  revert i. induction s as [|a s IH]; intros [|i]; simpl; try done.
  - by intros [= ->].
  - apply IH.
Qed.

(** What [reVar.FindString] returns: a prefix of its argument that is a
    dollar, or the longest identifier at the start, or nothing when the
    argument starts with neither. *)
Lemma reVar_FindString_shape s :
  let m := reVar_FindString s in
  Str.take (String.length m) s = m
  ∧ (m = "$"
     ∨ (is_identifier m = true
        ∧ ∀ c, String.get (String.length m) s = Some c →
               is_ident_char c = false)
     ∨ (m = ""
        ∧ ∀ c, String.get 0 s = Some c →
               c ≠ "$"%char ∧ is_ident_start c = false)).
Proof.
  destruct s as [|a s]; simpl.
  { split; [done|]. right; right. done. }
  destruct (Ascii.eqb_spec a "$") as [->|Hne]; simpl.
  { split; [done|]. by left. }
  destruct (is_ident_start a) eqn:Hstart; simpl.
  - rewrite take_span. split; [done|]. right; left.
    rewrite Hstart, forallb_span. split; [done|]. apply get_after_span.
  - split; [done|]. right; right. split; [done|]. by intros c [= <-].
Qed.

Lemma parseVars_loop_shape fuel text offset :
  Forall (λ v,
    let name := Expansion.name_of text v in
    let next := String.get (Var.startOffset v + Var.length v) text in
    name = "$"
    ∨ (is_identifier name = true
       ∧ ∀ c, next = Some c → is_ident_char c = false)
    ∨ (name = "" ∧ Var.length v = 1
       ∧ ∀ c, next = Some c → c ≠ "$"%char ∧ is_ident_start c = false))
    (parseVars_loop fuel text offset []).
Proof.
  revert offset. induction fuel as [|fuel IH]; intros offset; simpl; [done|].
  destruct (offset <? String.length text)%nat; [|done].
  destruct (Str.IndexRune _ _) as [index|] eqn:Hidx; [|done].
  rewrite parseVars_loop_acc. apply Forall_app. split; [|apply IH].
  apply Forall_singleton.
  apply IndexRune_Some in Hidx as [_ Hget]. rewrite get_drop in Hget.
  rewrite drop_drop.
  set (s := Str.drop (offset + (index + 1)) text).
  destruct (reVar_FindString_shape s) as [Hprefix Hshape].
  assert (Expansion.name_of text
            (Var.mk (offset + index) (S (String.length (reVar_FindString s))))
          = reVar_FindString s) as Hname.
  { unfold Expansion.name_of, Expansion.between.
    cbn [Var.startOffset Var.length].
    replace (offset + index + S (String.length (reVar_FindString s))
             - (offset + index))
      with (S (String.length (reVar_FindString s))) by lia.
    rewrite (drop_get _ _ _ Hget).
    change (Str.drop 1 (Str.take (S ?k) (String ?c ?r))) with (Str.take k r).
    replace (S (offset + index)) with (offset + (index + 1)) by lia.
    fold s. by rewrite Hprefix. }
  cbv zeta. rewrite Hname. simpl.
  assert (∀ k, String.get (offset + index + S k) text = String.get k s)
    as Hnext.
  { intros k. unfold s. rewrite get_drop. f_equal. lia. }
  destruct Hshape as [Hd|[[Hid Hmax]|[He Hmax]]].
  - by left.
  - right; left. split; [done|]. intros c. rewrite Hnext. apply Hmax.
  - right; right. rewrite He. simpl. split; [done|]. split; [done|].
    intros c. rewrite Hnext. apply Hmax.
Qed.

(** X5.  Every span is the dollar followed by the longest name that may
    follow it: a second dollar; or a letter or underscore with all the
    letters, digits and underscores after it, up to a byte that is none of
    these or to the end of the text; or nothing (a span of one byte) when the
    dollar is followed by neither or ends the text. *)
Theorem parseVars_longest_name (text : string) :
  Forall (λ v,
    let name := Expansion.name_of text v in
    let next := String.get (Var.startOffset v + Var.length v) text in
    name = "$"
    ∨ (is_identifier name = true
       ∧ ∀ c, next = Some c → is_ident_char c = false)
    ∨ (name = "" ∧ Var.length v = 1
       ∧ ∀ c, next = Some c → c ≠ "$"%char ∧ is_ident_start c = false))
    (parseVars text).
Proof. apply parseVars_loop_shape. Qed.

Lemma parseVars_longest_name_witness :
  let name := Expansion.name_of "$ab c" (Var.mk 0 3) in
  let next := String.get 3 "$ab c" in
  name = "$"
  ∨ (is_identifier name = true
     ∧ ∀ c, next = Some c → is_ident_char c = false)
  ∨ (name = "" ∧ 3 = 1
     ∧ ∀ c, next = Some c → c ≠ "$"%char ∧ is_ident_start c = false).
Proof. exact (Forall_inv (parseVars_longest_name "$ab c")). Defined.

(** X6.  A text without a dollar is written in one piece: the leaf hands the
    sink its whole text, HTML-escaped unless the leaf is unsafe, whatever the
    environment; on a sink that accepts the write the count is the length of
    what was written. *)
Theorem TextTagVar_write_plain_text (text : string) (unsafe : bool)
    (optEnv : list Environment) (w : Writer) :
  "$"%char ∉ Str.bytes text →
  let tv := TextTagVar.SetUnsafe unsafe (NewTextTagVar text) in
  let out := if unsafe then text else html_EscapeString text in
  TextTagVar.write tv optEnv w = write_chunks [out] 0 w
  ∧ (reliable w →
     ∃ w', TextTagVar.write tv optEnv w = Ret ((String.length out, None), w')
           ∧ written w' = written w +:+ out).
Proof.
  intros Hno tv out.
  assert (TextTagVar.write tv optEnv w = write_chunks [out] 0 w) as Hw.
  { unfold tv. rewrite write_NewTextTagVar.
    unfold parseVars. by rewrite parseVars_loop_no_dollar. }
  split; [done|]. intros Hrel. rewrite Hw, write_chunks_reliable by done.
  change (Str.concat [out]) with (out +:+ ""). rewrite app_empty_r.
  eexists. split; [reflexivity|done].
Qed.

Lemma TextTagVar_write_plain_text_witness :
  ∃ w', TextTagVar.write (TextTagVar.SetUnsafe false (NewTextTagVar "3 < 5"))
          [] bytes_Buffer
        = Ret ((8, None), w')
        ∧ written w' = "3 &lt; 5".
Proof.
  apply (TextTagVar_write_plain_text "3 < 5" false [] bytes_Buffer).
  - apply (bool_decide_unpack _). vm_compute. exact I.
  - intros i s. reflexivity.
Defined.

(** ** Children and parents *)

(** Runs a straight-line heap program on a heap whose relevant lookups are
    known. *)
Ltac heap_unfold :=
  repeat progress
    (unfold mbind, M_bind, mret, M_ret, checked, panic, load_tag, store_tag,
       update_tag, alloc_tag, load_text, store_text, alloc_text,
       load_textVar, store_textVar, alloc_textVar, read_intMap, read_strMap,
       intMap_assign, intMap_delete, strMap_assign, strMap_delete,
       alloc_intMap, alloc_strMap, with_tags, with_texts, with_textVars,
       with_intMaps, with_strMaps;
     cbv beta).

(** X7.  [addChild(t, newTag)] appends [newTag] to the children of [t] and
    makes [t] the parent of [newTag]: afterwards [newTag.Parent()] and
    [newTag.Up()] both return [t].  No other tag changes, and neither does
    any text leaf or attribute map. *)
Theorem addChild_links_child_and_parent (l : loc) (newTag : Tag) (h : Heap)
    (b : baseTag.t) :
  tags h !! l = Some b → is_Some (tags h !! newTag.2) →
  ∃ h' b',
    addChild l newTag h = Ret (newTag, h')
    ∧ tags h' !! l = Some b'
    ∧ baseTag.children b' = baseTag.children b ++ [Tag_writer newTag]
    ∧ Parent newTag.2 h' = Ret (Some l, h')
    ∧ baseTag_Up newTag.2 [] h' = Ret (Some l, h')
    ∧ (∀ l0, l0 ≠ l → l0 ≠ newTag.2 → tags h' !! l0 = tags h !! l0)
    ∧ texts h' = texts h ∧ textVars h' = textVars h
    ∧ intMaps h' = intMaps h ∧ strMaps h' = strMaps h.
Proof.
  intros Hb [c Hc]. unfold addChild, setParent, Parent, baseTag_Up.
  heap_unfold. rewrite Hb. simpl.
  destruct (decide (newTag.2 = l)) as [Heq|Hne].
  - rewrite Heq, lookup_insert_eq. simpl. eexists _, _.
    split; [reflexivity|]. simpl. rewrite !lookup_insert_eq. simpl.
    repeat split; try done.
    intros l0 Hl0 _. by rewrite !lookup_insert_ne.
  - rewrite lookup_insert_ne, Hc by done. simpl. eexists _, _.
    split; [reflexivity|]. simpl.
    rewrite lookup_insert_ne, !lookup_insert_eq by done. simpl.
    repeat split; try done.
    intros l0 Hl0 Hl0'. by rewrite !lookup_insert_ne.
Qed.

Lemma addChild_links_child_and_parent_witness :
  ∃ h' b',
    addChild 0 (TBase, 1) Examples.div_span_text = Ret ((TBase, 1), h')
    ∧ tags h' !! 0 = Some b'
    ∧ baseTag.children b' = [TagW TBase 1; TagW TBase 1]
    ∧ Parent 1 h' = Ret (Some 0, h').
Proof.
  edestruct (addChild_links_child_and_parent 0 (TBase, 1)
               Examples.div_span_text)
    as (h' & b' & Hrun & Hb' & Hchildren & Hparent & _);
    [vm_compute; reflexivity|vm_compute; by eexists|].
  by exists h', b'.
Defined.

Lemma Up_loop_heap steps currTag h r h' :
  Up_loop steps currTag h = Ret (r, h') → h' = h.
Proof.
  revert currTag. induction steps as [|steps IH]; intros currTag; simpl.
  - by intros [= _ <-].
  - destruct currTag as [p|]; [|done]. heap_unfold.
    destruct (tags h !! p) as [b|]; [|done]. apply IH.
Qed.

Lemma Up_loop_add j k currTag p h h' :
  Up_loop j currTag h = Ret (Some p, h') →
  Up_loop (j + S k) currTag h
  = (b ← load_tag p; Up_loop k (baseTag.parent b)) h.
Proof.
  revert currTag. induction j as [|j IH]; intros currTag; simpl.
  - by intros [= -> _].
  - destruct currTag as [q|]; [|done]. heap_unfold.
    destruct (tags h !! q) as [b|]; [|done]. apply IH.
Qed.

(** X8.  [Up] uses its first count only, and every count below 2, like no
    count at all, gives the parent: [Up()], [Up(1)], [Up(0)] and [Up(-5)]
    all return what [Parent()] returns, for tags and for text leaves. *)
Theorem Up_small_count_is_Parent :
  (∀ l h, baseTag_Up l [] h = Parent l h)
  ∧ (∀ l c rest h, (c ≤ 1)%Z → baseTag_Up l (c :: rest) h = Parent l h)
  ∧ (∀ l c rest h,
       (c ≤ 1)%Z → TextTag_Up l (c :: rest) h = TextTag_Up l [] h).
Proof.
  split; [done|]. split.
  - intros l c rest h Hc. unfold baseTag_Up, Parent.
    by replace (Z.to_nat (c - 1)) with 0 by lia.
  - intros l c rest h Hc. unfold TextTag_Up.
    by replace (Z.to_nat (c - 1)) with (Z.to_nat (1 - 1)) by lia.
Qed.

Lemma Up_small_count_is_Parent_witness :
  baseTag_Up 1 [(-5)%Z; 7%Z] Examples.div_span_text
  = Parent 1 Examples.div_span_text.
Proof.
  apply (proj1 (proj2 Up_small_count_is_Parent) 1 (-5)%Z [7%Z]). lia.
Defined.

(** X9.  Steps of [Up] add up, and [Up] only reads: when [Up(m)] returns the
    tag [p], the heap is unchanged and [Up(m + n)] is [p.Up(n)], for counts
    of at least one. *)
Theorem Up_composes (l p : loc) (m n : Z) (h h' : Heap) :
  (1 ≤ m)%Z → (1 ≤ n)%Z →
  baseTag_Up l [m] h = Ret (Some p, h') →
  h' = h ∧ baseTag_Up l [(m + n)%Z] h = baseTag_Up p [n] h.
Proof.
  intros Hm Hn. unfold baseTag_Up. heap_unfold.
  destruct (tags h !! l) as [b|]; [|done]. intros Hup.
  split; [by eapply Up_loop_heap|].
  replace (Z.to_nat (m + n - 1)) with (Z.to_nat (m - 1) + S (Z.to_nat (n - 1)))
    by lia.
  erewrite Up_loop_add by done. by heap_unfold.
Qed.

Lemma Up_composes_witness :
  baseTag_Up 2 [(1 + 1)%Z] Examples.nested_divs
  = baseTag_Up 1 [1%Z] Examples.nested_divs.
Proof.
  apply (Up_composes 2 1 1 1 Examples.nested_divs Examples.nested_divs);
    [lia|lia|vm_compute; reflexivity].
Defined.

Lemma RemoveParent_loop_last t cs :
  RemoveParent_loop t (cs ++ [t]) (length (cs ++ [t])) = Some cs.
Proof.
  rewrite List.length_app, Nat.add_1_r. simpl.
  rewrite list_lookup_middle by done.
  rewrite decide_True by done.
  rewrite take_app_length, drop_ge by (rewrite List.length_app; simpl; lia).
  by rewrite app_nil_r.
Qed.

Lemma RemoveParent_loop_absent t cs k :
  t ∉ cs → RemoveParent_loop t cs k = None.
Proof.
  intros Hnot. induction k as [|k IH]; simpl; [done|].
  destruct (cs !! k) as [child|] eqn:Hk; [|done].
  rewrite decide_False; [done|].
  intros ->. by apply list_elem_of_lookup_2 in Hk.
Qed.

(** X10.  [RemoveParent] undoes [addChild] for a child of concrete type
    [*baseTag]: the child is taken out of the children of its parent, which
    are then what they were before the child was added, and the parent
    reference of the child is nil; nothing else changes.  On a tag without a
    parent [RemoveParent] panics. *)
Theorem RemoveParent_undoes_addChild :
  (∀ l c h b bc,
     tags h !! l = Some b → tags h !! c = Some bc → c ≠ l →
     ∃ h',
       (addChild l (TBase, c);; RemoveParent c) h = Ret ((), h')
       ∧ tags h' !! l = Some b
       ∧ tags h' !! c = Some (baseTag.with_parent None bc)
       ∧ (∀ l0, l0 ≠ l → l0 ≠ c → tags h' !! l0 = tags h !! l0)
       ∧ texts h' = texts h ∧ textVars h' = textVars h
       ∧ intMaps h' = intMaps h ∧ strMaps h' = strMaps h)
  ∧ (∀ l h b,
       tags h !! l = Some b → baseTag.parent b = None →
       RemoveParent l h = Panic).
Proof.
  split.
  - intros l c h b bc Hb Hc Hne.
    unfold addChild, setParent, RemoveParent. heap_unfold.
    rewrite Hb. simpl. rewrite lookup_insert_ne, Hc by done. simpl.
    rewrite lookup_insert_eq. simpl.
    rewrite lookup_insert_ne, lookup_insert_eq by done. simpl.
    rewrite RemoveParent_loop_last. simpl.
    rewrite lookup_insert_ne, lookup_insert_eq by done. simpl.
    rewrite lookup_insert_ne, lookup_insert_eq by done. simpl.
    eexists. split; [reflexivity|]. simpl.
    rewrite lookup_insert_ne, !lookup_insert_eq by done.
    split; [by destruct b|]. split; [done|]. split; [|done].
    intros l0 Hl0 Hl0'. by rewrite !lookup_insert_ne.
  - intros l h b Hb Hparent. unfold RemoveParent. heap_unfold.
    by rewrite Hb, Hparent.
Qed.

Lemma RemoveParent_undoes_addChild_witness :
  (∃ h',
     (addChild 0 (TBase, 2);; RemoveParent 2) Examples.nested_divs
     = Ret ((), h')
     ∧ tags h' !! 0 = tags Examples.nested_divs !! 0)
  ∧ RemoveParent 0 Examples.nested_divs = Panic.
Proof.
  destruct RemoveParent_undoes_addChild as [Hundo Hpanic]. split.
  - edestruct (Hundo 0 2 Examples.nested_divs) as (h' & Hrun & Hl & _);
      [vm_compute; reflexivity|vm_compute; reflexivity|done|].
    exists h'. split; [exact Hrun|exact Hl].
  - eapply (Hpanic 0 Examples.nested_divs); vm_compute; reflexivity.
Defined.

(** X11.  [RemoveParent] does not find a child that was stored with a
    concrete type other than [*baseTag] (a self-closing tag, an input, a
    body): the comparison with the [*baseTag] receiver is false for it.  When
    such a child is added by [addChild] and [RemoveParent] is called on it,
    its parent reference becomes nil and it stays among the children of the
    parent. *)
Theorem RemoveParent_misses_other_types (l c : loc) (ty : dynType)
    (h : Heap) (b bc : baseTag.t) :
  tags h !! l = Some b → tags h !! c = Some bc → c ≠ l →
  ty ≠ TBase → TagW TBase c ∉ baseTag.children b →
  ∃ h' b',
    (addChild l (ty, c);; RemoveParent c) h = Ret ((), h')
    ∧ tags h' !! l = Some b'
    ∧ baseTag.children b' = baseTag.children b ++ [TagW ty c]
    ∧ tags h' !! c = Some (baseTag.with_parent None bc).
Proof.
  intros Hb Hc Hne Hty Hnot.
  unfold addChild, setParent, RemoveParent. heap_unfold.
  rewrite Hb. simpl. rewrite lookup_insert_ne, Hc by done. simpl.
  rewrite lookup_insert_eq. simpl.
  rewrite lookup_insert_ne, lookup_insert_eq by done. simpl.
  rewrite RemoveParent_loop_absent; last first.
  { rewrite elem_of_app, list_elem_of_singleton. intros [?|[= ?]]; done. }
  simpl. rewrite lookup_insert_eq.
  eexists _, _. split; [reflexivity|]. simpl.
  rewrite lookup_insert_ne, lookup_insert_ne, !lookup_insert_eq by done.
  done.
Qed.

Lemma RemoveParent_misses_other_types_witness :
  ∃ h' b',
    (addChild 0 (TSingle, 2);; RemoveParent 2) Examples.nested_divs
    = Ret ((), h')
    ∧ tags h' !! 0 = Some b'
    ∧ baseTag.children b' = [TagW TBase 1; TagW TSingle 2].
Proof.
  edestruct (RemoveParent_misses_other_types 0 2 TSingle
               Examples.nested_divs)
    as (h' & b' & Hrun & Hl & Hchildren & _);
    [vm_compute; reflexivity|vm_compute; reflexivity|done|done| |].
  - apply (bool_decide_unpack _). vm_compute. exact I.
  - by exists h', b'.
Defined.

(** ** Attributes *)

Lemma ends_dirty {A} (m : M Heap A) l h h' :
  (m;; update_tag l (baseTag.with_isCacheClean false)) h = Ret ((), h') →
  dirty l h'.
Proof.
  heap_unfold. destruct (m h) as [[a h1]| |]; [|done..].
  destruct (tags h1 !! l) as [b|]; [|done]. intros [= <-].
  eexists. simpl. by rewrite lookup_insert_eq.
Qed.

Lemma load_ends_dirty {A} (k : baseTag.t → M Heap A) l h h' :
  (b ← load_tag l; k b;; update_tag l (baseTag.with_isCacheClean false)) h
  = Ret ((), h') →
  dirty l h'.
Proof.
  unfold mbind at 1, M_bind at 1, load_tag at 1.
  destruct (tags h !! l) as [b|]; [|done]. apply ends_dirty.
Qed.

(** X12.  Every mutator of attributes or classes that changes something
    leaves the open-tag cache of the tag dirty: [setAttr] (and with it
    [SetId] and [SetTitle]), [SetAttribute], [SetAttributes],
    [RemoveAttribute], [RemoveAttributes], [SetClasses], [AddClasses] with at
    least one class, [InputTag.SetValue], [OptionTag.SetSelected] and
    [CheckedInputTag.SetChecked].  [AddClasses] without classes returns at
    once and changes nothing. *)
Theorem mutators_leave_cache_dirty :
  (∀ m l h h',
     mutate l m h = Ret ((), h') →
     (m = Mut_AddClasses [] ∧ h' = h) ∨ dirty l h')
  ∧ (∀ l v h h', InputTag_SetValue l v h = Ret ((), h') → dirty l h')
  ∧ (∀ l s h h', OptionTag_SetSelected l s h = Ret ((), h') → dirty l h')
  ∧ (∀ l s h h',
       CheckedInputTag_SetChecked l s h = Ret ((), h') → dirty l h').
Proof.
  split; [|split; [|split]].
  - intros m l h h'.
    destruct m as [keyId value|key value|attrs|key|keys|classes|classes];
      simpl; try (intros Hrun; right; revert Hrun; apply load_ends_dirty).
    unfold AddClasses. destruct (decide _) as [Hlen|Hlen].
    + intros [= <-]. left. by destruct classes.
    + intros Hrun. right. revert Hrun.
      unfold mbind at 1, M_bind at 1, load_tag at 1.
      destruct (tags h !! l) as [b|]; [|done].
      unfold mbind at 1, M_bind at 1, read_intMap at 1.
      apply ends_dirty.
  - intros l v h h'. apply load_ends_dirty.
  - intros l s h h'. apply load_ends_dirty.
  - intros l s h h'. apply load_ends_dirty.
Qed.

Lemma mutators_leave_cache_dirty_witness :
  ∃ h', SetId 0 "x" Examples.div_span_text = Ret ((), h') ∧ dirty 0 h'.
Proof.
  eexists. split; [vm_compute; reflexivity|].
  destruct (proj1 mutators_leave_cache_dirty (Mut_setAttr kAttrId "x") 0
              Examples.div_span_text _ ltac:(vm_compute; reflexivity))
    as [[Hm _]|Hdirty]; [discriminate Hm|exact Hdirty].
Defined.

Lemma setAttr_Ret l keyId value h b a :
  tags h !! l = Some b → baseTag.attrs b = Some a →
  setAttr l keyId value h
  = Ret ((), mkHeap (<[l := baseTag.with_isCacheClean false b]> (tags h))
               (texts h) (textVars h)
               (<[a := if decide (String.length value = 0)
                       then delete keyId (intMap_of h (Some a))
                       else <[keyId := value]> (intMap_of h (Some a))]>
                  (intMaps h))
               (strMaps h)).
Proof.
  intros Hb Ha. unfold setAttr. heap_unfold. rewrite Hb, Ha.
  destruct (decide _); simpl; by rewrite Hb.
Qed.

Lemma read_attr_after_set keyId value (m : gmap Z string) k :
  default "" ((if decide (String.length value = 0) then delete keyId m
               else <[keyId := value]> m) !! k)
  = if decide (k = keyId) then value else default "" (m !! k).
Proof.
  destruct (decide (k = keyId)) as [->|Hne].
  - destruct (decide _) as [Hlen|Hlen].
    + rewrite lookup_delete_eq. by destruct value.
    + by rewrite lookup_insert_eq.
  - destruct (decide _).
    + by rewrite lookup_delete_ne.
    + by rewrite lookup_insert_ne.
Qed.

(** X13.  Setting and reading a known attribute.  On a tag whose known
    attributes are a map (not nil), [SetId(v)] followed by [Id()] returns
    [v], and [SetValue(v)] followed by [Value()] returns [v], for every
    string [v]: a non-empty one is stored, the empty one deletes the entry
    and is what reading a missing entry returns.  Setting the id does not
    change the value. *)
Theorem known_attribute_round_trip (l : loc) (h : Heap) (b : baseTag.t)
    (a : loc) (v : string) :
  tags h !! l = Some b → baseTag.attrs b = Some a →
  (∃ h', SetId l v h = Ret ((), h') ∧ baseTag_Id l h' = Ret (v, h'))
  ∧ (∃ h', InputTag_SetValue l v h = Ret ((), h')
           ∧ InputTag_Value l h' = Ret (v, h'))
  ∧ (∃ h', SetId l v h = Ret ((), h')
           ∧ value_of (InputTag_Value l h') = value_of (InputTag_Value l h)).
Proof.
  intros Hb Ha. split; [|split].
  - eexists. split; [by apply setAttr_Ret|].
    unfold baseTag_Id. heap_unfold. simpl. rewrite lookup_insert_eq. simpl.
    rewrite Ha. unfold intMap_of at 1. simpl. rewrite lookup_insert_eq. simpl.
    rewrite read_attr_after_set. by rewrite decide_True.
  - eexists.
    split; [by apply (setAttr_Ret l kAttrValue v h b a)|].
    unfold InputTag_Value. heap_unfold. simpl. rewrite lookup_insert_eq.
    simpl. rewrite Ha. unfold intMap_of at 1. simpl.
    rewrite lookup_insert_eq. simpl.
    rewrite read_attr_after_set. by rewrite decide_True.
  - eexists. split; [by apply setAttr_Ret|].
    unfold InputTag_Value. heap_unfold. simpl. rewrite lookup_insert_eq, Hb.
    simpl. rewrite Ha. unfold intMap_of at 1. simpl.
    rewrite lookup_insert_eq. simpl.
    rewrite read_attr_after_set. by rewrite decide_False.
Qed.

Lemma known_attribute_round_trip_witness :
  ∃ h', SetId 0 "" Examples.div_span_text = Ret ((), h')
        ∧ baseTag_Id 0 h' = Ret ("", h').
Proof.
  pose proof (λ b, known_attribute_round_trip 0 Examples.div_span_text b 0 "")
    as Hround.
  edestruct Hround as [Hid _]; [vm_compute; reflexivity|reflexivity|exact Hid].
Defined.

Lemma setFlag_Ret l keyId (flag : bool) h b a :
  tags h !! l = Some b → baseTag.attrs b = Some a →
  (b0 ← load_tag l;
   (if flag then intMap_assign (baseTag.attrs b0) keyId ""
    else intMap_delete (baseTag.attrs b0) keyId);;
   update_tag l (baseTag.with_isCacheClean false)) h
  = Ret ((), mkHeap (<[l := baseTag.with_isCacheClean false b]> (tags h))
               (texts h) (textVars h)
               (<[a := if flag then <[keyId := ""]> (intMap_of h (Some a))
                       else delete keyId (intMap_of h (Some a))]>
                  (intMaps h))
               (strMaps h)).
Proof.
  intros Hb Ha. heap_unfold. rewrite Hb, Ha.
  destruct flag; simpl; by rewrite Hb.
Qed.

(** X14.  Boolean attributes are stored as the presence of an entry.  On a
    tag whose known attributes are a map, [SetSelected(s)] followed by
    [Selected()] returns [s] and [SetChecked(s)] followed by [Checked()]
    returns [s]; setting the flag stores the attribute with an empty value
    and clearing it deletes the entry. *)
Theorem flag_attribute_round_trip (l : loc) (h : Heap) (b : baseTag.t)
    (a : loc) (s : bool) :
  tags h !! l = Some b → baseTag.attrs b = Some a →
  (∃ h', OptionTag_SetSelected l s h = Ret ((), h')
         ∧ OptionTag_Selected l h' = Ret (s, h')
         ∧ intMap_of h' (Some a) !! kAttrSelected
           = if s then Some "" else None)
  ∧ (∃ h', CheckedInputTag_SetChecked l s h = Ret ((), h')
           ∧ CheckedInputTag_Checked l h' = Ret (s, h')
           ∧ intMap_of h' (Some a) !! kAttrChecked
             = if s then Some "" else None).
Proof.
  intros Hb Ha. split.
  - eexists. split.
    { unfold OptionTag_SetSelected.
      rewrite <-(setFlag_Ret l kAttrSelected s h b a Hb Ha).
      by destruct s. }
    unfold OptionTag_Selected. heap_unfold. simpl.
    rewrite lookup_insert_eq. simpl. rewrite Ha.
    unfold intMap_of. simpl. rewrite !lookup_insert_eq. simpl.
    destruct s; [by rewrite lookup_insert_eq|by rewrite lookup_delete_eq].
  - eexists. split; [by apply setFlag_Ret|].
    unfold CheckedInputTag_Checked. heap_unfold. simpl.
    rewrite lookup_insert_eq. simpl. rewrite Ha.
    unfold intMap_of. simpl. rewrite !lookup_insert_eq. simpl.
    destruct s; [by rewrite lookup_insert_eq|by rewrite lookup_delete_eq].
Qed.

Lemma flag_attribute_round_trip_witness :
  ∃ h', OptionTag_SetSelected 0 true Examples.div_span_text = Ret ((), h')
        ∧ OptionTag_Selected 0 h' = Ret (true, h').
Proof.
  pose proof (λ b, flag_attribute_round_trip 0 Examples.div_span_text b 0 true)
    as Hround.
  edestruct Hround as [(h' & Hset & Hget & _) _];
    [vm_compute; reflexivity|reflexivity|].
  by exists h'.
Defined.

(** X15.  A tag whose maps are nil cannot take attributes.  [Comment()] and
    [NewNull()] build such tags: on them [SetId] with a non-empty id and
    [SetAttribute] panic (an assignment to an entry of the nil map), while
    [SetId] with the empty id and [RemoveAttribute] (a delete on the nil map)
    return. *)
Theorem nil_maps_reject_attributes :
  (∀ h, ∃ t h1 b,
     htmlGen_Comment h = Ret (t, h1)
     ∧ tags h1 !! t.2 = Some b
     ∧ baseTag.attrs b = None ∧ baseTag.customAttrs b = None)
  ∧ (∀ h, ∃ t h1 b,
       NewNull h = Ret (t, h1)
       ∧ tags h1 !! t.2 = Some b
       ∧ baseTag.attrs b = None ∧ baseTag.customAttrs b = None)
  ∧ (∀ l h b,
       tags h !! l = Some b →
       baseTag.attrs b = None → baseTag.customAttrs b = None →
       (∀ keyId value, value ≠ "" → setAttr l keyId value h = Panic)
       ∧ (∀ key value, SetAttribute l key value h = Panic)
       ∧ (∀ keyId, ∃ h', setAttr l keyId "" h = Ret ((), h'))
       ∧ (∀ key, ∃ h', RemoveAttribute l key h = Ret ((), h'))).
Proof.
  split; [|split].
  - intros h. unfold htmlGen_Comment. heap_unfold. eexists _, _, _.
    split; [reflexivity|]. simpl. by rewrite lookup_insert_eq.
  - intros h. unfold NewNull, newNullTag. heap_unfold. eexists _, _, _.
    split; [reflexivity|]. simpl. by rewrite lookup_insert_eq.
  - intros l h b Hb Ha Hc. repeat split.
    + intros keyId value Hvalue. unfold setAttr. heap_unfold.
      rewrite Hb, Ha. destruct (decide _) as [Hlen|]; [|done].
      by destruct value.
    + intros key value. unfold SetAttribute. heap_unfold. by rewrite Hb, Hc.
    + intros keyId. unfold setAttr. heap_unfold. rewrite Hb, Ha. simpl.
      rewrite Hb. by eexists.
    + intros key. unfold RemoveAttribute. heap_unfold. rewrite Hb, Hc.
      rewrite Hb. by eexists.
Qed.

Lemma nil_maps_reject_attributes_witness :
  (c ← htmlGen_Comment; SetId c.2 "x") emptyHeap = Panic.
Proof.
  destruct (proj1 nil_maps_reject_attributes emptyHeap)
    as (t & h1 & b & Hrun & Hb & Ha & Hc).
  unfold mbind, M_bind. rewrite Hrun.
  apply (proj1 (proj2 (proj2 nil_maps_reject_attributes) t.2 h1 b Hb Ha Hc)).
  discriminate.
Defined.

Lemma Join_app cs ds sep :
  cs ≠ [] → ds ≠ [] →
  Str.Join (cs ++ ds) sep = Str.Join cs sep +:+ sep +:+ Str.Join ds sep.
Proof.
  intros Hcs Hds. induction cs as [|c cs IH]; [done|].
  destruct cs as [|c' cs].
  - simpl. by destruct ds.
  - change (Str.Join ((c :: c' :: cs) ++ ds) sep)
      with (c +:+ sep +:+ Str.Join ((c' :: cs) ++ ds) sep).
    rewrite IH by done.
    change (Str.Join (c :: c' :: cs) sep)
      with (c +:+ sep +:+ Str.Join (c' :: cs) sep).
    by rewrite !app_assoc'.
Qed.

Lemma with_isCacheClean_twice c1 c2 b :
  baseTag.with_isCacheClean c1 (baseTag.with_isCacheClean c2 b)
  = baseTag.with_isCacheClean c1 b.
Proof. done. Qed.

(** X16.  Classes add up.  On a tag whose known attributes are a map,
    [SetClasses(cs)] followed by [AddClasses(ds)] leaves the heap that
    [SetClasses] of the two lists together leaves, provided [cs] is empty or
    its classes joined by spaces are not the empty string.  (After
    [SetClasses] of one empty class name the class attribute is the empty
    string and [AddClasses] replaces it.) *)
Theorem SetClasses_then_AddClasses (l : loc) (h : Heap) (b : baseTag.t)
    (a : loc) (cs ds : list string) :
  tags h !! l = Some b → baseTag.attrs b = Some a →
  cs = [] ∨ Str.Join cs " " ≠ "" →
  (SetClasses l cs;; AddClasses l ds) h = SetClasses l (cs ++ ds) h.
Proof.
  intros Hb Ha Hcs. unfold SetClasses, AddClasses.
  destruct ds as [|d ds].
  { rewrite app_nil_r. heap_unfold. rewrite Hb, Ha.
    destruct (decide (length cs = 0)); simpl; by rewrite Hb. }
  destruct (decide (length (d :: ds) = 0)) as [|_]; [done|].
  assert (cs ≠ [] →
          Str.Join (cs ++ d :: ds) " "
          = Str.Join cs " " +:+ " " +:+ Str.Join (d :: ds) " ") as Hjoin.
  { intros ?. by apply Join_app. }
  remember (Str.Join (d :: ds) " ") as jd eqn:Hjd.
  remember (Str.Join (cs ++ d :: ds) " ") as jall eqn:Hjall.
  remember (Str.Join cs " ") as jc eqn:Hjc.
  heap_unfold. rewrite Hb, Ha.
  destruct (decide (length (cs ++ d :: ds) = 0)) as [Hlen|_].
  { rewrite List.length_app in Hlen. simpl in Hlen. lia. }
  destruct (decide (length cs = 0)) as [Hlen|Hlen]; simpl; rewrite Hb; simpl;
    rewrite !lookup_insert_eq; simpl; rewrite Ha;
    unfold intMap_of; simpl; rewrite !lookup_insert_eq; simpl.
  - destruct cs; [|done]. rewrite lookup_delete_eq. simpl.
    rewrite !lookup_insert_eq. simpl. simpl in Hjall. subst jall jd.
    by rewrite !insert_insert_eq, insert_delete_eq.
  - destruct Hcs as [->|Hne]; [done|].
    rewrite lookup_insert_eq. simpl.
    rewrite decide_True by (destruct jc; [done|simpl; lia]).
    simpl. rewrite !lookup_insert_eq. simpl.
    rewrite !insert_insert_eq, Hjoin by (by destruct cs).
    done.
Qed.

Lemma SetClasses_then_AddClasses_witness :
  (SetClasses 0 ["a"; "b"];; AddClasses 0 ["c"]) Examples.div_span_text
  = SetClasses 0 ["a"; "b"; "c"] Examples.div_span_text.
Proof.
  pose proof (λ b, SetClasses_then_AddClasses 0 Examples.div_span_text b 0
                     ["a"; "b"] ["c"]) as Hadd.
  eapply Hadd; [vm_compute; reflexivity|reflexivity|right; discriminate].
Defined.

(** X17.  Custom attributes.  On a tag whose custom attributes are a map,
    [SetAttribute(key, value)] stores the value under the key, and a
    following [RemoveAttribute(key)] leaves the custom attributes as they
    were without the key.  Neither touches a known attribute: an id set by
    [SetId] is not removed by [RemoveAttribute] of its name. *)
Theorem custom_attribute_round_trip (l : loc) (h : Heap) (b : baseTag.t)
    (c : loc) (key value : string) :
  tags h !! l = Some b → baseTag.customAttrs b = Some c →
  ∃ h1 h2,
    SetAttribute l key value h = Ret ((), h1)
    ∧ strMap_of h1 (Some c) !! key = Some value
    ∧ RemoveAttribute l key h1 = Ret ((), h2)
    ∧ strMap_of h2 (Some c) = delete key (strMap_of h (Some c))
    ∧ intMaps h1 = intMaps h ∧ intMaps h2 = intMaps h.
Proof.
  intros Hb Hc. unfold SetAttribute, RemoveAttribute. heap_unfold.
  rewrite Hb, Hc. simpl. rewrite Hb. eexists _, _.
  split; [reflexivity|]. simpl. rewrite !lookup_insert_eq. simpl.
  rewrite Hc. unfold strMap_of. simpl. rewrite !lookup_insert_eq. simpl.
  split; [by rewrite lookup_insert_eq|]. split; [reflexivity|]. simpl.
  rewrite lookup_insert_eq. simpl. by rewrite delete_insert_eq.
Qed.

Lemma custom_attribute_round_trip_witness :
  ∃ h1 h2,
    SetAttribute 0 "id" "y" Examples.div_span_text = Ret ((), h1)
    ∧ RemoveAttribute 0 "id" h1 = Ret ((), h2)
    ∧ intMaps h2 = intMaps Examples.div_span_text.
Proof.
  pose proof (λ b, custom_attribute_round_trip 0 Examples.div_span_text b 0
                     "id" "y") as Hround.
  edestruct Hround as (h1 & h2 & Hset & _ & Hremove & _ & _ & Hint);
    [vm_compute; reflexivity|reflexivity|].
  by exists h1, h2.
Defined.

(** ** Text leaves *)

Lemma html_EscapeString_app s1 s2 :
  html_EscapeString (s1 +:+ s2)
  = html_EscapeString s1 +:+ html_EscapeString s2.
Proof.
  induction s1 as [|c s1 IH]; [by rewrite !app_nil|].
  rewrite app_cons.
  cbn [html_EscapeString]. by rewrite IH, app_assoc'.
Qed.

(** X18.  Text appended to a text leaf is escaped piece by piece: [T(s)]
    appends the HTML-escaped [s] to the text of the leaf, so [T(s1)]
    followed by [T(s2)] leaves what [T] of the concatenation leaves;
    [TUnsafe(s)] appends [s] as it is; both without an argument change
    nothing. *)
Theorem TextTag_T_appends_escaped (l : loc) (h : Heap) (tx : TextTag.t) :
  texts h !! l = Some tx →
  (∀ s, ∃ h',
     TextTag_T l [s] h = Ret ((), h')
     ∧ TextTag_Text l h'
       = Ret (TextTag.text tx +:+ html_EscapeString s, h'))
  ∧ (∀ s1 s2,
       (TextTag_T l [s1];; TextTag_T l [s2]) h = TextTag_T l [s1 +:+ s2] h)
  ∧ (∀ s, ∃ h',
       TextTag_TUnsafe l [s] h = Ret ((), h')
       ∧ TextTag_Text l h' = Ret (TextTag.text tx +:+ s, h'))
  ∧ TextTag_T l [] h = Ret ((), h)
  ∧ TextTag_TUnsafe l [] h = Ret ((), h).
Proof.
  intros Htx. repeat split.
  - intros s. unfold TextTag_T, TextTag_Text. heap_unfold. rewrite Htx.
    eexists. split; [reflexivity|]. simpl. by rewrite lookup_insert_eq.
  - intros s1 s2. unfold TextTag_T. heap_unfold. rewrite Htx. simpl.
    rewrite lookup_insert_eq. simpl.
    by rewrite insert_insert_eq, html_EscapeString_app, app_assoc'.
  - intros s. unfold TextTag_TUnsafe, TextTag_Text. heap_unfold. rewrite Htx.
    eexists. split; [reflexivity|]. simpl. by rewrite lookup_insert_eq.
Qed.

Lemma TextTag_T_appends_escaped_witness :
  (TextTag_T 0 ["a<"];; TextTag_T 0 ["b"]) Examples.div_span_text
  = TextTag_T 0 ["a<b"] Examples.div_span_text.
Proof.
  pose proof (λ tx, TextTag_T_appends_escaped 0 Examples.div_span_text tx)
    as Happend.
  edestruct Happend as (_ & Htwice & _); [vm_compute; reflexivity|].
  apply (Htwice "a<" "b").
Defined.

Lemma bytes_app s1 s2 : Str.bytes (s1 +:+ s2) = Str.bytes s1 ++ Str.bytes s2.
Proof.
  unfold Str.bytes. induction s1 as [|c s1 IH]; [by rewrite app_nil|].
  rewrite app_cons. simpl. by rewrite IH.
Qed.

Lemma escape_no_markup s :
  Forall (λ c, is_markup c = false) (Str.bytes (html_EscapeString s)).
Proof.
  induction s as [|c s IH]; [constructor|].
  cbn [html_EscapeString]. rewrite bytes_app. apply Forall_app. split; [|done].
  unfold is_markup.
  destruct (Ascii.eqb c "&") eqn:H1; [by repeat constructor|].
  destruct (Ascii.eqb c "'") eqn:H2; [by repeat constructor|].
  destruct (Ascii.eqb c "<") eqn:H3; [by repeat constructor|].
  destruct (Ascii.eqb c ">") eqn:H4; [by repeat constructor|].
  destruct (Ascii.eqb c dquote) eqn:H5; [by repeat constructor|].
  repeat constructor. by rewrite H3, H4, H5, H2.
Qed.

Lemma chunks_no_markup env text spans from :
  Forall (λ chunk, Forall (λ c, is_markup c = false) (Str.bytes chunk))
    (Expansion.chunks false env text spans from).
Proof.
  revert from. induction spans as [|v spans IH]; intros from; simpl.
  { repeat constructor. apply escape_no_markup. }
  constructor; [apply escape_no_markup|]. constructor; [|apply IH].
  unfold Expansion.substitute. destruct (decide _).
  - by repeat constructor.
  - apply escape_no_markup.
Qed.

Lemma concat_no_markup chunks :
  Forall (λ chunk, Forall (λ c, is_markup c = false) (Str.bytes chunk))
    chunks →
  Forall (λ c, is_markup c = false) (Str.bytes (Str.concat chunks)).
Proof.
  induction 1 as [|chunk chunks Hc _ IH]; [constructor|].
  change (Str.concat (chunk :: chunks)) with (chunk +:+ Str.concat chunks).
  rewrite bytes_app. by apply Forall_app.
Qed.

(** X19.  Safe expansion cannot produce markup.  A variable-text leaf that
    is not unsafe and holds the parsed spans of its text writes, on a sink
    that accepts every write, an output without angle brackets and without
    quotes, whatever the text and whatever the values of the environment. *)
Theorem TextTagVar_safe_output_has_no_markup (tv : TextTagVar.t)
    (optEnv : list Environment) (w : Writer) :
  TextTagVar.vars tv = parseVars (TextTagVar.text tv) →
  TextTagVar.isUnsafe tv = false →
  reliable w →
  ∃ out w',
    TextTagVar.write tv optEnv w = Ret ((String.length out, None), w')
    ∧ written w' = written w +:+ out
    ∧ Forall (λ c, is_markup c = false) (Str.bytes out).
Proof.
  intros Hvars Hsafe Hrel.
  rewrite write_parsed, write_chunks_reliable by done.
  eexists _, _. split; [reflexivity|]. split; [done|].
  rewrite Hsafe. apply concat_no_markup, chunks_no_markup.
Qed.

Lemma TextTagVar_safe_output_has_no_markup_witness :
  ∃ out w',
    TextTagVar.write (NewTextTagVar "<b>$x</b>")
      [ {[ "x" := StringValue "<script>" ]} ] bytes_Buffer
    = Ret ((String.length out, None), w')
    ∧ written w' = "" +:+ out
    ∧ Forall (λ c, is_markup c = false) (Str.bytes out).
Proof.
  apply (TextTagVar_safe_output_has_no_markup (NewTextTagVar "<b>$x</b>"));
    [reflexivity|reflexivity|by intros i s].
Defined.

(** X20.  [SetText] replaces the text and keeps the spans that were parsed
    when the leaf was built.  When the original text had no dollar, the new
    text is written in one piece (escaped unless unsafe) and its variables
    are not expanded.  When the new text is shorter than the offset of the
    first span of the original text, [write] panics on the first slice. *)
Theorem SetText_keeps_spans :
  (∀ text s unsafe optEnv w,
     "$"%char ∉ Str.bytes text →
     TextTagVar.write
       (TextTagVar.SetText s (TextTagVar.SetUnsafe unsafe (NewTextTagVar text)))
       optEnv w
     = write_chunks [if unsafe then s else html_EscapeString s] 0 w)
  ∧ (∀ tv v vs s optEnv w,
       TextTagVar.vars tv = v :: vs →
       String.length s < Var.startOffset v →
       TextTagVar.write (TextTagVar.SetText s tv) optEnv w = Panic).
Proof.
  split.
  - intros text s unsafe optEnv w Hno. unfold TextTagVar.write. simpl.
    unfold parseVars. rewrite parseVars_loop_no_dollar by done. simpl.
    rewrite slice_from_Some by lia. by rewrite bind_checked_Some.
  - intros tv v vs s optEnv w Hvars Hlen. unfold TextTagVar.write. simpl.
    rewrite Hvars. simpl. unfold Str.slice.
    replace (Var.startOffset v <=? String.length s)%nat with false; [done|].
    symmetry. apply Nat.leb_gt. lia.
Qed.

Lemma SetText_keeps_spans_witness :
  TextTagVar.write (TextTagVar.SetText "$x" (NewTextTagVar "plain"))
    [ {[ "x" := StringValue "v" ]} ] bytes_Buffer
  = write_chunks ["$x"] 0 bytes_Buffer
  ∧ TextTagVar.write (TextTagVar.SetText "hi" (NewTextTagVar "hello $name"))
      [] bytes_Buffer
    = Panic.
Proof.
  destruct SetText_keeps_spans as [Hplain Hpanic]. split.
  - apply (Hplain "plain" "$x" false).
    apply (bool_decide_unpack _). vm_compute. exact I.
  - eapply (Hpanic (NewTextTagVar "hello $name")); [reflexivity|simpl; lia].
Defined.

(** ** The attribute table *)

Lemma index_out_of_range table id :
  ¬ (0 ≤ id < Z.of_nat (length table))%Z → Const.index table id = None.
Proof.
  intros Hout. unfold Const.index.
  destruct (Z.leb_spec 0 id); [|done].
  apply lookup_ge_None_2. lia.
Qed.

(** X21.  A known attribute is written under its name in the table.  For
    every identifier from 0 up to [kAttrMAXCOUNT], [writeKeyIdValue] writes
    the name, an equals sign and the value between double quotes, the value
    as it is (it is not escaped), and returns the number of these bytes; the
    name is not empty and no two identifiers share a name.  For any other
    identifier the table lookup is out of range and [writeKeyIdValue]
    panics. *)
Theorem writeKeyIdValue_writes_named_attribute :
  (∀ keyId value w,
     (0 ≤ keyId < kAttrMAXCOUNT)%Z → reliable w →
     ∃ name,
       Const.index attrStringMap keyId = Some name
       ∧ name ≠ ""
       ∧ let out := name +:+ String "=" (String dquote "") +:+ value
                    +:+ String dquote "" in
         writeKeyIdValue keyId value w
         = Ret ((String.length out, None), absorb w out 4))
  ∧ (∀ id1 id2 name,
       Const.index attrStringMap id1 = Some name →
       Const.index attrStringMap id2 = Some name → id1 = id2)
  ∧ (∀ keyId value w,
       ¬ (0 ≤ keyId < kAttrMAXCOUNT)%Z →
       writeKeyIdValue keyId value w = Panic).
Proof.
  split; [|split].
  - intros keyId value w Hrange Hrel. exists (Pretty.name keyId).
    pose proof (index_attr_in_range keyId Hrange) as Hname.
    split; [done|]. split.
    + unfold Const.index in Hname. destruct (0 <=? keyId)%Z; [|done].
      apply list_elem_of_lookup_2 in Hname. intros Heq. rewrite Heq in Hname.
      revert Hname. apply (bool_decide_unpack _). vm_compute. exact I.
    + cbv zeta. rewrite writeKeyIdValue_in_range by done.
      by apply writeKeyValue_reliable.
  - apply index_attr_inj.
  - intros keyId value w Hout. unfold writeKeyIdValue.
    by rewrite index_out_of_range.
Qed.

Lemma writeKeyIdValue_writes_named_attribute_witness :
  ∃ name,
    Const.index attrStringMap kAttrId = Some name
    ∧ name ≠ ""
    ∧ writeKeyIdValue kAttrId "x" bytes_Buffer
      = Ret ((String.length (name +:+ String "=" (String dquote "") +:+ "x"
                             +:+ String dquote ""), None),
             absorb bytes_Buffer
               (name +:+ String "=" (String dquote "") +:+ "x"
                +:+ String dquote "") 4).
Proof.
  apply (proj1 writeKeyIdValue_writes_named_attribute kAttrId "x"
           bytes_Buffer); [done|by intros i s].
Defined.

(** ** Hidden tags and copies of wrappers *)

(** X22.  A hidden tag that is rendered by the methods of [baseTag] (a plain
    element, a body, an option) contributes nothing: in compact and in
    pretty mode the call returns the count 0 without an error and leaves the
    sink and the heap as they are; its children are not visited. *)
Theorem hidden_baseTag_writes_nothing (ord : MapOrder) (fuel : nat)
    (env : list Environment) (ty : dynType) (l : loc) (indent : nat)
    (s : St) (b : baseTag.t) :
  ty = TBase ∨ ty = TBody ∨ ty = TOption →
  tags s.1 !! l = Some b → baseTag.hidden b = true →
  write ord (S fuel) env (TagW ty l) s = Ret ((0, None), s)
  ∧ writePretty ord (S fuel) env (TagW ty l) indent s = Ret ((0, None), s).
Proof.
  intros Hty Hb Hhidden.
  destruct Hty as [-> | [-> | ->]]; simpl;
    (split; [by eapply baseTag_write_hidden
            |by eapply baseTag_writePretty_hidden]).
Qed.

Lemma hidden_baseTag_writes_nothing_witness :
  ∃ h,
    (d ← htmlGen_Div; baseTag_Span d.2;; Hide d.2 true) emptyHeap
    = Ret ((), h)
    ∧ write canonical_order 1 [] (TagW TBase 0) (h, bytes_Buffer)
      = Ret ((0, None), (h, bytes_Buffer)).
Proof.
  eexists. split; [vm_compute; reflexivity|].
  eapply (hidden_baseTag_writes_nothing canonical_order 0 [] TBase 0 0);
    [by left|vm_compute; reflexivity|reflexivity].
Defined.

(** X23.  The copy of a comment or of a null wrapper takes nothing from its
    source: [Copy] returns a new tag of the same kind without children,
    without parent and with nil maps, and leaves every existing tag as it
    is.  The compact rendering of the copy of a comment is the empty
    comment. *)
Theorem Copy_of_wrapper_is_empty (ord : MapOrder) (l : loc) (h : Heap) :
  (∃ t h',
     Copy ord (TComment, l) h = Ret ((TComment, t), h')
     ∧ tags h !! t = None
     ∧ tags h' !! t = Some baseTag.zero
     ∧ (∀ l0, l0 ≠ t → tags h' !! l0 = tags h !! l0)
     ∧ ∀ fuel env w,
         reliable w →
         write ord (S fuel) env (TagW TComment t) (h', w)
         = Ret ((9, None), (h', absorb w "<!--  -->" 2)))
  ∧ (∃ t h',
       Copy ord (TNull, l) h = Ret ((TNull, t), h')
       ∧ tags h !! t = None
       ∧ tags h' !! t
         = Some (baseTag.mk kTagTypeNull None None [] None false "" false)
       ∧ (∀ l0, l0 ≠ t → tags h' !! l0 = tags h !! l0)).
Proof.
  split.
  - unfold Copy, commentTag_Copy. heap_unfold. eexists _, _.
    split; [reflexivity|]. simpl. split; [apply fresh_lookup_None|].
    split; [by rewrite lookup_insert_eq|].
    split; [by intros l0 ?; rewrite lookup_insert_ne|].
    intros fuel env w Hrel. simpl. unfold commentTag_write, inH.
    heap_unfold. simpl. rewrite lookup_insert_eq. simpl.
    unfold inW, tally. simpl. rewrite io_WriteString_reliable by done.
    simpl. rewrite io_WriteString_reliable by exact Hrel. simpl.
    unfold absorb. rewrite app_assoc'. simpl.
    by replace (calls w + 2) with (S (S (calls w))) by lia.
  - unfold Copy, nullTag_Copy, newNullTag. heap_unfold. eexists _, _.
    split; [reflexivity|]. simpl. split; [apply fresh_lookup_None|].
    split; [by rewrite lookup_insert_eq|].
    by intros l0 ?; rewrite lookup_insert_ne.
Qed.

Lemma Copy_of_wrapper_is_empty_witness :
  ∃ t h',
    Copy canonical_order (TComment, 0) emptyHeap = Ret ((TComment, t), h')
    ∧ write canonical_order 1 [] (TagW TComment t) (h', bytes_Buffer)
      = Ret ((9, None), (h', absorb bytes_Buffer "<!--  -->" 2)).
Proof.
  destruct (proj1 (Copy_of_wrapper_is_empty canonical_order 0 emptyHeap))
    as (t & h' & Hcopy & _ & _ & _ & Hwrite).
  exists t, h'. split; [exact Hcopy|].
  apply (Hwrite 0 [] bytes_Buffer). by intros i s.
Defined.

(** ** Rendering a second time *)

Lemma alike_refl w : alike w w.
Proof. by intros i s. Qed.

Lemma reliable_alike w w2 : reliable w → reliable w2 → alike w w2.
Proof. intros H1 H2 i s. by rewrite H1, H2. Qed.

Lemma echoes_ret {A} (a : A) : echoes (mret a).
Proof.
  intros w w2 Hw. split; [done|]. split; [done|].
  exists "". by rewrite !app_empty_r.
Qed.

Lemma echoes_bind {A B} (m : M Writer A) (k : A → M Writer B) :
  echoes m → (∀ a, echoes (k a)) → echoes (m ≫= k).
Proof.
  intros Hm Hk w w2 Hw. unfold mbind, M_bind. specialize (Hm w w2 Hw).
  destruct (m w) as [[a w1]| |], (m w2) as [[a2 w21]| |]; try done.
  destruct Hm as (<- & Hw1 & str1 & Hs1 & Hs21).
  specialize (Hk a w1 w21 Hw1).
  destruct (k a w1) as [[b w']| |], (k a w21) as [[b2 w2']| |]; try done.
  destruct Hk as (<- & Hw' & str2 & Hs2 & Hs22).
  split; [done|]. split; [done|]. exists (str1 +:+ str2).
  by rewrite Hs2, Hs22, Hs1, Hs21, !app_assoc'.
Qed.

Lemma echoes_checked {A} (o : option A) : echoes (checked o).
Proof. destruct o; [apply echoes_ret|done]. Qed.

Lemma echoes_tally n (m : M Writer result) k :
  echoes m → (∀ n', echoes (k n')) → echoes (tally n m k).
Proof.
  intros Hm Hk w w2 Hw. unfold tally. specialize (Hm w w2 Hw).
  destruct (m w) as [[[c e] w1]| |], (m w2) as [[[c2 e2] w21]| |]; try done.
  destruct Hm as ([= <- <-] & Hw1 & str1 & Hs1 & Hs21).
  destruct e as [e|].
  { split; [done|]. split; [done|]. by exists str1. }
  specialize (Hk (n + c) w1 w21 Hw1).
  destruct (k (n + c) w1) as [[b w']| |], (k (n + c) w21) as [[b2 w2']| |];
    try done.
  destruct Hk as (<- & Hw' & str2 & Hs2 & Hs22).
  split; [done|]. split; [done|]. exists (str1 +:+ str2).
  by rewrite Hs2, Hs22, Hs1, Hs21, !app_assoc'.
Qed.

Lemma echoes_io_WriteString s : echoes (io_WriteString s).
Proof.
  intros w w2 Hw. unfold io_WriteString.
  pose proof (Hw 0 s) as Hp. rewrite !Nat.add_0_r in Hp. rewrite Hp.
  assert (∀ wr wr2 : Writer,
            calls wr = S (calls w) → policy wr = policy w →
            calls wr2 = S (calls w2) → policy wr2 = policy w2 →
            alike wr wr2) as Hnext.
  { intros wr wr2 Hc Hpo Hc2 Hpo2 i s'. rewrite Hc, Hpo, Hc2, Hpo2.
    specialize (Hw (S i) s'). by rewrite <-!Nat.add_succ_comm in Hw. }
  destruct (policy w (calls w) s) as [[k e]|].
  - split; [done|]. split; [by apply Hnext|]. by eexists.
  - split; [done|]. split; [by apply Hnext|]. by eexists.
Qed.

Lemma echoes_write_loop tv env vars offset count :
  echoes (TextTagVar.write_loop tv env vars offset count).
Proof.
  revert offset count. induction vars as [|v vars IH]; intros offset count;
    simpl.
  - apply echoes_bind; [apply echoes_checked|intros text].
    apply echoes_tally; [apply echoes_io_WriteString|intros n].
    apply echoes_ret.
  - apply echoes_bind; [apply echoes_checked|intros text].
    apply echoes_tally; [apply echoes_io_WriteString|intros n].
    apply echoes_bind; [apply echoes_checked|intros varName].
    apply echoes_bind; [apply echoes_checked|intros varName'].
    destruct (decide _);
      (apply echoes_tally; [apply echoes_io_WriteString|intros n']; apply IH).
Qed.

(** *** The open tag is rendered into a buffer without errors *)

Lemma unfailing_ret n : unfailing (mret (n, None)).
Proof. by intros w Hw. Qed.

Lemma unfailing_io_WriteString s : unfailing (io_WriteString s).
Proof.
  intros w Hw. unfold io_WriteString. rewrite Hw. intros i s'. apply Hw.
Qed.

Lemma unfailing_tally n (m : M Writer result) k :
  unfailing m → (∀ n', unfailing (k n')) → unfailing (tally n m k).
Proof.
  intros Hm Hk w Hw. unfold tally. specialize (Hm w Hw).
  destruct (m w) as [[[c [e|]] w1]| |]; try done.
  by apply Hk.
Qed.

Lemma unfailing_checked {A} (o : option A) k :
  (∀ a, unfailing (k a)) → unfailing (checked o ≫= k).
Proof.
  intros Hk w Hw. destruct o as [a|]; [|done]. by apply (Hk a).
Qed.

Lemma unfailing_for_each {A} (l : list A) body n k :
  (∀ x n continue, (∀ n', unfailing (continue n')) →
     unfailing (body x n continue)) →
  (∀ n', unfailing (k n')) →
  unfailing (for_each l body n k).
Proof.
  intros Hbody Hk. revert n. induction l as [|x l IH]; intros n; simpl.
  - apply Hk.
  - apply Hbody. intros n'. apply IH.
Qed.

Lemma unfailing_writeKeyValue key value : unfailing (writeKeyValue key value).
Proof.
  unfold writeKeyValue.
  repeat (apply unfailing_tally; [apply unfailing_io_WriteString|intros ?]).
  apply unfailing_ret.
Qed.

Lemma unfailing_writeOpenTagLead ord attrs customAttrs tagStr :
  unfailing (writeOpenTagLead ord attrs customAttrs tagStr).
Proof.
  unfold writeOpenTagLead.
  repeat (apply unfailing_tally; [apply unfailing_io_WriteString|intros ?]).
  apply unfailing_for_each.
  { intros kv n continue Hcont.
    apply unfailing_tally; [apply unfailing_io_WriteString|intros ?].
    apply unfailing_tally; [|done].
    apply unfailing_checked. intros name. apply unfailing_writeKeyValue. }
  intros n. apply unfailing_for_each.
  { intros kv n0 continue Hcont.
    apply unfailing_tally; [apply unfailing_io_WriteString|intros ?].
    apply unfailing_tally; [apply unfailing_writeKeyValue|done]. }
  intros n0. apply unfailing_ret.
Qed.

Lemma render_open_no_error ord finish attrs customAttrs tagStr s e :
  render_open ord finish attrs customAttrs tagStr ≠ Ret (s, Some e).
Proof.
  unfold render_open.
  pose proof (unfailing_writeOpenTagLead ord attrs customAttrs tagStr
                bytes_Buffer (λ _ _, eq_refl)) as Hlead.
  destruct (writeOpenTagLead _ _ _ _ _) as [[[n [e1|]] tmp]| |]; try done.
  pose proof (unfailing_io_WriteString finish tmp Hlead) as Hfinish.
  by destruct (io_WriteString finish tmp) as [[[n2 [e2|]] tmp2]| |].
Qed.

Global Instance settled_preorder : PreOrder settled.
Proof.
  split.
  - intros h. split; [reflexivity|done].
  - intros h1 h2 h3 [Hr1 Hc1] [Hr2 Hc2]. split; [by etrans|].
    intros l b Hb Hclean. apply Hc2; [|done]. by apply Hc1.
Qed.

Lemma replays_ret {A} (a : A) : replays (mret a) (mret a).
Proof.
  intros h w a' h' w' [= <- <- <-]. split; [reflexivity|].
  intros hf w2 _ Hw. exists w2, "". split; [done|]. split; [done|].
  by rewrite !app_empty_r.
Qed.

Lemma replays_tally n (m m' : M St result) k k' :
  replays m m' → (∀ n', replays (k n') (k' n')) →
  replays (tally n m k) (tally n m' k').
Proof.
  intros Hm Hk h w r h' w'. unfold tally.
  destruct (m (h, w)) as [[[c e] [h1 w1]]| |] eqn:Hrun1; [|done..].
  destruct (Hm _ _ _ _ _ Hrun1) as [Hs1 Hre1]. destruct e as [e|].
  - intros [= <- <- <-]. split; [done|]. intros hf w2 Hhf Hw.
    destruct (Hre1 hf w2 Hhf Hw) as (w21 & str & Hrun2 & ? & ? & ?).
    exists w21, str. by rewrite Hrun2.
  - intros Hrun. destruct (Hk _ _ _ _ _ _ Hrun) as [Hs2 Hre2].
    split; [by etrans|]. intros hf w2 Hhf Hw.
    destruct (Hre1 hf w2) as (w21 & str1 & Hrun21 & Hw1 & Hstr1 & Hstr21);
      [by etrans|done|].
    destruct (Hre2 hf w21 Hhf Hw1) as (w2' & str2 & Hrun22 & Hw' & Hstr2 & Hstr22).
    exists w2', (str1 +:+ str2). rewrite Hrun21. split; [done|].
    split; [done|]. by rewrite Hstr2, Hstr22, Hstr1, Hstr21, !app_assoc'.
Qed.

Lemma replays_for_each {A} (l : list A) body body' n k k' :
  (∀ x n continue continue',
     (∀ n', replays (continue n') (continue' n')) →
     replays (body x n continue) (body' x n continue')) →
  (∀ n', replays (k n') (k' n')) →
  replays (for_each l body n k) (for_each l body' n k').
Proof.
  intros Hbody Hk. revert n. induction l as [|x l IH]; intros n; simpl.
  - apply Hk.
  - apply Hbody. intros n'. apply IH.
Qed.

Lemma replays_inW {A} (m : M Writer A) : echoes m → replays (inW m) (inW m).
Proof.
  intros Hm h w a h' w'. unfold inW. simpl.
  destruct (m w) as [[a1 w1]| |] eqn:Hrun; [|done..].
  intros [= <- <- <-]. split; [reflexivity|]. intros hf w2 _ Hw.
  specialize (Hm w w2 Hw). rewrite Hrun in Hm.
  destruct (m w2) as [[a2 w2']| |]; try done.
  destruct Hm as (<- & Hw' & str & Hstr & Hstr2). by exists w2', str.
Qed.

Lemma replays_checked {A} (o : option A) (k k' : A → M St result) :
  (∀ a, replays (k a) (k' a)) → replays (checked o ≫= k) (checked o ≫= k').
Proof. intros Hk. destruct o as [a|]; [apply Hk|done]. Qed.

Lemma replays_load_text l (k k' : TextTag.t → M St result) :
  (∀ tx, replays (k tx) (k' tx)) →
  replays (inH (load_text l) ≫= k) (inH (load_text l) ≫= k').
Proof.
  intros Hk h w a h' w'. unfold mbind, M_bind, inH, load_text. simpl.
  destruct (texts h !! l) as [tx|] eqn:Htx; [|done]. intros Hrun.
  destruct (Hk tx _ _ _ _ _ Hrun) as [Hs Hre]. split; [done|].
  intros hf w2 Hhf Hw.
  assert (texts hf = texts h) as ->.
  { destruct Hs as [(_ & <- & _) _]. by destruct Hhf as [(_ & <- & _) _]. }
  rewrite Htx. by apply Hre.
Qed.

Lemma replays_load_textVar l (k k' : TextTagVar.t → M St result) :
  (∀ tv, replays (k tv) (k' tv)) →
  replays (inH (load_textVar l) ≫= k) (inH (load_textVar l) ≫= k').
Proof.
  intros Hk h w a h' w'. unfold mbind, M_bind, inH, load_textVar. simpl.
  destruct (textVars h !! l) as [tv|] eqn:Htv; [|done]. intros Hrun.
  destruct (Hk tv _ _ _ _ _ Hrun) as [Hs Hre]. split; [done|].
  intros hf w2 Hhf Hw.
  assert (textVars hf = textVars h) as ->.
  { destruct Hs as [(_ & _ & <- & _) _].
    by destruct Hhf as [(_ & _ & <- & _) _]. }
  rewrite Htv. by apply Hre.
Qed.

Lemma settled_lookup h hf l b :
  settled h hf → tags h !! l = Some b →
  ∃ bf, tags hf !! l = Some bf ∧ same_shape b bf.
Proof.
  intros [[Ht _] _] Hb. specialize (Ht l). rewrite Hb in Ht.
  inversion Ht; subst. by eexists.
Qed.

Lemma replays_load_shape l (k k' : baseTag.t → M St result) :
  (∀ b bf, same_shape b bf → replays (k b) (k' bf)) →
  replays (inH (load_tag l) ≫= k) (inH (load_tag l) ≫= k').
Proof.
  intros Hk h w a h' w'. unfold mbind, M_bind, inH, load_tag. simpl.
  destruct (tags h !! l) as [b|] eqn:Hb; [|done]. intros Hrun.
  destruct (Hk b b (same_shape_refl b) _ _ _ _ _ Hrun) as [Hs _].
  split; [done|]. intros hf w2 Hhf Hw.
  destruct (settled_lookup h hf l b) as (bf & Hbf & Hshape); [by etrans|done|].
  rewrite Hbf. by apply (Hk b bf Hshape _ _ _ _ _ Hrun).
Qed.

Lemma refresh_cache_outcome rc l tagStr h b :
  tags h !! l = Some b →
  (∀ s e, rc (intMap_of h (baseTag.attrs b))
            (strMap_of h (baseTag.customAttrs b)) tagStr ≠ Ret (s, Some e)) →
  (∃ s, refresh_cache rc l tagStr h
        = Ret (None,
               with_tags
                 <[l := baseTag.with_isCacheClean true
                          (baseTag.with_cacheOpen s b)]> h))
  ∨ refresh_cache rc l tagStr h = Panic
  ∨ refresh_cache rc l tagStr h = OutOfFuel.
Proof.
  intros Hb Hrc.
  destruct (rc (intMap_of h (baseTag.attrs b))
              (strMap_of h (baseTag.customAttrs b)) tagStr)
    as [[s [e|]]| |] eqn:Hout.
  - by destruct (Hrc s e).
  - left. exists s. by apply refresh_cache_Ret.
  - right; left. unfold refresh_cache, pure. heap_unfold.
    by rewrite Hb, Hout.
  - right; right. unfold refresh_cache, pure. heap_unfold.
    by rewrite Hb, Hout.
Qed.

Lemma settled_refresh h l b s :
  tags h !! l = Some b → baseTag.isCacheClean b = false →
  settled h
    (with_tags
       <[l := baseTag.with_isCacheClean true (baseTag.with_cacheOpen s b)]> h).
Proof.
  intros Hb Hdirty. split.
  - split; [|done]. intros l0. simpl.
    destruct (decide (l0 = l)) as [->|Hne].
    + rewrite lookup_insert_eq, Hb. by constructor.
    + rewrite lookup_insert_ne by done. by destruct (tags h !! l0); constructor.
  - intros l0 b0 Hb0 Hclean. simpl.
    destruct (decide (l0 = l)) as [->|Hne]; [congruence|].
    by rewrite lookup_insert_ne.
Qed.

(** The part of [baseTag.write] and [singleTag.write] that brings the cache
    up to date and goes on with the tag as it is then. *)
Lemma replays_open_block rc rc' l (K K' : baseTag.t → string → M St result)
    b h w a h' w' :
  (∀ attrs customAttrs tagStr s e,
     rc attrs customAttrs tagStr ≠ Ret (s, Some e)) →
  (∀ b1 tagStr, replays (K b1 tagStr) (K' b1 tagStr)) →
  tags h !! l = Some b →
  (tagStr ← checked (Const.index tagTypeStringMap (baseTag.tagType b));
   err ← (if baseTag.isCacheClean b then mret None
          else inH (refresh_cache rc l tagStr));
   match err with
   | Some err => mret (0, Some err)
   | None => b ← inH (load_tag l); K b tagStr
   end) (h, w) = Ret (a, (h', w')) →
  settled h h'
  ∧ ∀ hf w2 bf, settled h' hf → alike w w2 → tags hf !! l = Some bf →
      same_shape b bf →
      ∃ w2' str,
        (tagStr ← checked (Const.index tagTypeStringMap (baseTag.tagType bf));
         err ← (if baseTag.isCacheClean bf then mret None
                else inH (refresh_cache rc' l tagStr));
         match err with
         | Some err => mret (0, Some err)
         | None => b ← inH (load_tag l); K' b tagStr
         end) (hf, w2) = Ret (a, (hf, w2'))
        ∧ alike w' w2'
        ∧ written w' = written w +:+ str
        ∧ written w2' = written w2 +:+ str.
Proof.
  intros Hrc HK Hb.
  destruct (Const.index tagTypeStringMap (baseTag.tagType b))
    as [tagStr|] eqn:Htag; [|done].
  rewrite bind_checked_Some.
  assert (∀ h1 b1,
            tags h1 !! l = Some b1 → baseTag.isCacheClean b1 = true →
            same_shape b b1 → settled h h1 →
            (b ← inH (load_tag l); K b tagStr) (h1, w) = Ret (a, (h', w')) →
            settled h h'
            ∧ ∀ hf w2 bf, settled h' hf → alike w w2 → tags hf !! l = Some bf →
                same_shape b bf →
                ∃ w2' str,
                  (tagStr ← checked
                     (Const.index tagTypeStringMap (baseTag.tagType bf));
                   err ← (if baseTag.isCacheClean bf then mret None
                          else inH (refresh_cache rc' l tagStr));
                   match err with
                   | Some err => mret (0, Some err)
                   | None => b ← inH (load_tag l); K' b tagStr
                   end) (hf, w2) = Ret (a, (hf, w2'))
                  ∧ alike w' w2'
                  ∧ written w' = written w +:+ str
                  ∧ written w2' = written w2 +:+ str) as Hgo.
  { intros h1 b1 Hb1 Hclean Hshape Hs1.
    unfold mbind at 1, M_bind at 1, inH at 1, load_tag at 1. simpl.
    rewrite Hb1. intros Hrun.
    destruct (HK b1 tagStr _ _ _ _ _ Hrun) as [Hs2 Hre].
    split; [by etrans|]. intros hf w2 bf Hhf Hw Hbf Hshape'.
    assert (tags hf !! l = Some b1) as Hbf1.
    { destruct Hhf as [_ Hkeep], Hs2 as [_ Hkeep2].
      apply Hkeep; [|done]. by apply Hkeep2. }
    assert (bf = b1) as -> by congruence.
    destruct Hshape as (<- & _). rewrite Htag, bind_checked_Some.
    rewrite Hclean.
    unfold mbind, M_bind, mret, M_ret, inH, load_tag. simpl. rewrite Hbf1.
    by apply Hre. }
  destruct (baseTag.isCacheClean b) eqn:Hclean.
  - unfold mbind at 1, M_bind at 1, mret at 1, M_ret at 1.
    by apply (Hgo h b).
  - unfold mbind at 1, M_bind at 1, inH at 1. simpl.
    destruct (refresh_cache_outcome rc l tagStr h b Hb)
      as [[s ->]|[-> | ->]]; [by intros s e; apply Hrc| |done..].
    apply (Hgo _ (baseTag.with_isCacheClean true (baseTag.with_cacheOpen s b))).
    + simpl. by rewrite lookup_insert_eq.
    + done.
    + by repeat split.
    + by apply settled_refresh.
Qed.

Section replays_write.
Context (ord ord' : MapOrder).
Context (childWrite childWrite' : tagWriter → M St result).
Context (Hchild : ∀ w, replays (childWrite w) (childWrite' w)).

Lemma replays_children children n k k' :
  (∀ n', replays (k n') (k' n')) →
  replays
    (for_each children (λ childTag n continue,
       tally n (childWrite childTag) (λ n, continue n)) n k)
    (for_each children (λ childTag n continue,
       tally n (childWrite' childTag) (λ n, continue n)) n k').
Proof.
  intros Hk. apply replays_for_each; [|done].
  intros x m continue continue' Hcont. by apply replays_tally.
Qed.

Lemma replays_baseTag_write_cached b tagStr :
  replays (baseTag_write_cached childWrite b tagStr)
    (baseTag_write_cached childWrite' b tagStr).
Proof.
  unfold baseTag_write_cached.
  apply replays_tally; [apply replays_inW, echoes_io_WriteString|intros n].
  apply replays_children. intros n1.
  repeat (apply replays_tally;
            [apply replays_inW, echoes_io_WriteString|intros ?]).
  apply replays_ret.
Qed.

Lemma replays_baseTag_write l :
  replays (baseTag_write ord childWrite l) (baseTag_write ord' childWrite' l).
Proof.
  intros h w a h' w'. unfold baseTag_write.
  unfold mbind at 1, M_bind at 1, inH at 1, load_tag at 1. simpl.
  destruct (tags h !! l) as [b|] eqn:Hb; [|done].
  destruct (baseTag.hidden b) eqn:Hhidden.
  - intros [= <- <- <-]. split; [reflexivity|]. intros hf w2 Hhf Hw.
    destruct (settled_lookup h hf l b Hhf Hb)
      as (bf & Hbf & _ & _ & _ & _ & _ & Hh).
    exists w2, "". unfold mbind, M_bind, inH, load_tag. simpl.
    rewrite Hbf, <-Hh, Hhidden. split; [done|]. split; [done|].
    by rewrite !app_empty_r.
  - intros Hrun.
    apply (replays_open_block (baseTag_renderCacheOpen ord)
             (baseTag_renderCacheOpen ord') l
             (baseTag_write_cached childWrite)
             (baseTag_write_cached childWrite') b) in Hrun;
      [|intros; apply render_open_no_error
       |apply replays_baseTag_write_cached|done].
    destruct Hrun as [Hs Hre]. split; [done|]. intros hf w2 Hhf Hw.
    destruct (settled_lookup h hf l b) as (bf & Hbf & Hshape);
      [by etrans|done|].
    destruct (Hre hf w2 bf Hhf Hw Hbf Hshape) as (w2' & str & Hrun2 & ?).
    exists w2', str. split; [|done].
    unfold mbind at 1, M_bind at 1, inH at 1, load_tag at 1. simpl.
    rewrite Hbf. destruct Hshape as (_ & _ & _ & _ & _ & <-).
    rewrite Hhidden. exact Hrun2.
Qed.

Lemma replays_singleTag_write l :
  replays (singleTag_write ord l) (singleTag_write ord' l).
Proof.
  intros h w a h' w'. unfold singleTag_write.
  unfold mbind at 1, M_bind at 1, inH at 1, load_tag at 1. simpl.
  destruct (tags h !! l) as [b|] eqn:Hb; [|done]. intros Hrun.
  apply (replays_open_block (singleTag_renderCacheOpen ord)
           (singleTag_renderCacheOpen ord') l
           singleTag_write_cached singleTag_write_cached b) in Hrun;
    [|intros; apply render_open_no_error
     |intros; apply replays_inW, echoes_io_WriteString|done].
  destruct Hrun as [Hs Hre]. split; [done|]. intros hf w2 Hhf Hw.
  destruct (settled_lookup h hf l b) as (bf & Hbf & Hshape);
    [by etrans|done|].
  destruct (Hre hf w2 bf Hhf Hw Hbf Hshape) as (w2' & str & Hrun2 & ?).
  exists w2', str. split; [|done].
  unfold mbind at 1, M_bind at 1, inH at 1, load_tag at 1. simpl.
  rewrite Hbf. exact Hrun2.
Qed.

Lemma replays_commentTag_write l :
  replays (commentTag_write childWrite l) (commentTag_write childWrite' l).
Proof.
  unfold commentTag_write. apply replays_load_shape.
  intros b bf (_ & _ & _ & <- & _).
  apply replays_tally; [apply replays_inW, echoes_io_WriteString|intros n].
  apply replays_children. intros n1.
  apply replays_tally; [apply replays_inW, echoes_io_WriteString|intros ?].
  apply replays_ret.
Qed.

Lemma replays_htmlTag_write l :
  replays (htmlTag_write ord childWrite l) (htmlTag_write ord' childWrite' l).
Proof.
  unfold htmlTag_write.
  apply replays_tally; [apply replays_inW, echoes_io_WriteString|intros n].
  apply replays_tally; [apply replays_baseTag_write|intros ?].
  apply replays_ret.
Qed.

Lemma replays_nullTag_write l :
  replays (nullTag_write childWrite l) (nullTag_write childWrite' l).
Proof.
  unfold nullTag_write. apply replays_load_shape.
  intros b bf (_ & _ & _ & <- & _).
  apply replays_children. intros n1. apply replays_ret.
Qed.

End replays_write.

Lemma replays_write ord ord' fuel env w :
  replays (write ord fuel env w) (write ord' fuel env w).
Proof.
  revert w. induction fuel as [|fuel IH]; intros w; [done|]. simpl.
  destruct w as [ty l|l|l].
  - destruct ty;
      auto using replays_baseTag_write, replays_singleTag_write,
        replays_commentTag_write, replays_htmlTag_write,
        replays_nullTag_write.
  - apply replays_load_text. intros tx.
    apply replays_inW, echoes_io_WriteString.
  - apply replays_load_textVar. intros tv.
    apply replays_inW, echoes_write_loop.
Qed.

(** X24.  A second compact rendering repeats the first.  When [write]
    returns, with or without an error, rendering the same tag again on the
    heap it left, on a sink that treats the writes alike, returns the same
    count and error and writes the same bytes; it leaves the heap as it is,
    and it does so for every iteration order of the maps, because every
    opening tag it writes comes from the cache. *)
Theorem write_again_writes_the_same (ord ord' : MapOrder) (fuel : nat)
    (env : list Environment) (t : tagWriter) (h h' : Heap) (w w' w2 : Writer)
    (r : result) :
  write ord fuel env t (h, w) = Ret (r, (h', w')) →
  alike w w2 →
  ∃ w2' str,
    write ord' fuel env t (h', w2) = Ret (r, (h', w2'))
    ∧ written w' = written w +:+ str
    ∧ written w2' = written w2 +:+ str.
Proof.
  intros Hrun Hw.
  destruct (replays_write ord ord' fuel env t _ _ _ _ _ Hrun) as [_ Hre].
  destruct (Hre h' w2) as (w2' & str & Hrun2 & _ & Hstr & Hstr2);
    [reflexivity|done|].
  by exists w2', str.
Qed.

Lemma write_again_writes_the_same_witness :
  ∃ s1,
    write reversed_order 1 [] (TagW TBase 0)
      (Examples.div_id_title, bytes_Buffer)
    = Ret ((28, None), s1)
    ∧ ∃ w2' str,
        write canonical_order 1 [] (TagW TBase 0) (s1.1, bytes_Buffer)
        = Ret ((28, None), (s1.1, w2'))
        ∧ written s1.2 = "" +:+ str
        ∧ written w2' = "" +:+ str.
Proof.
  eexists. split; [vm_compute; reflexivity|].
  eapply (write_again_writes_the_same reversed_order canonical_order 1 []
            (TagW TBase 0) Examples.div_id_title _ bytes_Buffer _
            bytes_Buffer);
    [vm_compute; reflexivity|apply alike_refl].
Defined.

(** ** The opening tag of compact mode *)

Lemma concat_attributes_app (l1 l2 : list (string * string)) :
  Str.concat (Pretty.attribute <$> (l1 ++ l2))
  = Str.concat (Pretty.attribute <$> l1)
    +:+ Str.concat (Pretty.attribute <$> l2).
Proof.
  induction l1 as [|kv l1 IH]; [by rewrite app_nil|].
  rewrite <-app_comm_cons, !fmap_cons.
  change (Str.concat (?a :: ?l)) with (a +:+ Str.concat l).
  by rewrite IH, app_assoc'.
Qed.

(** X25.  The opening tag of compact mode.  With every known attribute in
    range, [writeOpenTagLead] writes on a sink that accepts every write the
    angle bracket and the tag name, then every known attribute under its
    table name, then every custom attribute, each entry of the two maps
    exactly once in the order the maps are ranged over, and returns the
    number of these bytes.  The cached opening tag of [renderCacheOpen] is
    this string closed by the angle bracket, for a self-closing tag by a
    space, a slash and the angle bracket. *)
Theorem writeOpenTagLead_known_then_custom (ord : MapOrder)
    (attrs : gmap Z string) (customAttrs : gmap string string)
    (tagStr : string) (w : Writer) :
  valid_order ord → Pretty.known_in_range attrs → reliable w →
  let known := range_int ord attrs in
  let custom := range_str ord customAttrs in
  let out :=
    Pretty.open_tag_lead tagStr
      (((λ kv, (Pretty.name kv.1, kv.2)) <$> known) ++ custom) in
  known ≡ₚ map_to_list attrs
  ∧ custom ≡ₚ map_to_list customAttrs
  ∧ (∃ w', writeOpenTagLead ord attrs customAttrs tagStr w
           = Ret ((String.length out, None), w')
           ∧ written w' = written w +:+ out)
  ∧ baseTag_renderCacheOpen ord attrs customAttrs tagStr
    = Ret (out +:+ ">", None)
  ∧ singleTag_renderCacheOpen ord attrs customAttrs tagStr
    = Ret (out +:+ " />", None).
Proof.
  intros Hv Hr Hw known custom out.
  assert (∀ w0, reliable w0 →
            ∃ c, writeOpenTagLead ord attrs customAttrs tagStr w0
                 = Ret ((String.length out, None), absorb w0 out c))
    as Hlead.
  { intros w0 Hw0. unfold writeOpenTagLead, writeRune.
    rewrite tally_write_reliable by done.
    rewrite tally_write_reliable by by apply reliable_absorb.
    rewrite absorb_absorb.
    pose proof (range_int_in_range ord attrs Hv Hr) as Hin.
    rewrite Forall_forall in Hin.
    rewrite (for_each_attributes (range_int ord attrs) _
               (λ kv, (Pretty.name kv.1, kv.2)))
      by first [by apply reliable_absorb
               | intros kv n K w1 Hkv Hw1;
                 by apply known_attribute_reliable; [apply Hin|]].
    rewrite absorb_absorb.
    rewrite (for_each_attributes (range_str ord customAttrs) _ (λ kv, kv))
      by first [by apply reliable_absorb
               | intros [k v] n K w1 Hkv Hw1; by apply attribute_reliable].
    rewrite absorb_absorb. unfold mret, M_ret.
    rewrite list_fmap_id.
    assert (out = ("<" +:+ tagStr)
                  +:+ Str.concat
                        (Pretty.attribute
                           <$> ((λ kv, (Pretty.name kv.1, kv.2))
                                  <$> range_int ord attrs))
                  +:+ Str.concat
                        (Pretty.attribute <$> range_str ord customAttrs))
      as Hout.
    { unfold out, Pretty.open_tag_lead, known, custom.
      by rewrite concat_attributes_app, !app_assoc'. }
    eexists. rewrite Hout, !length_app, !app_assoc'.
    f_equal. f_equal. f_equal. simpl. lia. }
  destruct Hv as [Hki Hks].
  split; [apply Hki|]. split; [apply Hks|]. split; [|split].
  - destruct (Hlead w Hw) as [c ->]. by eexists.
  - unfold baseTag_renderCacheOpen, render_open.
    destruct (Hlead bytes_Buffer) as [c ->]; [done|].
    rewrite io_WriteString_reliable by done. simpl. by rewrite app_nil.
  - unfold singleTag_renderCacheOpen, render_open.
    destruct (Hlead bytes_Buffer) as [c ->]; [done|].
    rewrite io_WriteString_reliable by done. simpl. by rewrite app_nil.
Qed.

Lemma writeOpenTagLead_known_then_custom_witness :
  baseTag_renderCacheOpen canonical_order {[ kAttrId := "x" ]}
    {[ "data-a" := "1" ]} "div"
  = Ret (Pretty.open_tag_lead "div" [("id", "x"); ("data-a", "1")] +:+ ">",
         None)
  ∧ singleTag_renderCacheOpen canonical_order {[ kAttrId := "x" ]}
      {[ "data-a" := "1" ]} "br"
    = Ret (Pretty.open_tag_lead "br" [("id", "x"); ("data-a", "1")] +:+ " />",
           None).
Proof.
  assert (Pretty.known_in_range {[ kAttrId := "x" ]}) as Hr
    by (apply known_in_range_keys; vm_compute; reflexivity).
  assert (reliable bytes_Buffer) as Hw by (intros i s; reflexivity).
  split.
  - destruct (writeOpenTagLead_known_then_custom canonical_order
                {[ kAttrId := "x" ]} {[ "data-a" := "1" ]} "div" bytes_Buffer
                canonical_order_valid Hr Hw) as (_ & _ & _ & Hbase & _).
    exact Hbase.
  - destruct (writeOpenTagLead_known_then_custom canonical_order
                {[ kAttrId := "x" ]} {[ "data-a" := "1" ]} "br" bytes_Buffer
                canonical_order_valid Hr Hw) as (_ & _ & _ & _ & Hsingle).
    exact Hsingle.
Defined.

(** ** A copy renders like its source *)

Lemma tally_inW_heap n (m : M Writer result) (k1 k2 : nat → M St result)
    h w :
  (∀ n' w', k1 n' (h, w') = k2 n' (h, w')) →
  tally n (inW m) k1 (h, w) = tally n (inW m) k2 (h, w).
Proof.
  intros Hk. unfold tally, inW. simpl.
  destruct (m w) as [[[c [e|]] w']| |]; auto.
Qed.

Section twins.
Context (ord : MapOrder).

Lemma twin_baseTag_write cw l1 l2 h w b1 b2 :
  tags h !! l1 = Some b1 → tags h !! l2 = Some b2 →
  baseTag.tagType b1 = baseTag.tagType b2 →
  baseTag.hidden b1 = baseTag.hidden b2 →
  baseTag.children b1 = baseTag.children b2 →
  baseTag.isCacheClean b1 = true → baseTag.isCacheClean b2 = true →
  baseTag.cacheOpen b1 = baseTag.cacheOpen b2 →
  baseTag_write ord cw l1 (h, w) = baseTag_write ord cw l2 (h, w).
Proof.
  intros H1 H2 Hty Hhid Hch Hc1 Hc2 Hco.
  unfold baseTag_write, mbind, M_bind, inH, load_tag. simpl.
  rewrite H1, H2. simpl. rewrite Hhid, Hty, Hc1, Hc2.
  destruct (baseTag.hidden b2); [done|].
  destruct (Const.index tagTypeStringMap (baseTag.tagType b2)); [|done].
  unfold checked, mret, M_ret. simpl. by rewrite H1, H2, Hco, Hch.
Qed.

Lemma twin_singleTag_write l1 l2 h w b1 b2 :
  tags h !! l1 = Some b1 → tags h !! l2 = Some b2 →
  baseTag.tagType b1 = baseTag.tagType b2 →
  baseTag.isCacheClean b1 = true → baseTag.isCacheClean b2 = true →
  baseTag.cacheOpen b1 = baseTag.cacheOpen b2 →
  singleTag_write ord l1 (h, w) = singleTag_write ord l2 (h, w).
Proof.
  intros H1 H2 Hty Hc1 Hc2 Hco.
  unfold singleTag_write, mbind, M_bind, inH, load_tag. simpl.
  rewrite H1, H2. simpl. rewrite Hty, Hc1, Hc2.
  destruct (Const.index tagTypeStringMap (baseTag.tagType b2)); [|done].
  unfold checked, mret, M_ret. simpl. by rewrite H1, H2, Hco.
Qed.

Lemma twin_baseTag_writePretty cw l1 l2 indent h w b1 b2 :
  tags h !! l1 = Some b1 → tags h !! l2 = Some b2 →
  baseTag.tagType b1 = baseTag.tagType b2 →
  baseTag.hidden b1 = baseTag.hidden b2 →
  baseTag.children b1 = baseTag.children b2 →
  intMap_of h (baseTag.attrs b1) = intMap_of h (baseTag.attrs b2) →
  strMap_of h (baseTag.customAttrs b1)
  = strMap_of h (baseTag.customAttrs b2) →
  baseTag_writePretty ord cw l1 indent (h, w)
  = baseTag_writePretty ord cw l2 indent (h, w).
Proof.
  intros H1 H2 Hty Hhid Hch Hi Hs.
  unfold baseTag_writePretty, mbind, M_bind, inH, load_tag. simpl.
  rewrite H1, H2. simpl. rewrite Hhid, Hty.
  destruct (baseTag.hidden b2); [done|].
  destruct (Const.index tagTypeStringMap (baseTag.tagType b2)); [|done].
  unfold checked, mret, M_ret. simpl.
  apply tally_inW_heap. intros n w'. simpl. by rewrite Hi, Hs, Hch.
Qed.

Lemma twin_singleTag_writePretty l1 l2 indent h w b1 b2 :
  tags h !! l1 = Some b1 → tags h !! l2 = Some b2 →
  baseTag.tagType b1 = baseTag.tagType b2 →
  intMap_of h (baseTag.attrs b1) = intMap_of h (baseTag.attrs b2) →
  strMap_of h (baseTag.customAttrs b1)
  = strMap_of h (baseTag.customAttrs b2) →
  singleTag_writePretty ord l1 indent (h, w)
  = singleTag_writePretty ord l2 indent (h, w).
Proof.
  intros H1 H2 Hty Hi Hs.
  unfold singleTag_writePretty, mbind, M_bind, inH, load_tag. simpl.
  rewrite H1, H2. simpl. rewrite Hty.
  apply tally_inW_heap. intros n w'.
  destruct (Const.index tagTypeStringMap (baseTag.tagType b2)); [|done].
  unfold checked, mret, M_ret. simpl. by rewrite Hi, Hs.
Qed.

End twins.

Lemma refreshed_cacheOpen_clean s b :
  baseTag.isCacheClean b = true → refreshed s b = b.
Proof. unfold refreshed. by intros ->. Qed.

Lemma intMap_of_fresh h h1 r :
  intMaps h1 = <[fresh (dom (intMaps h)) := intMap_of h r]> (intMaps h) →
  intMap_of h1 r = intMap_of h r.
Proof.
  intros Hm. unfold intMap_of at 1. rewrite Hm.
  destruct r as [a|]; [|done]. simpl.
  destruct (decide (a = fresh (dom (intMaps h)))) as [->|Hne].
  - by rewrite lookup_insert_eq.
  - by rewrite lookup_insert_ne.
Qed.

Lemma strMap_of_fresh h h1 r :
  strMaps h1 = <[fresh (dom (strMaps h)) := strMap_of h r]> (strMaps h) →
  strMap_of h1 r = strMap_of h r.
Proof.
  intros Hm. unfold strMap_of at 1. rewrite Hm.
  destruct r as [c|]; [|done]. simpl.
  destruct (decide (c = fresh (dom (strMaps h)))) as [->|Hne].
  - by rewrite lookup_insert_eq.
  - by rewrite lookup_insert_ne.
Qed.

Lemma tally_same {S} n (m1 m2 : M S result) k s :
  m1 s = m2 s → tally n m1 k s = tally n m2 k s.
Proof. intros Hm. unfold tally. by rewrite Hm. Qed.

(** X26.  A copy renders like its source.  For an element without children
    that is not hidden, the tag that [Copy] returns renders, in compact and
    in pretty mode and on every sink, exactly as the source does.  The copy
    of an html root is a plain element: the root renders as the DOCTYPE line
    followed by what its copy renders. *)
Theorem Copy_renders_like_source (ord : MapOrder) (h : Heap) (ty : dynType)
    (l : loc) (b : baseTag.t) :
  valid_order ord → element_type ty →
  tags h !! l = Some b →
  is_Some (Const.index tagTypeStringMap (baseTag.tagType b)) →
  Pretty.known_in_range (intMap_of h (baseTag.attrs b)) →
  baseTag.children b = [] → baseTag.hidden b = false →
  ∃ (t' : Tag) (h' : Heap),
    Copy ord (ty, l) h = Ret (t', h')
    ∧ t'.2 ≠ l
    ∧ (ty ≠ THtml →
       ∀ fuel env wr indent,
         write ord fuel env (Tag_writer t') (h', wr)
         = write ord fuel env (TagW ty l) (h', wr)
         ∧ writePretty ord fuel env (Tag_writer t') indent (h', wr)
           = writePretty ord fuel env (TagW ty l) indent (h', wr))
    ∧ (ty = THtml →
       ∀ fuel env wr indent,
         write ord (S fuel) env (TagW ty l) (h', wr)
         = (let n := 0 in
            n += inW (io_WriteString "<!DOCTYPE html>") ;;;
            n += write ord (S fuel) env (Tag_writer t') ;;;
            mret (n, None)) (h', wr)
         ∧ writePretty ord (S fuel) env (TagW ty l) indent (h', wr)
           = (let n := 0 in
              n += inW (writeIndent indent) ;;;
              n += inW (io_WriteString
                          ("<!DOCTYPE html>" +:+ String newline "")) ;;;
              n += writePretty ord (S fuel) env (Tag_writer t') indent ;;;
              mret (n, None)) (h', wr)).
Proof.
  intros Hv [Hty1 Hty2] Hb Htag Hr Hch Hhid.
  set (finish := match ty with TSingle | TInput => " />" | _ => ">" end).
  set (ty' := match ty with TSingle | TInput => TSingle | _ => TBase end).
  destruct (copy_with_Ret ord finish l h b Hv Hb Htag Hr) as [s Hcopy].
  pose proof (fresh_lookup_None (tags h)) as Hl'.
  set (l' := fresh (dom (tags h))) in *.
  assert (l ≠ l') as Hne by congruence.
  match type of Hcopy with _ = Ret (_, ?hh) => set (h' := hh) in * end.
  exists (ty', l'), h'. split.
  { unfold Copy, baseTag_Copy, singleTag_Copy, baseTag_renderCacheOpen,
      singleTag_renderCacheOpen, mbind, M_bind.
    subst finish ty'.
    destruct ty; simpl in *; try done; by rewrite Hcopy. }
  split; [simpl; congruence|].
  set (b' := baseTag.mk (baseTag.tagType b) (Some (fresh (dom (intMaps h))))
               (Some (fresh (dom (strMaps h)))) [] None true
               (baseTag.cacheOpen (refreshed s b)) false) in *.
  assert (tags h' !! l' = Some b') as H1 by (simpl; by rewrite lookup_insert_eq).
  assert (tags h' !! l = Some (refreshed s b)) as H0
    by (simpl; by rewrite lookup_insert_ne, lookup_insert_eq).
  destruct (refreshed_shape s b) as (Hsty & Hsa & Hsc & Hsch & _ & Hsh).
  pose proof (refreshed_clean s b) as Hclean.
  assert (intMap_of h' (baseTag.attrs b')
          = intMap_of h' (baseTag.attrs (refreshed s b))) as Hi.
  { rewrite <-Hsa. rewrite (intMap_of_fresh h h' (baseTag.attrs b)) by done.
    unfold intMap_of. simpl. by rewrite lookup_insert_eq. }
  assert (strMap_of h' (baseTag.customAttrs b')
          = strMap_of h' (baseTag.customAttrs (refreshed s b))) as Hs.
  { rewrite <-Hsc. rewrite (strMap_of_fresh h h' (baseTag.customAttrs b)) by done.
    unfold strMap_of. simpl. by rewrite lookup_insert_eq. }
  assert (∀ cw wr, baseTag_write ord cw l' (h', wr)
                   = baseTag_write ord cw l (h', wr)) as Hbase.
  { intros cw wr. eapply twin_baseTag_write; try done; simpl; congruence. }
  assert (∀ cw wr indent, baseTag_writePretty ord cw l' indent (h', wr)
                          = baseTag_writePretty ord cw l indent (h', wr))
    as Hpretty.
  { intros cw wr indent.
    eapply twin_baseTag_writePretty; try done; simpl; congruence. }
  split.
  - intros Hnh fuel env wr indent.
    destruct fuel as [|fuel]; [done|]. subst ty'.
    destruct ty; try done; simpl; split;
      first [ apply Hbase | apply Hpretty
            | eapply twin_singleTag_write; try done; simpl; congruence
            | eapply twin_singleTag_writePretty; try done; simpl;
              congruence ].
  - intros -> fuel env wr indent. subst ty'. simpl. split.
    + unfold htmlTag_write. apply tally_inW_heap. intros n w'.
      apply tally_same. symmetry. apply Hbase.
    + unfold htmlTag_writePretty. apply tally_inW_heap. intros n w'.
      apply tally_inW_heap. intros n2 w2.
      apply tally_same. symmetry. apply Hpretty.
Qed.

Lemma Copy_renders_like_source_witness :
  ∃ t' h',
    Copy canonical_order (TBase, 0) Examples.div_id_title = Ret (t', h')
    ∧ t'.2 ≠ 0
    ∧ ∀ fuel env wr indent,
        write canonical_order fuel env (Tag_writer t') (h', wr)
        = write canonical_order fuel env (TagW TBase 0) (h', wr)
        ∧ writePretty canonical_order fuel env (Tag_writer t') indent (h', wr)
          = writePretty canonical_order fuel env (TagW TBase 0) indent
              (h', wr).
Proof.
  edestruct (Copy_renders_like_source canonical_order Examples.div_id_title
               TBase 0) as (t' & h' & Hcopy & Hne & Hsame & _).
  - exact canonical_order_valid.
  - split; discriminate.
  - vm_compute. reflexivity.
  - vm_compute. eexists. reflexivity.
  - apply known_in_range_keys. vm_compute. reflexivity.
  - reflexivity.
  - reflexivity.
  - exists t', h'. split; [exact Hcopy|]. split; [exact Hne|].
    apply Hsame. discriminate.
Defined.

(** ** ResetOptions *)

Lemma delete_keys_Ret (r : option loc) (ks : list Z) (h : Heap) :
  ∃ h',
    for_each_ ks (λ k, intMap_delete r k) h = Ret ((), h')
    ∧ tags h' = tags h ∧ texts h' = texts h ∧ textVars h' = textVars h
    ∧ strMaps h' = strMaps h
    ∧ (∀ a0, Some a0 ≠ r → intMaps h' !! a0 = intMaps h !! a0)
    ∧ (∀ k, intMap_of h' r !! k
            = if decide (k ∈ ks) then None else intMap_of h r !! k).
Proof.
  revert h. induction ks as [|k0 ks IH]; intros h.
  - exists h. repeat split; done.
  - cbn [for_each_]. unfold mbind, M_bind.
    destruct r as [a|].
    + unfold intMap_delete at 1. cbv beta iota.
      destruct (IH (with_intMaps
                      <[a := delete k0 (intMap_of h (Some a))]> h))
        as (h' & -> & Ht & Hx & Hv & Hs & Hi & Hk).
      exists h'. repeat split; try done.
      * intros a0 Ha0. rewrite Hi by done. simpl.
        rewrite lookup_insert_ne; [done|congruence].
      * intros k. rewrite Hk.
        assert (intMap_of
                  (with_intMaps <[a := delete k0 (intMap_of h (Some a))]> h)
                  (Some a)
                = delete k0 (intMap_of h (Some a))) as ->.
        { unfold intMap_of at 1. simpl. by rewrite lookup_insert_eq. }
        destruct (decide (k ∈ ks)) as [Hin|Hnin].
        -- rewrite decide_True; [done|by right].
        -- destruct (decide (k = k0)) as [->|Hne].
           ++ rewrite decide_True by by left. by rewrite lookup_delete_eq.
           ++ rewrite decide_False.
              ** by rewrite lookup_delete_ne.
              ** intros [?|?]%elem_of_cons; done.
    + unfold intMap_delete at 1, mret, M_ret. cbv beta iota.
      destruct (IH h) as (h' & -> & Ht & Hx & Hv & Hs & Hi & Hk).
      exists h'. repeat split; try done.
      intros k. unfold intMap_of. simpl. by destruct (decide _).
Qed.

(** X27.  [ResetOptions] deletes its attributes and nothing else.  On an
    input it returns with the twelve attributes action, alt, autocomplete,
    checked, disabled, height, maxlength, readonly, size, src, value and
    width absent and every other known attribute as it was, name and type
    among them; on an option the same holds for disabled, label, selected
    and value.  It writes to no tag, so that the cache flag of the tag is
    what it was, and to no other map; [Value()] afterwards is the empty
    string. *)
Theorem ResetOptions_deletes_its_attributes (l : loc) (h : Heap)
    (b : baseTag.t) :
  tags h !! l = Some b →
  (∃ h',
     InputTag_ResetOptions l h = Ret ((), h')
     ∧ tags h' = tags h ∧ texts h' = texts h ∧ textVars h' = textVars h
     ∧ strMaps h' = strMaps h
     ∧ (∀ a0, Some a0 ≠ baseTag.attrs b → intMaps h' !! a0 = intMaps h !! a0)
     ∧ (∀ k, intMap_of h' (baseTag.attrs b) !! k
             = if decide
                    (k ∈ [kAttrAction; kAttrAlt; kAttrAutocomplete;
                          kAttrChecked; kAttrDisabled; kAttrHeight;
                          kAttrMaxlength; kAttrReadonly; kAttrSize; kAttrSrc;
                          kAttrValue; kAttrWidth])
               then None else intMap_of h (baseTag.attrs b) !! k)
     ∧ intMap_of h' (baseTag.attrs b) !! kAttrName
       = intMap_of h (baseTag.attrs b) !! kAttrName
     ∧ intMap_of h' (baseTag.attrs b) !! kAttrType
       = intMap_of h (baseTag.attrs b) !! kAttrType
     ∧ InputTag_Value l h' = Ret ("", h'))
  ∧ (∃ h',
       OptionTag_ResetOptions l h = Ret ((), h')
       ∧ tags h' = tags h ∧ texts h' = texts h ∧ textVars h' = textVars h
       ∧ strMaps h' = strMaps h
       ∧ (∀ a0, Some a0 ≠ baseTag.attrs b →
            intMaps h' !! a0 = intMaps h !! a0)
       ∧ (∀ k, intMap_of h' (baseTag.attrs b) !! k
               = if decide
                      (k ∈ [kAttrDisabled; kAttrLabel; kAttrSelected;
                            kAttrValue])
                 then None else intMap_of h (baseTag.attrs b) !! k)
       ∧ OptionTag_Selected l h' = Ret (false, h')
       ∧ OptionTag_Value l h' = Ret ("", h')).
Proof.
  intros Hb. split.
  - unfold InputTag_ResetOptions, mbind at 1, M_bind at 1, load_tag at 1.
    rewrite Hb.
    destruct (delete_keys_Ret (baseTag.attrs b)
                [kAttrAction; kAttrAlt; kAttrAutocomplete; kAttrChecked;
                 kAttrDisabled; kAttrHeight; kAttrMaxlength; kAttrReadonly;
                 kAttrSize; kAttrSrc; kAttrValue; kAttrWidth] h)
      as (h' & Hrun & Ht & Hx & Hv & Hs & Hi & Hk).
    exists h'. repeat split; try done; try by rewrite Hk.
    unfold InputTag_Value, mbind, M_bind, load_tag, read_intMap.
    rewrite Ht, Hb. simpl. by rewrite Hk.
  - unfold OptionTag_ResetOptions, mbind at 1, M_bind at 1, load_tag at 1.
    rewrite Hb.
    destruct (delete_keys_Ret (baseTag.attrs b)
                [kAttrDisabled; kAttrLabel; kAttrSelected; kAttrValue] h)
      as (h' & Hrun & Ht & Hx & Hv & Hs & Hi & Hk).
    exists h'. repeat split; try done.
    + unfold OptionTag_Selected, mbind, M_bind, load_tag, read_intMap.
      rewrite Ht, Hb. simpl. by rewrite Hk.
    + unfold OptionTag_Value, mbind, M_bind, load_tag, read_intMap.
      rewrite Ht, Hb. simpl. by rewrite Hk.
Qed.

Lemma ResetOptions_deletes_its_attributes_witness :
  InputTag_Value 0 Examples.input_text_value
  = Ret ("v", Examples.input_text_value)
  ∧ ∃ h',
      InputTag_ResetOptions 0 Examples.input_text_value = Ret ((), h')
      ∧ tags h' = tags Examples.input_text_value
      ∧ intMap_of h' (Some 0) !! kAttrType = Some "text"
      ∧ InputTag_Value 0 h' = Ret ("", h').
Proof.
  split; [vm_compute; reflexivity|].
  edestruct (ResetOptions_deletes_its_attributes 0 Examples.input_text_value)
    as [(h' & Hrun & Ht & _ & _ & _ & _ & _ & _ & Hty & Hval) _].
  - vm_compute. reflexivity.
  - exists h'. split; [exact Hrun|]. split; [exact Ht|].
    split; [|exact Hval].
    etrans; [exact Hty|]. vm_compute. reflexivity.
Defined.

(** ** Hide on the types that do not render through baseTag *)

Lemma singleTag_write_ignores_hidden ord l h b hid w :
  tags h !! l = Some b →
  observe (singleTag_write ord l
             (with_tags <[l := baseTag.with_hidden hid b]> h, w))
  = observe (singleTag_write ord l (h, w)).
Proof.
  intros Hb. unfold singleTag_write, refresh_cache, inH, pure. heap_unfold.
  simpl. rewrite lookup_insert_eq, Hb. simpl.
  destruct (Const.index tagTypeStringMap (baseTag.tagType b)) as [tagStr|];
    [|done].
  destruct (baseTag.isCacheClean b) eqn:Hclean; simpl.
  - rewrite lookup_insert_eq, Hb. unfold inW. simpl.
    by destruct (io_WriteString _ w) as [[? ?]| |].
  - rewrite lookup_insert_eq, Hb. simpl.
    change (intMap_of (mkHeap ?t ?x ?v ?i ?s) ?r)
      with (default ∅ (r ≫= λ a, i !! a)).
    change (strMap_of (mkHeap ?t ?x ?v ?i ?s) ?r)
      with (default ∅ (r ≫= λ a, s !! a)).
    fold (intMap_of h (baseTag.attrs b)).
    fold (strMap_of h (baseTag.customAttrs b)).
    destruct (singleTag_renderCacheOpen ord _ _ tagStr) as [[s [e|]]| |];
      simpl; [| |done|done].
    + by rewrite lookup_insert_eq, Hb.
    + rewrite lookup_insert_eq, Hb. simpl.
      rewrite !lookup_insert_eq. simpl. rewrite !lookup_insert_eq.
      unfold inW. simpl.
      by destruct (io_WriteString _ w) as [[? ?]| |].
Qed.

Lemma observe_tally_inW n (m : M Writer result)
    (k1 k2 : nat → M St result) h1 h2 w :
  (∀ n' w', observe (k1 n' (h1, w')) = observe (k2 n' (h2, w'))) →
  observe (tally n (inW m) k1 (h1, w)) = observe (tally n (inW m) k2 (h2, w)).
Proof.
  intros Hk. unfold tally, inW. simpl.
  destruct (m w) as [[[c [e|]] w']| |]; simpl; auto.
Qed.

Lemma singleTag_writePretty_ignores_hidden ord l indent h b hid w :
  tags h !! l = Some b →
  observe (singleTag_writePretty ord l indent
             (with_tags <[l := baseTag.with_hidden hid b]> h, w))
  = observe (singleTag_writePretty ord l indent (h, w)).
Proof.
  intros Hb. unfold singleTag_writePretty, inH. heap_unfold.
  simpl. rewrite lookup_insert_eq, Hb. simpl.
  apply observe_tally_inW. intros n w'.
  destruct (Const.index tagTypeStringMap (baseTag.tagType b)) as [tagStr|];
    [|done].
  simpl. apply observe_tally_inW. intros n1 w1.
  apply observe_tally_inW. intros n2 w2. done.
Qed.

Lemma length_spaces n : String.length (Str.spaces n) = n.
Proof. induction n as [|n IH]; simpl; by rewrite ?IH. Qed.

(** X28.  [Hide] and the types that do not render through [baseTag].
    [Hide(v)] sets the flag that [isHidden()] returns and leaves the cache as
    it is.  A self-closing tag that is rendered itself ignores the flag: in
    compact and in pretty mode it returns the same result and writes the same
    bytes whether it is hidden or not.  A hidden html root still writes its
    DOCTYPE line, and nothing after it. *)
Theorem Hide_is_ignored_by_singleTag (ord : MapOrder) (l : loc) (h : Heap)
    (b : baseTag.t) (hid : bool) :
  tags h !! l = Some b →
  ∃ h1,
    Hide l hid h = Ret ((), h1)
    ∧ isHidden l h1 = Ret (hid, h1)
    ∧ (∀ ty fuel env w indent,
         ty = TSingle ∨ ty = TInput →
         observe (write ord fuel env (TagW ty l) (h1, w))
         = observe (write ord fuel env (TagW ty l) (h, w))
         ∧ observe (writePretty ord fuel env (TagW ty l) indent (h1, w))
           = observe (writePretty ord fuel env (TagW ty l) indent (h, w)))
    ∧ (hid = true →
       ∀ fuel env w indent,
         reliable w →
         observe (write ord (S fuel) env (TagW THtml l) (h1, w))
         = Ret ((15, None), written w +:+ "<!DOCTYPE html>")
         ∧ observe (writePretty ord (S fuel) env (TagW THtml l) indent
                      (h1, w))
           = Ret ((indent + 16, None),
                  written w +:+ Str.spaces indent +:+ "<!DOCTYPE html>"
                  +:+ String newline "")).
Proof.
  intros Hb.
  exists (with_tags <[l := baseTag.with_hidden hid b]> h).
  assert (tags (with_tags <[l := baseTag.with_hidden hid b]> h) !! l
          = Some (baseTag.with_hidden hid b)) as Hb1
    by (simpl; by rewrite lookup_insert_eq).
  split; [|split; [|split]].
  - unfold Hide. heap_unfold. by rewrite Hb.
  - unfold isHidden, mbind, M_bind, load_tag. by rewrite Hb1.
  - intros ty fuel env w indent Hty.
    destruct fuel as [|fuel]; [done|].
    destruct Hty as [-> | ->]; simpl; split;
      first [ by apply singleTag_write_ignores_hidden
            | by apply singleTag_writePretty_ignores_hidden ].
  - intros -> fuel env w indent Hw. simpl. split.
    + unfold htmlTag_write. unfold tally at 1, inW at 1. simpl.
      rewrite io_WriteString_reliable by exact Hw. simpl.
      unfold tally.
      erewrite baseTag_write_hidden; [|exact Hb1|done]. done.
    + unfold htmlTag_writePretty, writeIndent.
      unfold tally at 1, inW at 1. simpl.
      rewrite io_WriteString_reliable by exact Hw. simpl.
      unfold tally at 1, inW at 1. simpl.
      rewrite io_WriteString_reliable by (intros i s; apply Hw). simpl.
      unfold tally.
      erewrite baseTag_writePretty_hidden; [|exact Hb1|done]. simpl.
      rewrite length_spaces, app_assoc', Nat.add_0_r. done.
Qed.

Lemma Hide_is_ignored_by_singleTag_witness :
  ∃ h1,
    Hide 0 true Examples.input_text_value = Ret ((), h1)
    ∧ isHidden 0 h1 = Ret (true, h1)
    ∧ observe (write canonical_order 1 [] (TagW TInput 0) (h1, bytes_Buffer))
      = observe (write canonical_order 1 [] (TagW TInput 0)
                   (Examples.input_text_value, bytes_Buffer))
    ∧ observe (write canonical_order 1 [] (TagW TInput 0) (h1, bytes_Buffer))
      = Ret ((31, None),
             Pretty.open_tag_lead "input" [("type", "text"); ("value", "v")]
             +:+ " />").
Proof.
  edestruct (Hide_is_ignored_by_singleTag canonical_order 0
               Examples.input_text_value) as (h1 & Hhide & Hflag & Hsame & _).
  - vm_compute. reflexivity.
  - exists h1. split; [exact Hhide|]. split; [exact Hflag|].
    destruct (Hsame TInput 1 [] bytes_Buffer 0) as [Hwrite _];
      [by right|].
    split; [exact Hwrite|].
    etrans; [exact Hwrite|]. vm_compute. reflexivity.
Defined.

(** ** Text children *)

(** X29.  [t.T(s)] gives [t] a new last child, a text leaf that holds the
    HTML-escaped [s]: [Text()] of the leaf returns it, [Up()] of the leaf
    returns [t], and rendering the leaf writes it; it holds no angle bracket
    and no quote.  The call changes no other tag or leaf, and on [t] only the
    children: the cache of [t] stays as it is. *)
Theorem baseTag_T_adds_escaped_leaf (l : loc) (s : string) (h : Heap)
    (b : baseTag.t) :
  tags h !! l = Some b →
  ∃ lt h',
    baseTag_T l [s] h = Ret (lt, h')
    ∧ texts h !! lt = None
    ∧ tags h' !! l
      = Some (baseTag.with_children (baseTag.children b ++ [TextW lt]) b)
    ∧ TextTag_Text lt h' = Ret (html_EscapeString s, h')
    ∧ TextTag_Up lt [] h' = Ret (Some l, h')
    ∧ Forall (λ c, is_markup c = false) (Str.bytes (html_EscapeString s))
    ∧ (∀ ord fuel env w,
         reliable w →
         write ord (S fuel) env (TextW lt) (h', w)
         = Ret ((String.length (html_EscapeString s), None),
                (h', absorb w (html_EscapeString s) 1)))
    ∧ (∀ l0, l0 ≠ l → tags h' !! l0 = tags h !! l0)
    ∧ (∀ l0, l0 ≠ lt → texts h' !! l0 = texts h !! l0)
    ∧ textVars h' = textVars h
    ∧ intMaps h' = intMaps h ∧ strMaps h' = strMaps h.
Proof.
  intros Hb. eexists _, _. split.
  { unfold baseTag_T, htmlGen_T. heap_unfold. simpl.
    rewrite lookup_insert_eq. simpl. rewrite Hb. reflexivity. }
  split; [apply fresh_lookup_None|].
  split; [simpl; by rewrite lookup_insert_eq|].
  split.
  { unfold TextTag_Text. heap_unfold. simpl.
    by rewrite insert_insert_eq, lookup_insert_eq. }
  split.
  { unfold TextTag_Up. heap_unfold. simpl.
    by rewrite insert_insert_eq, lookup_insert_eq. }
  split; [apply escape_no_markup|].
  split.
  { intros ord fuel env w Hw. simpl. unfold inH. heap_unfold. simpl.
    rewrite insert_insert_eq, lookup_insert_eq. simpl.
    unfold inW, TextTag.write. simpl.
    rewrite io_WriteString_reliable by exact Hw. simpl.
    unfold absorb. by rewrite Nat.add_1_r. }
  split; [intros l0 Hl0; simpl; by rewrite lookup_insert_ne|].
  split; [|done].
  intros l0 Hl0. simpl. by rewrite insert_insert_eq, lookup_insert_ne.
Qed.

Lemma baseTag_T_adds_escaped_leaf_witness :
  ∃ lt h',
    baseTag_T 0 ["a<b"] Examples.div_id_title = Ret (lt, h')
    ∧ TextTag_Text lt h' = Ret ("a&lt;b", h')
    ∧ TextTag_Up lt [] h' = Ret (Some 0, h').
Proof.
  edestruct (baseTag_T_adds_escaped_leaf 0 "a<b" Examples.div_id_title)
    as (lt & h' & Hrun & _ & _ & Htext & Hup & _).
  - vm_compute. reflexivity.
  - exists lt, h'. split; [exact Hrun|]. split; [exact Htext|exact Hup].
Defined.

(** ** The children that are not added by addChild *)

Lemma orphan_calls l h b :
  tags h !! l = Some b → baseTag.parent b = None →
  Parent l h = Ret (None, h)
  ∧ baseTag_Up l [] h = Ret (None, h)
  ∧ baseTag_Up l [2%Z] h = Panic
  ∧ RemoveParent l h = Panic.
Proof.
  intros Hb Hp. repeat split.
  - unfold Parent. heap_unfold. by rewrite Hb, Hp.
  - unfold baseTag_Up. heap_unfold. by rewrite Hb, Hp.
  - unfold baseTag_Up. heap_unfold. by rewrite Hb, Hp.
  - unfold RemoveParent. heap_unfold. by rewrite Hb, Hp.
Qed.

(** X30.  [Body()] and [Input()] do not go through [addChild]: they append
    the new tag to the children of [t] and leave its parent reference nil.
    On the tag they return, [Parent()] and [Up()] return nil, while [Up(2)]
    and [RemoveParent()] panic. *)
Theorem Body_and_Input_leave_parent_nil (l : loc) (h : Heap) (b : baseTag.t) :
  tags h !! l = Some b →
  (∃ t h',
     baseTag_Body l h = Ret (t, h')
     ∧ t.1 = TBody
     ∧ tags h !! t.2 = None
     ∧ tags h' !! l
       = Some (baseTag.with_children (baseTag.children b ++ [Tag_writer t]) b)
     ∧ Parent t.2 h' = Ret (None, h')
     ∧ baseTag_Up t.2 [] h' = Ret (None, h')
     ∧ baseTag_Up t.2 [2%Z] h' = Panic
     ∧ RemoveParent t.2 h' = Panic)
  ∧ (∀ inputType, ∃ t h',
       baseTag_Input l inputType h = Ret (t, h')
       ∧ t.1 = TInput
       ∧ tags h !! t.2 = None
       ∧ tags h' !! l
         = Some (baseTag.with_children
                   (baseTag.children b ++ [Tag_writer t]) b)
       ∧ Parent t.2 h' = Ret (None, h')
       ∧ baseTag_Up t.2 [] h' = Ret (None, h')
       ∧ baseTag_Up t.2 [2%Z] h' = Panic
       ∧ RemoveParent t.2 h' = Panic).
Proof.
  intros Hb.
  pose proof (fresh_lookup_None (tags h)) as Hl'.
  assert (l ≠ fresh (dom (tags h))) as Hne by congruence.
  split.
  - eexists (TBody, fresh (dom (tags h))), _. split.
    { unfold baseTag_Body, htmlGen_Body, newBaseTag. heap_unfold. simpl.
      rewrite lookup_insert_ne by done. rewrite Hb. reflexivity. }
    split; [done|]. split; [done|].
    split; [simpl; by rewrite lookup_insert_eq|].
    eapply orphan_calls.
    + simpl. by rewrite lookup_insert_ne, lookup_insert_eq.
    + done.
  - intros inputType.
    assert (∃ h',
              baseTag_Input l inputType h
              = Ret ((TInput, fresh (dom (tags h))), h')
              ∧ tags h'
                = <[l := baseTag.with_children
                           (baseTag.children b
                            ++ [TagW TInput (fresh (dom (tags h)))]) b]>
                    (<[fresh (dom (tags h)) :=
                         baseTag.mk kTagTypeInput
                           (Some (fresh (dom (intMaps h))))
                           (Some (fresh (dom (strMaps h)))) [] None false
                           "" false]> (tags h)))
      as (h' & Hrun & Htags).
    { unfold baseTag_Input, htmlGen_Input, newSingleTag. heap_unfold. simpl.
      rewrite lookup_insert_eq. simpl.
      destruct (decide (0 < String.length inputType)); simpl;
        rewrite lookup_insert_ne by done; rewrite Hb; eexists;
        (split; [reflexivity|done]). }
    exists (TInput, fresh (dom (tags h))), h'.
    split; [exact Hrun|]. split; [done|]. split; [done|].
    split; [rewrite Htags; by rewrite lookup_insert_eq|].
    eapply orphan_calls.
    + rewrite Htags. by rewrite lookup_insert_ne, lookup_insert_eq.
    + done.
Qed.

Lemma Body_and_Input_leave_parent_nil_witness :
  ∃ t h',
    baseTag_Body 0 Examples.div_id_title = Ret (t, h')
    ∧ Parent t.2 h' = Ret (None, h')
    ∧ RemoveParent t.2 h' = Panic.
Proof.
  edestruct (Body_and_Input_leave_parent_nil 0 Examples.div_id_title)
    as [(t & h' & Hrun & _ & _ & _ & Hparent & _ & _ & Hremove) _].
  - vm_compute. reflexivity.
  - exists t, h'. split; [exact Hrun|]. split; [exact Hparent|exact Hremove].
Defined.
